(** * MultipleShootingTrajectory: a shallow embedding

    The Python class [MultipleShootingTrajectory]
    (python/neural/MultipleShootingTrajectory.py) is embedded function by
    function.  Python ints are [Z] (indices and cursors that never go
    negative are [nat]), numpy/torch float64 values are the kernel's binary64
    [float] (a float32 is the binary64 value it denotes), one-dimensional
    arrays are lists, matrices are lists of rows.
    Code that can raise returns [res]; methods that mutate the object are
    state transformers over the record [Traj], which also carries what was
    printed and which external callables were invoked. *)

From Stdlib Require Import String ZArith List Bool Lia Floats.
Import ListNotations.
Local Open Scope Z_scope.
Set Warnings "-inexact-float".

(** ** Exceptions and results *)

(** Python's exceptions.  The first seven are the ones the embedded code
    raises itself; an external callable may raise anything: another subclass
    of [Exception], or one of the classes that derive from [BaseException]
    without deriving from [Exception]. *)
Inductive exn : Type :=
| AssertionError
| IndexError
| TypeError
| ValueError
| ZeroDivisionError
| AttributeError
| RuntimeError
| OtherException (name : string)
| KeyboardInterrupt
| SystemExit
| GeneratorExit
| OtherBaseException (name : string).

(** [isinstance(e, Exception)] *)
Definition is_Exception (e : exn) : bool :=
  match e with
  | KeyboardInterrupt | SystemExit | GeneratorExit | OtherBaseException _ => false
  | _ => true
  end.

Inductive res (A : Type) : Type :=
| Ok (a : A)
| Err (e : exn).
Arguments Ok {A} a.
Arguments Err {A} e.

Definition rbind {A B : Type} (c : res A) (k : A -> res B) : res B :=
  match c with
  | Ok a => k a
  | Err e => Err e
  end.

Declare Scope res_scope.
Delimit Scope res_scope with res.
Notation "x <- c ;; k" := (rbind c (fun x => k))
  (at level 61, c at next level, right associativity) : res_scope.
Notation "' p <- c ;; k" := (rbind c (fun p => k))
  (at level 61, p pattern, c at next level, right associativity) : res_scope.

Definition rassert (b : bool) : res unit :=
  if b then Ok tt else Err AssertionError.

(** [for x in l: s = f x s], stopping at the first exception. *)
Fixpoint foldM {X S : Type} (f : X -> S -> res S) (l : list X) (s : S) : res S :=
  match l with
  | [] => Ok s
  | x :: l' => rbind (f x s) (foldM f l')
  end.

(** ** Python and numpy helpers *)

Definition vec := list float.
Definition matrix := list vec.

(** [range(n)] and [range(a, b)] for Python ints. *)
Definition range (n : Z) : list Z := map Z.of_nat (seq 0 (Z.to_nat n)).
Definition range2 (a b : Z) : list Z := map (fun k => a + Z.of_nat k) (seq 0 (Z.to_nat (b - a))).
Definition nrange (n : nat) : list nat := seq 0 n.

(** [l[i]] on a Python list: negative indices count from the end, anything
    outside raises [IndexError]. *)
Definition py_get {A : Type} (l : list A) (i : Z) : res A :=
  let n := Z.of_nat (length l) in
  let k := if i <? 0 then i + n else i in
  if (k <? 0) || (n <=? k) then Err IndexError
  else match nth_error l (Z.to_nat k) with
       | Some a => Ok a
       | None => Err IndexError
       end.

Fixpoint list_set {A : Type} (l : list A) (k : nat) (v : A) : list A :=
  match l, k with
  | [], _ => []
  | _ :: l', O => v :: l'
  | a :: l', S k' => a :: list_set l' k' v
  end.

(** [l[i] = v] on a Python list or a one-dimensional array. *)
Definition py_set {A : Type} (l : list A) (i : Z) (v : A) : res (list A) :=
  let n := Z.of_nat (length l) in
  let k := if i <? 0 then i + n else i in
  if (k <? 0) || (n <=? k) then Err IndexError
  else Ok (list_set l (Z.to_nat k) v).

(** [l[a:b]] for [0 <= a]: slices never raise, they truncate. *)
Definition py_slice {A : Type} (l : list A) (a b : nat) : list A :=
  firstn (b - a) (skipn a l).

(** [l[a:]] *)
Definition py_slice_from {A : Type} (l : list A) (a : nat) : list A := skipn a l.

Definition np_zeros (n : nat) : vec := repeat 0%float n.
Definition np_isnan_any (v : vec) : bool := existsb PrimFloat.is_nan v.

(** [out[a:b] = v] on a one-dimensional array: the target is the truncated
    slice; [v] must have its shape or broadcast to it (length one). *)
Definition np_set_slice (out : vec) (a b : nat) (v : vec) : res vec :=
  let lo := Nat.min a (length out) in
  let hi := Nat.min b (length out) in
  let n := (hi - lo)%nat in
  if Nat.eqb (length v) n then Ok (firstn lo out ++ v ++ skipn hi out)
  else if Nat.eqb (length v) 1 then
    Ok (firstn lo out ++ repeat (hd 0%float v) n ++ skipn hi out)
  else Err ValueError.

(** Elementwise binary operation with broadcasting of a length-one operand. *)
Definition broadcast2 (f : float -> float -> float) (a b : vec) : res vec :=
  if Nat.eqb (length a) (length b) then Ok (map (fun p => f (fst p) (snd p)) (combine a b))
  else if Nat.eqb (length a) 1 then Ok (map (f (hd 0%float a)) b)
  else if Nat.eqb (length b) 1 then Ok (map (fun x => f x (hd 0%float b)) a)
  else Err RuntimeError.

Definition vsub : vec -> vec -> res vec := broadcast2 PrimFloat.sub.
Definition vadd : vec -> vec -> res vec := broadcast2 PrimFloat.add.

(** The float32 nearest to [x], ties to even, overflowing to an infinity:
    what a Python float or a float64 scalar becomes when it meets a torch
    tensor of dtype [torch.float].  A float32 is held as the binary64 value
    it denotes. *)
Definition to_float32 (x : float) : float :=
  match Prim2SF x with
  | S754_finite s m e => SF2Prim (binary_round 24 128 s m e)
  | _ => x
  end.

(** [a + b] for a float32 tensor [a] of one element and a Python float or a
    zero-dimensional float64 tensor [b]: the result is a float32 tensor. *)
Definition add_float32 (a b : float) : float :=
  to_float32 (PrimFloat.add a (to_float32 b)).

(** An int64 value of a torch tensor promoted to float64. *)
Definition float_of_int (z : Z) : float :=
  if z <? 0 then PrimFloat.opp (PrimFloat.of_uint63 (Uint63.of_Z (- z)))
  else PrimFloat.of_uint63 (Uint63.of_Z z).

(** [torques[i] * mask]: float64 tensor times int64 tensor. *)
Definition mul_mask (t : vec) (mask : list Z) : res vec :=
  broadcast2 PrimFloat.mul t (map float_of_int mask).

(** ** The data model *)

(** What the code reads from [dart.simulation.World]. *)
Record World : Type := mkWorld {
  getNumDofs : nat;
  getPositions : vec;
  getVelocities : vec;
  getTimeStep : float;
  getPositionUpperLimits : vec;
  getPositionLowerLimits : vec;
  getVelocityUpperLimits : vec;
  getVelocityLowerLimits : vec;
  getForceUpperLimits : vec;
  getForceLowerLimits : vec
}.

(** [dart.neural.BackpropSnapshot]: the per-step sensitivities the Jacobian
    assembler reads. *)
Record BackpropSnapshot : Type := mkSnapshot {
  getPosPosJacobian : matrix;   (* p_t+1 <-- p_t *)
  getPosVelJacobian : matrix;   (* v_t+1 <-- p_t *)
  getVelVelJacobian : matrix;   (* v_t+1 <-- v_t *)
  getForceVelJacobian : matrix  (* v_t+1 <-- f_t *)
}.

(** A torch leaf tensor: its values and its gradient accumulator. *)
Record Tensor : Type := mkTensor {
  data : vec;
  grad : option vec;
  requires_grad : bool
}.

Definition set_data (v : vec) (t : Tensor) : Tensor :=
  {| data := v; grad := grad t; requires_grad := requires_grad t |}.
Definition set_grad (g : option vec) (t : Tensor) : Tensor :=
  {| data := data t; grad := g; requires_grad := requires_grad t |}.

(** A line written by [print]. *)
Inductive line : Type :=
| Print (s : string)
| PrintVec (s : string) (v : vec)
| PrintKnot (s : string) (k : Z)
| PrintExn (e : exn).

(** An invocation of one of the external callables. *)
Inductive call : Type :=
| CallStepLoss (pos vel t : vec)
| CallDartLayer (pos vel t : vec)
| CallFinalLoss (pos vel : vec)
| CallAfterStep (pos vel t : vec).

(** The attributes fixed by the constructor. *)
Record Config : Type := mkConfig {
  world : World;
  steps : Z;
  shooting_length : Z;
  disable_actuators : list Z;
  tune_starting_point : bool;
  enforce_loop : bool;
  enforce_final_state : option vec;
  num_shots : Z;
  mask : list Z;
  soft_knot_barrier_strength : float
}.

(** The object: its configuration, the decision variables, the results of
    the last rollout, and (ghost) the output stream and the external calls. *)
Record Traj : Type := mkTraj {
  cfg : Config;
  torques : list Tensor;
  knot_poses : list Tensor;
  knot_vels : list Tensor;
  last_x : vec;
  snapshots : list (option BackpropSnapshot);
  last_loss : float;
  last_preknot_poses : list vec;
  last_preknot_vels : list vec;
  last_terminal_pos : vec;
  last_terminal_vel : vec;
  stdout : list line;
  calls : list call
}.

Definition world_dofs (t : Traj) : nat := getNumDofs (world (cfg t)).

Definition set_torques (v : list Tensor) (t : Traj) : Traj :=
  {| cfg := cfg t; torques := v; knot_poses := knot_poses t; knot_vels := knot_vels t;
     last_x := last_x t; snapshots := snapshots t; last_loss := last_loss t;
     last_preknot_poses := last_preknot_poses t; last_preknot_vels := last_preknot_vels t;
     last_terminal_pos := last_terminal_pos t; last_terminal_vel := last_terminal_vel t;
     stdout := stdout t; calls := calls t |}.
Definition set_knot_poses (v : list Tensor) (t : Traj) : Traj :=
  {| cfg := cfg t; torques := torques t; knot_poses := v; knot_vels := knot_vels t;
     last_x := last_x t; snapshots := snapshots t; last_loss := last_loss t;
     last_preknot_poses := last_preknot_poses t; last_preknot_vels := last_preknot_vels t;
     last_terminal_pos := last_terminal_pos t; last_terminal_vel := last_terminal_vel t;
     stdout := stdout t; calls := calls t |}.
Definition set_knot_vels (v : list Tensor) (t : Traj) : Traj :=
  {| cfg := cfg t; torques := torques t; knot_poses := knot_poses t; knot_vels := v;
     last_x := last_x t; snapshots := snapshots t; last_loss := last_loss t;
     last_preknot_poses := last_preknot_poses t; last_preknot_vels := last_preknot_vels t;
     last_terminal_pos := last_terminal_pos t; last_terminal_vel := last_terminal_vel t;
     stdout := stdout t; calls := calls t |}.
Definition set_last_x (v : vec) (t : Traj) : Traj :=
  {| cfg := cfg t; torques := torques t; knot_poses := knot_poses t; knot_vels := knot_vels t;
     last_x := v; snapshots := snapshots t; last_loss := last_loss t;
     last_preknot_poses := last_preknot_poses t; last_preknot_vels := last_preknot_vels t;
     last_terminal_pos := last_terminal_pos t; last_terminal_vel := last_terminal_vel t;
     stdout := stdout t; calls := calls t |}.
Definition set_snapshots (v : list (option BackpropSnapshot)) (t : Traj) : Traj :=
  {| cfg := cfg t; torques := torques t; knot_poses := knot_poses t; knot_vels := knot_vels t;
     last_x := last_x t; snapshots := v; last_loss := last_loss t;
     last_preknot_poses := last_preknot_poses t; last_preknot_vels := last_preknot_vels t;
     last_terminal_pos := last_terminal_pos t; last_terminal_vel := last_terminal_vel t;
     stdout := stdout t; calls := calls t |}.
Definition set_last_loss (v : float) (t : Traj) : Traj :=
  {| cfg := cfg t; torques := torques t; knot_poses := knot_poses t; knot_vels := knot_vels t;
     last_x := last_x t; snapshots := snapshots t; last_loss := v;
     last_preknot_poses := last_preknot_poses t; last_preknot_vels := last_preknot_vels t;
     last_terminal_pos := last_terminal_pos t; last_terminal_vel := last_terminal_vel t;
     stdout := stdout t; calls := calls t |}.
Definition set_last_preknot_poses (v : list vec) (t : Traj) : Traj :=
  {| cfg := cfg t; torques := torques t; knot_poses := knot_poses t; knot_vels := knot_vels t;
     last_x := last_x t; snapshots := snapshots t; last_loss := last_loss t;
     last_preknot_poses := v; last_preknot_vels := last_preknot_vels t;
     last_terminal_pos := last_terminal_pos t; last_terminal_vel := last_terminal_vel t;
     stdout := stdout t; calls := calls t |}.
Definition set_last_preknot_vels (v : list vec) (t : Traj) : Traj :=
  {| cfg := cfg t; torques := torques t; knot_poses := knot_poses t; knot_vels := knot_vels t;
     last_x := last_x t; snapshots := snapshots t; last_loss := last_loss t;
     last_preknot_poses := last_preknot_poses t; last_preknot_vels := v;
     last_terminal_pos := last_terminal_pos t; last_terminal_vel := last_terminal_vel t;
     stdout := stdout t; calls := calls t |}.
Definition set_last_terminal (p v : vec) (t : Traj) : Traj :=
  {| cfg := cfg t; torques := torques t; knot_poses := knot_poses t; knot_vels := knot_vels t;
     last_x := last_x t; snapshots := snapshots t; last_loss := last_loss t;
     last_preknot_poses := last_preknot_poses t; last_preknot_vels := last_preknot_vels t;
     last_terminal_pos := p; last_terminal_vel := v;
     stdout := stdout t; calls := calls t |}.
Definition print (l : line) (t : Traj) : Traj :=
  {| cfg := cfg t; torques := torques t; knot_poses := knot_poses t; knot_vels := knot_vels t;
     last_x := last_x t; snapshots := snapshots t; last_loss := last_loss t;
     last_preknot_poses := last_preknot_poses t; last_preknot_vels := last_preknot_vels t;
     last_terminal_pos := last_terminal_pos t; last_terminal_vel := last_terminal_vel t;
     stdout := stdout t ++ [l]; calls := calls t |}.
Definition record_call (c : call) (t : Traj) : Traj :=
  {| cfg := cfg t; torques := torques t; knot_poses := knot_poses t; knot_vels := knot_vels t;
     last_x := last_x t; snapshots := snapshots t; last_loss := last_loss t;
     last_preknot_poses := last_preknot_poses t; last_preknot_vels := last_preknot_vels t;
     last_terminal_pos := last_terminal_pos t; last_terminal_vel := last_terminal_vel t;
     stdout := stdout t; calls := calls t ++ [c] |}.

(** ** Dimensions (lines 187-219) *)

(** [a % b] on Python ints. *)
Definition py_mod (a b : Z) : res Z :=
  if b =? 0 then Err ZeroDivisionError else Ok (a mod b).

(** [math.floor(a / b)] on Python ints. *)
Definition py_floor_div (a b : Z) : res Z :=
  if b =? 0 then Err ZeroDivisionError else Ok (a / b).

Local Open Scope res_scope.

Definition get_flat_problem_dim (self : Traj) : res Z :=
  let world_dofs := Z.of_nat (world_dofs self) in
  let knot_phase_dim := world_dofs * 2 in
  let torques_dim := shooting_length (cfg self) * world_dofs in
  let shot_dim := knot_phase_dim + torques_dim in
  let dims := num_shots (cfg self) * shot_dim in
  let dims := if negb (tune_starting_point (cfg self)) then dims - 2 * world_dofs else dims in
  r <- py_mod (steps (cfg self)) (shooting_length (cfg self)) ;;
  Ok (dims - r * world_dofs).

Definition loop_or_final (self : Traj) : bool :=
  enforce_loop (cfg self) ||
  match enforce_final_state (cfg self) with Some _ => true | None => false end.

Definition get_constraint_dim (self : Traj) : Z :=
  let world_dofs := Z.of_nat (world_dofs self) in
  let knot_phase_dim := world_dofs * 2 in
  let num_knot_points := num_shots (cfg self) - 1 in
  let num_knot_points := if loop_or_final self then num_knot_points + 1 else num_knot_points in
  num_knot_points * knot_phase_dim.

(** ** The constructor (lines 16-85) *)

Definition zeros_tensor (n : nat) : Tensor :=
  {| data := np_zeros n; grad := None; requires_grad := true |}.

Definition __init__ (world : World) (steps shooting_length : Z)
    (tune_starting_point enforce_loop : bool) (enforce_final_state : option vec)
    (disable_actuators : list Z) : res Traj :=
  let self_shooting_length := Z.min shooting_length steps in
  _ <- rassert (negb (enforce_loop &&
                      match enforce_final_state with Some _ => true | None => false end)) ;;
  let world_dofs := getNumDofs world in
  num_shots <- py_floor_div steps shooting_length ;;
  let torques := map (fun _ => zeros_tensor world_dofs) (range steps) in
  let knot_poses :=
    [ {| data := getPositions world; grad := None; requires_grad := tune_starting_point |} ]
    ++ map (fun _ => zeros_tensor world_dofs) (range (num_shots - 1)) in
  let knot_vels :=
    [ {| data := getVelocities world; grad := None; requires_grad := tune_starting_point |} ]
    ++ map (fun _ => zeros_tensor world_dofs) (range (num_shots - 1)) in
  mask <- foldM (fun j m => py_set m j 0) disable_actuators (repeat 1 world_dofs) ;;
  let self :=
    {| cfg := {| world := world; steps := steps; shooting_length := self_shooting_length;
                 disable_actuators := disable_actuators;
                 tune_starting_point := tune_starting_point;
                 enforce_loop := enforce_loop;
                 enforce_final_state := enforce_final_state;
                 num_shots := num_shots; mask := mask;
                 soft_knot_barrier_strength := 1%float |};
       torques := torques; knot_poses := knot_poses; knot_vels := knot_vels;
       last_x := [];
       snapshots := repeat None (Z.to_nat steps);
       last_loss := 0%float;
       last_preknot_poses := repeat (np_zeros world_dofs) (Z.to_nat num_shots);
       last_preknot_vels := repeat (np_zeros world_dofs) (Z.to_nat num_shots);
       last_terminal_pos := np_zeros world_dofs;
       last_terminal_vel := np_zeros world_dofs;
       stdout := []; calls := [] |} in
  n <- get_flat_problem_dim self ;;
  if n <? 0 then Err ValueError
  else Ok (set_last_x (repeat 1e19%float (Z.to_nat n)) self).

(** ** The encoding layer (lines 221-334) *)

Definition grad_or_zeros (n : nat) (t : Tensor) : vec :=
  match grad t with
  | None => np_zeros n
  | Some g => g
  end.

(** The loop variables of [flatten]: [out], [flat_cursor], [torque_cursor]. *)
Definition flat_state : Type := (vec * nat * nat)%type.

(** The knot part of one iteration of [flatten]'s outer loop (lines 232-254). *)
Definition flatten_knot (self : Traj) (which : string) (i : Z) (st : flat_state)
  : res flat_state :=
  let world_dofs := world_dofs self in
  let '(out, flat_cursor, torque_cursor) := st in
  if (which =? "grad")%string then
    kp <- py_get (knot_poses self) i ;;
    out <- np_set_slice out flat_cursor (flat_cursor + world_dofs) (grad_or_zeros world_dofs kp) ;;
    let flat_cursor := (flat_cursor + world_dofs)%nat in
    kv <- py_get (knot_vels self) i ;;
    out <- np_set_slice out flat_cursor (flat_cursor + world_dofs) (grad_or_zeros world_dofs kv) ;;
    Ok (out, (flat_cursor + world_dofs)%nat, torque_cursor)
  else if (which =? "upper_bound")%string then
    out <- np_set_slice out flat_cursor (flat_cursor + world_dofs)
             (getPositionUpperLimits (world (cfg self))) ;;
    let flat_cursor := (flat_cursor + world_dofs)%nat in
    out <- np_set_slice out flat_cursor (flat_cursor + world_dofs)
             (getVelocityUpperLimits (world (cfg self))) ;;
    Ok (out, (flat_cursor + world_dofs)%nat, torque_cursor)
  else if (which =? "lower_bound")%string then
    out <- np_set_slice out flat_cursor (flat_cursor + world_dofs)
             (getPositionLowerLimits (world (cfg self))) ;;
    let flat_cursor := (flat_cursor + world_dofs)%nat in
    out <- np_set_slice out flat_cursor (flat_cursor + world_dofs)
             (getVelocityLowerLimits (world (cfg self))) ;;
    Ok (out, (flat_cursor + world_dofs)%nat, torque_cursor)
  else
    _ <- rassert (which =? "state")%string ;;
    kp <- py_get (knot_poses self) i ;;
    out <- np_set_slice out flat_cursor (flat_cursor + world_dofs) (data kp) ;;
    let flat_cursor := (flat_cursor + world_dofs)%nat in
    kv <- py_get (knot_vels self) i ;;
    out <- np_set_slice out flat_cursor (flat_cursor + world_dofs) (data kv) ;;
    Ok (out, (flat_cursor + world_dofs)%nat, torque_cursor).

(** One iteration of [flatten]'s inner loop (lines 258-269). *)
Definition flatten_torque (self : Traj) (which : string) (j : Z) (st : flat_state)
  : res flat_state :=
  let world_dofs := world_dofs self in
  let '(out, flat_cursor, torque_cursor) := st in
  out <-
    (if (which =? "grad")%string then
       tq <- py_get (torques self) (Z.of_nat torque_cursor) ;;
       np_set_slice out flat_cursor (flat_cursor + world_dofs) (grad_or_zeros world_dofs tq)
     else if (which =? "upper_bound")%string then
       np_set_slice out flat_cursor (flat_cursor + world_dofs)
         (getForceUpperLimits (world (cfg self)))
     else if (which =? "lower_bound")%string then
       np_set_slice out flat_cursor (flat_cursor + world_dofs)
         (getForceLowerLimits (world (cfg self)))
     else
       _ <- rassert (which =? "state")%string ;;
       tq <- py_get (torques self) (Z.of_nat torque_cursor) ;;
       np_set_slice out flat_cursor (flat_cursor + world_dofs) (data tq)) ;;
  Ok (out, (flat_cursor + world_dofs)%nat, S torque_cursor).

(** [min(self.shooting_length, len(self.torques) - torque_cursor)] *)
Definition shot_length (self : Traj) (torque_cursor : nat) : Z :=
  Z.min (shooting_length (cfg self))
        (Z.of_nat (length (torques self)) - Z.of_nat torque_cursor).

Definition flatten_shot (self : Traj) (which : string) (i : Z) (st : flat_state)
  : res flat_state :=
  st <- (if (0 <? i) || tune_starting_point (cfg self)
         then flatten_knot self which i st else Ok st) ;;
  foldM (flatten_torque self which) (range (shot_length self (snd st))) st.

Definition flatten_loop (self : Traj) (which : string) (out : vec) : res flat_state :=
  foldM (flatten_shot self which) (range (num_shots (cfg self))) (out, O, O).

Definition flatten (self : Traj) (out : vec) (which : string) : res vec :=
  n <- get_flat_problem_dim self ;;
  _ <- rassert (Z.of_nat (length out) =? n) ;;
  st <- flatten_loop self which out ;;
  Ok (fst (fst st)).

(** The loop variables of [unflatten]: the object, [flat_cursor],
    [torque_cursor]. *)
Definition unflat_state : Type := (Traj * nat * nat)%type.

Definition set_tensor_data (l : list Tensor) (i : Z) (v : vec) : res (list Tensor) :=
  t <- py_get l i ;;
  py_set l i (set_data v t).

Definition unflatten_torque (x : vec) (j : Z) (st : unflat_state) : res unflat_state :=
  let '(self, flat_cursor, torque_cursor) := st in
  let world_dofs := world_dofs self in
  tq <- set_tensor_data (torques self) (Z.of_nat torque_cursor)
          (py_slice x flat_cursor (flat_cursor + world_dofs)) ;;
  Ok (set_torques tq self, (flat_cursor + world_dofs)%nat, S torque_cursor).

Definition unflatten_shot (x : vec) (i : Z) (st : unflat_state) : res unflat_state :=
  let '(self, flat_cursor, torque_cursor) := st in
  let world_dofs := world_dofs self in
  st <- (if (0 <? i) || tune_starting_point (cfg self) then
           kp <- set_tensor_data (knot_poses self) i
                   (py_slice x flat_cursor (flat_cursor + world_dofs)) ;;
           let self := set_knot_poses kp self in
           let flat_cursor := (flat_cursor + world_dofs)%nat in
           kv <- set_tensor_data (knot_vels self) i
                   (py_slice x flat_cursor (flat_cursor + world_dofs)) ;;
           Ok (set_knot_vels kv self, (flat_cursor + world_dofs)%nat, torque_cursor)
         else Ok st) ;;
  foldM (unflatten_torque x) (range (shot_length (fst (fst st)) (snd st))) st.

Definition unflatten_loop (self : Traj) (x : vec) : res unflat_state :=
  foldM (unflatten_shot x) (range (num_shots (cfg self))) (self, O, O).

Definition unflatten (self : Traj) (x : vec) : res Traj :=
  st <- unflatten_loop self x ;;
  Ok (fst (fst st)).

(** The loop variables of [get_knot_x_offsets]: [knot_offsets],
    [flat_cursor], [torque_cursor]; [None] is Python's [None]. *)
Definition get_knot_x_offsets (self : Traj) : list (option Z) :=
  let world_dofs := Z.of_nat (world_dofs self) in
  let step (st : list (option Z) * Z * Z) (i : Z) :=
    let '(knot_offsets, flat_cursor, torque_cursor) := st in
    let '(knot_offsets, flat_cursor) :=
      if (0 <? i) || tune_starting_point (cfg self)
      then (knot_offsets ++ [Some flat_cursor], flat_cursor + world_dofs * 2)
      else (knot_offsets ++ [None], flat_cursor) in
    let shot_length :=
      Z.min (shooting_length (cfg self)) (Z.of_nat (length (torques self)) - torque_cursor) in
    (knot_offsets, flat_cursor + shot_length * world_dofs, torque_cursor + shot_length) in
  fst (fst (fold_left step (range (num_shots (cfg self))) ([], 0, 0))).

Definition get_knot_g_offsets (self : Traj) : list (option Z) :=
  let world_dofs := Z.of_nat (world_dofs self) in
  let flat_cursor := if loop_or_final self then world_dofs * 2 else 0 in
  let step (st : list (option Z) * Z) (i : Z) :=
    let '(knot_offsets, flat_cursor) := st in
    if 0 <? i then (knot_offsets ++ [Some flat_cursor], flat_cursor + world_dofs * 2)
    else (knot_offsets ++ [None], flat_cursor) in
  fst (fold_left step (range (num_shots (cfg self))) ([], flat_cursor)).

(** ** Methods that mutate the object *)

Inductive outcome (A : Type) : Type :=
| Return (a : A) (s : Traj)
| Raise (e : exn) (s : Traj).
Arguments Return {A} a s.
Arguments Raise {A} e s.

Definition M (A : Type) : Type := Traj -> outcome A.

Definition mret {A : Type} (a : A) : M A := fun s => Return a s.
Definition mbind {A B : Type} (c : M A) (k : A -> M B) : M B :=
  fun s => match c s with
           | Return a s' => k a s'
           | Raise e s' => Raise e s'
           end.
Definition lift {A : Type} (r : res A) : M A :=
  fun s => match r with
           | Ok a => Return a s
           | Err e => Raise e s
           end.
Definition get_self : M Traj := fun s => Return s s.
Definition modify (f : Traj -> Traj) : M unit := fun s => Return tt (f s).
Definition massert (b : bool) : M unit := lift (rassert b).
Definition mprint (l : line) : M unit := modify (print l).
Definition when (b : bool) (c : M unit) : M unit := if b then c else mret tt.

Declare Scope m_scope.
Delimit Scope m_scope with M.
Notation "x <- c ;; k" := (mbind c (fun x => k))
  (at level 61, c at next level, right associativity) : m_scope.
Notation "' p <- c ;; k" := (mbind c (fun p => k))
  (at level 61, p pattern, c at next level, right associativity) : m_scope.
Notation "c ;;; k" := (mbind c (fun _ => k))
  (at level 61, right associativity) : m_scope.

Fixpoint mfold {X S : Type} (f : X -> S -> M S) (l : list X) (acc : S) : M S :=
  match l with
  | [] => mret acc
  | x :: l' => mbind (f x acc) (mfold f l')
  end.

(** The state an outcome leaves the object in, raised or not. *)
Definition final_state {A : Type} (o : outcome A) : Traj :=
  match o with
  | Return _ s => s
  | Raise _ s => s
  end.

(** A reference to one of the object's leaf tensors. *)
Inductive tref : Type :=
| RTorque (i : nat)
| RKnotPos (i : nat)
| RKnotVel (i : nat).

Definition deref (self : Traj) (r : tref) : res Tensor :=
  match r with
  | RTorque i => py_get (torques self) (Z.of_nat i)
  | RKnotPos i => py_get (knot_poses self) (Z.of_nat i)
  | RKnotVel i => py_get (knot_vels self) (Z.of_nat i)
  end.

Definition update_ref (r : tref) (f : Tensor -> Tensor) (self : Traj) : Traj :=
  match r with
  | RTorque i =>
      match nth_error (torques self) i with
      | Some t => set_torques (list_set (torques self) i (f t)) self
      | None => self
      end
  | RKnotPos i =>
      match nth_error (knot_poses self) i with
      | Some t => set_knot_poses (list_set (knot_poses self) i (f t)) self
      | None => self
      end
  | RKnotVel i =>
      match nth_error (knot_vels self) i with
      | Some t => set_knot_vels (list_set (knot_vels self) i (f t)) self
      | None => self
      end
  end.

(** [tensors] (lines 87-91): the list holds references to the tensors. *)
Definition tensors (self : Traj) : res (list tref) :=
  let t := map RTorque (nrange (length (torques self)))
           ++ map RKnotVel (seq 1 (length (knot_vels self) - 1))
           ++ map RKnotPos (seq 1 (length (knot_poses self) - 1)) in
  if tune_starting_point (cfg self) then
    _ <- py_get (knot_poses self) 0 ;;
    Ok ([RKnotPos 0; RKnotPos 0] ++ t)
  else Ok t.

(** ** The rollout and the solver callbacks *)

Section Callbacks.

(** The external collaborators: the two cost callables given to the
    constructor (they return a Python float), the physics step
    [dart_layer], torch's [exp] and [norm], and the gradient that autograd
    computes for a leaf tensor from the recorded rollout.  The callables are
    foreign code: a call returns or raises. *)
Variable step_loss : vec -> vec -> vec -> World -> res float.
Variable final_loss : vec -> vec -> World -> res float.
Variable dart_layer : World -> vec -> vec -> vec -> res (vec * vec * BackpropSnapshot).
Variable torch_exp : float -> float.
Variable torch_norm : vec -> float.
Variable autograd : Traj -> tref -> vec.

Local Open Scope m_scope.
Local Open Scope float_scope.

Definition call_step_loss (pos vel t : vec) : M float :=
  fun s => lift (step_loss pos vel t (world (cfg s))) (record_call (CallStepLoss pos vel t) s).

Definition call_dart_layer (pos vel t : vec) : M (vec * vec * BackpropSnapshot) :=
  fun s => lift (dart_layer (world (cfg s)) pos vel t) (record_call (CallDartLayer pos vel t) s).

Definition call_final_loss (pos vel : vec) : M float :=
  fun s => lift (final_loss pos vel (world (cfg s))) (record_call (CallFinalLoss pos vel) s).

(** The barrier term of lines 117-119, 168-169 and 174-176. *)
Definition barrier (a b c d : vec) (strength : float) : res float :=
  (dp <- vsub a b ;;
   dv <- vsub c d ;;
   Ok (torch_exp (torch_norm dp * strength) + torch_exp (10 * torch_norm dv * strength)))%res.

(** The loop variables of [unroll]: [pos], [vel], [loss], [knot_loss]; the
    two losses are float32 tensors of one element (lines 104-105). *)
Definition roll_state : Type := (vec * vec * float * float)%type.

(** Lines 111-132: what happens at a knot point. *)
Definition unroll_knot (i : Z) (pos vel : vec) (knot_loss : float) : M (vec * vec * float) :=
  self <- get_self ;;
  knot_index <- lift (py_floor_div i (shooting_length (cfg self))) ;;
  knot_pos <- lift (py_get (knot_poses self) knot_index) ;;
  knot_vel <- lift (py_get (knot_vels self) knot_index) ;;
  this_knot_loss <- lift (barrier (data knot_pos) pos (data knot_vel) vel
                            (soft_knot_barrier_strength (cfg self))) ;;
  let knot_loss := add_float32 knot_loss this_knot_loss in
  pp <- lift (py_set (last_preknot_poses self) knot_index pos) ;;
  modify (set_last_preknot_poses pp) ;;;
  pv <- lift (py_set (last_preknot_vels self) knot_index vel) ;;
  modify (set_last_preknot_vels pv) ;;;
  let pos := data knot_pos in
  let vel := data knot_vel in
  when (np_isnan_any pos || np_isnan_any vel)
       (mprint (PrintKnot "Caught a NaN being introduced at knot" knot_index)) ;;;
  mret (pos, vel, knot_loss).

(** One iteration of the loop of [unroll] (lines 107-157). *)
Definition unroll_step (use_knots after_step : bool) (i : Z) (st : roll_state) : M roll_state :=
  let '(pos, vel, loss, knot_loss) := st in
  self <- get_self ;;
  tq <- lift (py_get (torques self) i) ;;
  t <- lift (mul_mask (data tq) (mask (cfg self))) ;;
  r <- lift (py_mod i (shooting_length (cfg self))) ;;
  '(pos, vel, knot_loss) <-
    (if (r =? 0)%Z && (0 <? i)%Z && use_knots
     then unroll_knot i pos vel knot_loss
     else mret (pos, vel, knot_loss)) ;;
  l <- call_step_loss pos vel t ;;
  let loss := add_float32 loss l in
  '(next_pos, next_vel, snapshot) <- call_dart_layer pos vel t ;;
  self <- get_self ;;
  sn <- lift (py_set (snapshots self) i (Some snapshot)) ;;
  modify (set_snapshots sn) ;;;
  when (negb (np_isnan_any pos || np_isnan_any vel)
        && (np_isnan_any next_pos || np_isnan_any next_vel))
       (mprint (PrintKnot "Caught a NaN being introduced at timestep" i) ;;;
        mprint (PrintVec "   old pos: " pos) ;;;
        mprint (PrintVec "   old vel: " vel) ;;;
        mprint (PrintVec "   torque: " t) ;;;
        mprint (PrintVec "   new pos: " next_pos) ;;;
        mprint (PrintVec "   new vel: " next_vel)) ;;;
  let pos := next_pos in
  let vel := next_vel in
  when after_step (modify (record_call (CallAfterStep pos vel t))) ;;;
  mret (pos, vel, loss, knot_loss).

(** [unroll] (lines 93-181); [after_step] tells whether a hook was given. *)
Definition unroll (use_knots after_step : bool) : M (float * float) :=
  self <- get_self ;;
  pos <- lift (py_get (knot_poses self) 0) ;;
  vel <- lift (py_get (knot_vels self) 0) ;;
  '(pos, vel, loss, knot_loss) <-
    mfold (unroll_step use_knots after_step) (range (steps (cfg self)))
          (data pos, data vel, 0, 0) ;;
  l <- call_final_loss pos vel ;;
  let loss := add_float32 loss l in
  modify (set_last_terminal pos vel) ;;;
  self <- get_self ;;
  knot_loss <-
    (if enforce_loop (cfg self) then
       start_pos <- lift (py_get (knot_poses self) 0) ;;
       start_vel <- lift (py_get (knot_vels self) 0) ;;
       loop_loss <- lift (barrier pos (data start_pos) vel (data start_vel)
                            (soft_knot_barrier_strength (cfg self))) ;;
       mret (add_float32 knot_loss loop_loss)
     else mret knot_loss) ;;
  knot_loss <-
    match enforce_final_state (cfg self) with
    | Some final =>
        let goal_pos := py_slice final 0 (world_dofs self) in
        let goal_vel := py_slice_from final (world_dofs self) in
        loop_loss <- lift (barrier pos goal_pos vel goal_vel
                             (soft_knot_barrier_strength (cfg self))) ;;
        mret (add_float32 knot_loss loop_loss)
    | None => mret knot_loss
    end ;;
  modify (set_last_loss loss) ;;;
  mret (loss, knot_loss).

(** [x != self.last_x] needs shapes that broadcast. *)
Definition np_shapes_compatible (a b : vec) : bool :=
  Nat.eqb (length a) (length b) || Nat.eqb (length a) 1 || Nat.eqb (length b) 1.

(** [ensure_fresh_rollout] (lines 336-345): the test is always true. *)
Definition ensure_fresh_rollout (x : vec) : M unit :=
  self <- get_self ;;
  lift (if np_shapes_compatible x (last_x self) then Ok tt else Err ValueError) ;;;
  modify (set_last_x x) ;;;
  self <- get_self ;;
  self <- lift (unflatten self x) ;;
  modify (fun _ => self) ;;;
  _ <- unroll true false ;;
  mret tt.

(** [eval_f] (lines 347-360) *)
Definition eval_f (x : vec) : M float :=
  when (np_isnan_any x)
       (mprint (Print "f(x) was fed NaNs!") ;;;
        mprint (PrintVec "x = " x)) ;;;
  massert (negb (np_isnan_any x)) ;;;
  ensure_fresh_rollout x ;;;
  self <- get_self ;;
  let loss := last_loss self in
  massert (negb (PrimFloat.is_nan loss)) ;;;
  mret loss.

(** Modelled from the spec: the automatic-differentiation runtime is a black
    box producing gradients on demand.  [backward] adds, for every leaf
    tensor that requires a gradient, the gradient of the recorded loss to
    the leaf's accumulator (a fresh accumulator when there is none). *)
Definition all_leaves (self : Traj) : list tref :=
  map RTorque (nrange (length (torques self)))
  ++ map RKnotPos (nrange (length (knot_poses self)))
  ++ map RKnotVel (nrange (length (knot_vels self))).

Definition accumulate (old : option vec) (g : vec) : vec :=
  match old with
  | None => g
  | Some o => map (fun p => fst p + snd p) (combine o g)
  end.

Definition backward : M unit :=
  modify (fun self =>
    fold_left (fun s r =>
                 update_ref r (fun t => if requires_grad t
                                        then set_grad (Some (accumulate (grad t) (autograd self r))) t
                                        else t) s)
              (all_leaves self) self).

(** [tensor.grad.data.zero_()] when the tensor has a gradient. *)
Definition zero_grad (t : Tensor) : Tensor :=
  match grad t with
  | Some g => set_grad (Some (map (fun _ => 0) g)) t
  | None => t
  end.

(** Lines 374-376: the loop over [self.tensors()]. *)
Definition zero_grads (ts : list tref) (self : Traj) : Traj :=
  fold_left (fun s r => update_ref r zero_grad s) ts self.

(** [eval_grad_f] (lines 362-383) *)
Definition eval_grad_f (x out : vec) : M vec :=
  when (np_isnan_any x)
       (mprint (Print "grad f(x) was fed NaNs!") ;;;
        mprint (PrintVec "x = " x)) ;;;
  massert (negb (np_isnan_any x)) ;;;
  self <- get_self ;;
  n <- lift (get_flat_problem_dim self) ;;
  massert (Z.of_nat (length out) =? n)%Z ;;;
  ensure_fresh_rollout x ;;;
  self <- get_self ;;
  ts <- lift (tensors self) ;;
  modify (zero_grads ts) ;;;
  backward ;;;
  self <- get_self ;;
  out <- lift (flatten self out "grad") ;;
  massert (negb (np_isnan_any out)) ;;;
  mret out.

(** Lines 400-411 of [eval_g]: the loop-closure or fixed-terminal block. *)
Definition eval_g_terminal (self : Traj) (out : vec) : res (vec * nat) :=
  (let world_dofs := world_dofs self in
   let cursor := O in
   if enforce_loop (cfg self) then
     kp <- py_get (knot_poses self) 0 ;;
     d <- vsub (last_terminal_pos self) (data kp) ;;
     out <- np_set_slice out cursor (cursor + world_dofs) d ;;
     let cursor := (cursor + world_dofs)%nat in
     kv <- py_get (knot_vels self) 0 ;;
     d <- vsub (last_terminal_vel self) (data kv) ;;
     out <- np_set_slice out cursor (cursor + world_dofs) d ;;
     Ok (out, (cursor + world_dofs)%nat)
   else
     match enforce_final_state (cfg self) with
     | Some final =>
         let goal_pos := py_slice final 0 world_dofs in
         let goal_vel := py_slice_from final world_dofs in
         d <- vsub (last_terminal_pos self) goal_pos ;;
         out <- np_set_slice out cursor (cursor + world_dofs) d ;;
         let cursor := (cursor + world_dofs)%nat in
         d <- vsub (last_terminal_vel self) goal_vel ;;
         out <- np_set_slice out cursor (cursor + world_dofs) d ;;
         Ok (out, (cursor + world_dofs)%nat)
     | None => Ok (out, cursor)
     end)%res.

(** Lines 413-419 of [eval_g]: one iteration of the loop over the knots. *)
Definition eval_g_knot (self : Traj) (i : Z) (st : vec * nat) : res (vec * nat) :=
  (let world_dofs := world_dofs self in
   let '(out, cursor) := st in
   if (i =? 0)%Z then Ok st
   else
     pre <- py_get (last_preknot_poses self) i ;;
     kp <- py_get (knot_poses self) i ;;
     d <- vsub pre (data kp) ;;
     out <- np_set_slice out cursor (cursor + world_dofs) d ;;
     let cursor := (cursor + world_dofs)%nat in
     pre <- py_get (last_preknot_vels self) i ;;
     kv <- py_get (knot_vels self) i ;;
     d <- vsub pre (data kv) ;;
     out <- np_set_slice out cursor (cursor + world_dofs) d ;;
     Ok (out, (cursor + world_dofs)%nat))%res.

Definition eval_g_fill (self : Traj) (out : vec) : res (vec * nat) :=
  (st <- eval_g_terminal self out ;;
   foldM (eval_g_knot self) (range (num_shots (cfg self))) st)%res.

(** Lines 425-432 of [eval_g]: the diagnostic printed for one knot. *)
Definition eval_g_report (i : Z) (_ : unit) : M unit :=
  if (i =? 0)%Z then mret tt
  else
    self <- get_self ;;
    mprint (PrintKnot "knot" i) ;;;
    pre <- lift (py_get (last_preknot_poses self) i) ;;
    mprint (PrintVec "   pre-knot pose: " pre) ;;;
    kp <- lift (py_get (knot_poses self) i) ;;
    mprint (PrintVec "   knot pose: " (data kp)) ;;;
    pre <- lift (py_get (last_preknot_vels self) i) ;;
    mprint (PrintVec "   pre-knot vel: " pre) ;;;
    kv <- lift (py_get (knot_vels self) i) ;;
    mprint (PrintVec "   knot vel: " (data kv)).

(** [eval_g] (lines 385-436) *)
Definition eval_g (x out : vec) : M vec :=
  when (np_isnan_any x)
       (mprint (Print "g(x) was fed NaNs!") ;;;
        mprint (PrintVec "x = " x)) ;;;
  massert (negb (np_isnan_any x)) ;;;
  ensure_fresh_rollout x ;;;
  self <- get_self ;;
  massert (Z.of_nat (length out) =? get_constraint_dim self)%Z ;;;
  '(out, cursor) <- lift (eval_g_fill self out) ;;
  when (np_isnan_any out)
       (mprint (Print "g(x) found NaNs!") ;;;
        mprint (PrintVec "x = " x) ;;;
        mprint (PrintVec "g(x) = " out) ;;;
        mfold eval_g_report (range (num_shots (cfg self))) tt) ;;;
  massert (Nat.eqb cursor (length out)) ;;;
  massert (negb (np_isnan_any out)) ;;;
  mret out.

(** *** Dense matrices ([np.identity], [np.zeros], [np.matmul], ...)

    The sensitivity matrices are square of size [world_dofs] by the engine's
    interface; the operations below are total on lists of rows. *)
Definition np_identity (n : nat) : matrix :=
  map (fun r => map (fun c => if Nat.eqb r c then 1 else 0) (nrange n)) (nrange n).
Definition np_zeros2 (n m : nat) : matrix := repeat (np_zeros m) n.
Definition column (B : matrix) (j : nat) : vec := map (fun row => nth j row 0) B.
Definition dot (a b : vec) : float :=
  fold_left (fun acc p => acc + fst p * snd p) (combine a b) 0.
Definition np_matmul (A B : matrix) : matrix :=
  map (fun a => map (fun j => dot a (column B j)) (nrange (length (hd [] B)))) A.
Definition madd (A B : matrix) : matrix :=
  map (fun p => map (fun q => fst q + snd q) (combine (fst p) (snd p))) (combine A B).
Definition smul (c : float) (A : matrix) : matrix := map (map (fun x => c * x)) A.
Definition np_concatenate1 (A B : matrix) : matrix :=
  map (fun p => fst p ++ snd p) (combine A B).
Definition mget (A : matrix) (r c : nat) : float := nth c (nth r A []) 0.

(** *** The sparsity pattern (lines 596-689) *)

(** [a + b] where [a] may be [None]. *)
Definition py_add (a : option Z) (b : Z) : res Z :=
  match a with
  | Some a => Ok (a + b)%Z
  | None => Err TypeError
  end.

(** The lists [row] and [col]. *)
Definition idx_state : Type := (list Z * list Z)%type.

Definition sp_append (rowTopLeft colTopLeft : option Z) (r c : Z) (st : idx_state)
  : res idx_state :=
  (let '(row, col) := st in
   a <- py_add rowTopLeft r ;;
   let row := row ++ [a] in
   b <- py_add colTopLeft c ;;
   Ok (row, col ++ [b]))%res.

Definition sp_insertNegativeIdentity (world_dofs : Z) (rowTopLeft colTopLeft : option Z)
    (st : idx_state) : res idx_state :=
  foldM (fun i => sp_append rowTopLeft colTopLeft i i) (range (world_dofs * 2)) st.

Definition sp_insertPhasePhaseJacobian (world_dofs : Z) (rowTopLeft colTopLeft : option Z)
    (st : idx_state) : res idx_state :=
  foldM (fun r => foldM (fun c => sp_append rowTopLeft colTopLeft r c) (range (world_dofs * 2)))
        (range (world_dofs * 2)) st.

Definition sp_insertTorquePhaseJacobian (world_dofs : Z) (rowTopLeft colTopLeft : option Z)
    (st : idx_state) : res idx_state :=
  foldM (fun r => foldM (fun c => sp_append rowTopLeft colTopLeft r c) (range world_dofs))
        (range (world_dofs * 2)) st.

(** Lines 648-652: at most [k] iterations, left early once the cursor
    reaches [n]. *)
Fixpoint torque_jac_locations (k : nat) (cursor : option Z) (world_dofs n : Z)
  : res (list (option Z)) :=
  match k with
  | O => Ok []
  | S k' =>
      (c <- py_add cursor world_dofs ;;
       if (n <=? c)%Z then Ok [cursor]
       else
         rest <- torque_jac_locations k' (Some c) world_dofs n ;;
         Ok (cursor :: rest))%res
  end.

Definition sp_insertFullJacobian (self : Traj) (n : Z) (rowTopLeft colTopLeft : option Z)
    (includePhasePhase : bool) (st : idx_state) : res idx_state :=
  (let world_dofs := Z.of_nat (world_dofs self) in
   cursor <- (if includePhasePhase
              then c <- py_add colTopLeft (world_dofs * 2) ;; Ok (Some c)
              else Ok colTopLeft) ;;
   locations <- torque_jac_locations (Z.to_nat (shooting_length (cfg self)))
                  cursor world_dofs n ;;
   st <- foldM (fun cursor => sp_insertTorquePhaseJacobian world_dofs rowTopLeft cursor)
           (rev locations) st ;;
   if includePhasePhase
   then sp_insertPhasePhaseJacobian world_dofs rowTopLeft colTopLeft st
   else Ok st)%res.

Definition sp_knot (self : Traj) (n : Z) (knot_x_offsets knot_g_offsets : list (option Z))
    (i : Z) (st : idx_state) : res idx_state :=
  (if (i =? 0)%Z then Ok st
   else
     prev <- py_get knot_x_offsets (i - 1) ;;
     st <- match prev with
           | None =>
               gi <- py_get knot_g_offsets i ;;
               sp_insertFullJacobian self n gi (Some 0%Z) false st
           | Some _ =>
               gi <- py_get knot_g_offsets i ;;
               sp_insertFullJacobian self n gi prev true st
           end ;;
     gi <- py_get knot_g_offsets i ;;
     xi <- py_get knot_x_offsets i ;;
     sp_insertNegativeIdentity (Z.of_nat (world_dofs self)) gi xi st)%res.

Definition get_jac_g_sparsity_indices (self : Traj) : res idx_state :=
  (let world_dofs := Z.of_nat (world_dofs self) in
   n <- get_flat_problem_dim self ;;
   let knot_x_offsets := get_knot_x_offsets self in
   let knot_g_offsets := get_knot_g_offsets self in
   st <- (if loop_or_final self then
            last <- py_get knot_x_offsets (Z.of_nat (length knot_x_offsets) - 1) ;;
            st <- sp_insertFullJacobian self n (Some 0%Z) last true ([], []) ;;
            first <- py_get knot_x_offsets 0 ;;
            match first with
            | None => _ <- rassert (negb (tune_starting_point (cfg self))) ;; Ok st
            | Some _ =>
                if enforce_loop (cfg self)
                then sp_insertNegativeIdentity world_dofs (Some 0%Z) first st
                else Ok st
            end
          else Ok ([], [])) ;;
   foldM (sp_knot self n knot_x_offsets knot_g_offsets) (range (num_shots (cfg self))) st)%res.

(** *** The Jacobian values (lines 438-594) *)

(** [out] and [cursor]. *)
Definition jac_state : Type := (vec * nat)%type.

(** [out[cursor] = v; cursor += 1] *)
Definition jac_put (v : float) (st : jac_state) : res jac_state :=
  (let '(out, cursor) := st in
   out <- py_set out (Z.of_nat cursor) v ;;
   Ok (out, S cursor))%res.

Definition insertNegativeIdentity (world_dofs : nat) (st : jac_state) : res jac_state :=
  foldM (fun _ => jac_put (-1)) (nrange (world_dofs * 2)) st.

(** [for row in range(rows): for col in range(cols): out[cursor] = A[row][col]] *)
Definition jac_put_block (A : matrix) (rows cols : nat) (st : jac_state) : res jac_state :=
  foldM (fun row => foldM (fun col => jac_put (mget A row col)) (nrange cols)) (nrange rows) st.

(** The running accumulators [posend_posnext], [posend_velnext],
    [velend_posnext], [velend_velnext]. *)
Definition accumulators : Type := (matrix * matrix * matrix * matrix)%type.

(** One iteration of the backward loop (lines 492-553). *)
Definition jac_step (self : Traj) (i : Z) (st : accumulators * jac_state)
  : res (accumulators * jac_state) :=
  (let world_dofs := world_dofs self in
   let dt := getTimeStep (world (cfg self)) in
   let '((posend_posnext, posend_velnext, velend_posnext, velend_velnext), out) := st in
   s <- py_get (snapshots self) i ;;
   snapshot <- match s with Some b => Ok b | None => Err AttributeError end ;;
   let posnext_velnext := dt in
   let velnext_pos := getPosVelJacobian snapshot in
   let velnext_vel := getVelVelJacobian snapshot in
   let velnext_force := getForceVelJacobian snapshot in
   let posnext_pos := getPosPosJacobian snapshot in
   let posnext_vel := smul posnext_velnext velnext_vel in
   let posnext_force := smul posnext_velnext velnext_force in
   let posend_force :=
     madd (np_matmul posend_posnext posnext_force) (np_matmul posend_velnext velnext_force) in
   let velend_force :=
     madd (np_matmul velend_posnext posnext_force) (np_matmul velend_velnext velnext_force) in
   out <- jac_put_block posend_force world_dofs world_dofs out ;;
   out <- jac_put_block velend_force world_dofs world_dofs out ;;
   let posend_posnext :=
     madd (np_matmul posend_posnext posnext_pos) (np_matmul posend_velnext velnext_pos) in
   let velend_posnext :=
     madd (np_matmul velend_posnext posnext_pos) (np_matmul velend_velnext velnext_pos) in
   let posend_velnext :=
     madd (np_matmul posend_posnext posnext_vel) (np_matmul posend_velnext velnext_vel) in
   let velend_velnext :=
     madd (np_matmul velend_posnext posnext_vel) (np_matmul velend_velnext velnext_vel) in
   Ok ((posend_posnext, posend_velnext, velend_posnext, velend_velnext), out))%res.

Definition insertFullJacobian (self : Traj) (last_knot_index : Z) (includePhasePhase : bool)
    (st : jac_state) : res jac_state :=
  (let world_dofs := world_dofs self in
   let start_index := (last_knot_index * shooting_length (cfg self))%Z in
   let end_index_exclusive := ((last_knot_index + 1) * shooting_length (cfg self))%Z in
   let posend_posnext := np_identity world_dofs in
   let posend_velnext := np_zeros2 world_dofs world_dofs in
   let velend_posnext := np_zeros2 world_dofs world_dofs in
   let velend_velnext := np_identity world_dofs in
   '((posend_posnext, posend_velnext, velend_posnext, velend_velnext), st) <-
     foldM (jac_step self) (rev (range2 start_index end_index_exclusive))
           ((posend_posnext, posend_velnext, velend_posnext, velend_velnext), st) ;;
   if includePhasePhase then
     let posend_phase := np_concatenate1 posend_posnext posend_velnext in
     let velend_phase := np_concatenate1 velend_posnext velend_velnext in
     st <- jac_put_block posend_phase world_dofs (world_dofs * 2) st ;;
     jac_put_block velend_phase world_dofs (world_dofs * 2) st
   else Ok st)%res.

Definition jac_knot (self : Traj) (i : Z) (st : jac_state) : res jac_state :=
  (if (i =? 0)%Z then Ok st
   else
     st <- insertFullJacobian self (i - 1)
             ((1 <? i)%Z || tune_starting_point (cfg self)) st ;;
     insertNegativeIdentity (world_dofs self) st)%res.

(** Lines 569-585: everything [eval_jac_g] writes. *)
Definition eval_jac_g_fill (self : Traj) (out : vec) : res jac_state :=
  (let st := (out, O) in
   st <- (if loop_or_final self then
            st <- insertFullJacobian self (num_shots (cfg self) - 1) true st ;;
            if tune_starting_point (cfg self) && enforce_loop (cfg self)
            then insertNegativeIdentity (world_dofs self) st
            else Ok st
          else Ok st) ;;
   foldM (jac_knot self) (range (num_shots (cfg self))) st)%res.

(** [eval_jac_g] (lines 438-594) *)
Definition eval_jac_g (x out : vec) : M vec :=
  when (np_isnan_any x)
       (mprint (Print "jac g(x) was fed NaNs!") ;;;
        mprint (PrintVec "x = " x)) ;;;
  massert (negb (np_isnan_any x)) ;;;
  ensure_fresh_rollout x ;;;
  self <- get_self ;;
  '(out, cursor) <- lift (eval_jac_g_fill self out) ;;
  jac_g_sparsity_indices <- lift (get_jac_g_sparsity_indices self) ;;
  massert (Nat.eqb (length out) (length (fst jac_g_sparsity_indices))) ;;;
  massert (Nat.eqb cursor (length (fst jac_g_sparsity_indices))) ;;;
  massert (negb (np_isnan_any out)) ;;;
  mret out.

(** *** The finite-difference cross-check (lines 706-719) *)

(** [np.zeros(m)] for a Python int [m]. *)
Definition np_zeros_int (m : Z) : res vec :=
  if (m <? 0)%Z then Err ValueError else Ok (np_zeros (Z.to_nat m)).

(** [np.stack(cols, axis=0).T] *)
Definition np_stack_T (cols : list vec) : res matrix :=
  match cols with
  | [] => Err ValueError
  | c :: _ => Ok (map (fun r => map (fun col => nth r col 0) cols) (nrange (length c)))
  end.

Definition brute_force_column (g : vec) (x : vec) (m : Z) (eps : float) (i : Z)
    (cols : list vec) : M (list vec) :=
  xi <- lift (py_get x i) ;;
  x_prime <- lift (py_set x i (xi + eps)) ;;
  z <- lift (np_zeros_int m) ;;
  g_prime <- eval_g x_prime z ;;
  d <- lift (broadcast2 PrimFloat.sub g_prime g) ;;
  let g_diff := map (fun v => v / eps) d in
  mret (cols ++ [g_diff]).

Definition _test_brute_force_jac_g (x : vec) : M matrix :=
  self <- get_self ;;
  n <- lift (get_flat_problem_dim self) ;;
  let m := get_constraint_dim self in
  let eps := 1e-8 in
  z <- lift (np_zeros_int m) ;;
  g <- eval_g x z ;;
  cols <- mfold (brute_force_column g x m eps) (range n) [] ;;
  self <- get_self ;;
  self <- lift (unflatten self x) ;;
  modify (fun _ => self) ;;;
  lift (np_stack_T cols).

(** *** The solver adapter (lines 790-816) *)

(** [try: return c except Exception as e: print(msg); print(e)]: an
    instance of [Exception] is caught and the function then falls off its
    end and returns [None]; any other exception passes through. *)
Definition try_except {A : Type} (c : M A) (msg : string) : M (option A) :=
  fun s => match c s with
           | Return a s' => Return (Some a) s'
           | Raise e s' =>
               if is_Exception e
               then Return None (print (PrintExn e) (print (Print msg) s'))
               else Raise e s'
           end.

Definition ipopt_eval_f (x : vec) : M (option float) :=
  try_except (eval_f x) "ERROR when IPOPT was evaluating our f(x)!".

Definition ipopt_eval_grad_f (x out : vec) : M (option vec) :=
  try_except (eval_grad_f x out) "ERROR when IPOPT was evaluating our gradient of f(x)!".

Definition ipopt_eval_g (x out : vec) : M (option vec) :=
  try_except (eval_g x out) "ERROR when IPOPT was evaluating our g(x)!".

Definition ipopt_eval_jac_g (x out : vec) : M (option vec) :=
  try_except (eval_jac_g x out) "ERROR when IPOPT was evaluating our Jacobian of g(x)!".

End Callbacks.

(** A callable that always returns. *)
Definition returning3 {A B C R : Type} (f : A -> B -> C -> R) : A -> B -> C -> res R :=
  fun a b c => Ok (f a b c).
Definition returning4 {A B C D R : Type} (f : A -> B -> C -> D -> R)
  : A -> B -> C -> D -> res R :=
  fun a b c d => Ok (f a b c d).

(** ** The specification's formulas, stated for comparison with the code *)

Local Open Scope float_scope.

(** The flat dimension as the specification gives it: the sum over the
    segments of ([2D] if the segment's knot is a free variable, else [0])
    plus (segment length times [D]), a segment's length being
    [min(shooting_length, steps - processed_so_far)].  Knot 0 is free only
    when the start is tunable, which is the dimension lost to knot 0. *)
Fixpoint spec_flat_dim_from (segments : nat) (i processed D sl steps : Z) (tune : bool) : Z :=
  match segments with
  | O => 0
  | S k =>
      let len := Z.min sl (steps - processed) in
      ((if (0 <? i)%Z || tune then 2 * D else 0) + len * D
       + spec_flat_dim_from k (i + 1) (processed + len) D sl steps tune)%Z
  end.

Definition spec_flat_dim (self : Traj) : Z :=
  spec_flat_dim_from (Z.to_nat (num_shots (cfg self))) 0 0 (Z.of_nat (world_dofs self))
    (shooting_length (cfg self)) (steps (cfg self)) (tune_starting_point (cfg self)).

(** [2D x (num_shots - 1)], plus [2D] when loop or terminal enforcement is
    active. *)
Definition spec_constraint_dim (self : Traj) : Z :=
  (2 * Z.of_nat (world_dofs self) * (num_shots (cfg self) - 1)
   + (if loop_or_final self then 2 * Z.of_nat (world_dofs self) else 0))%Z.

(** The number of entries [unflatten] and [flatten] walk over: the final
    value of their [flat_cursor]. *)
Definition unflatten_cursor (self : Traj) (x : vec) : res nat :=
  (st <- unflatten_loop self x ;; Ok (snd (fst st)))%res.

Definition flatten_cursor (self : Traj) (which : string) (out : vec) : res nat :=
  (st <- flatten_loop self which out ;; Ok (snd (fst st)))%res.

(** Two objects with the same configuration and as many tensors. *)
Definition same_layout (a b : Traj) : Prop :=
  cfg a = cfg b /\
  length (torques a) = length (torques b) /\
  length (knot_poses a) = length (knot_poses b) /\
  length (knot_vels a) = length (knot_vels b).

(** The constraint vector as the specification gives it. *)
Definition vsub_pointwise (a b : vec) : vec :=
  map (fun p => fst p - snd p) (combine a b).

Definition no_tensor : Tensor := {| data := []; grad := None; requires_grad := false |}.

Definition terminal_block (self : Traj) : vec :=
  let D := world_dofs self in
  if enforce_loop (cfg self) then
    vsub_pointwise (last_terminal_pos self) (data (nth 0 (knot_poses self) no_tensor))
    ++ vsub_pointwise (last_terminal_vel self) (data (nth 0 (knot_vels self) no_tensor))
  else
    match enforce_final_state (cfg self) with
    | Some final =>
        vsub_pointwise (last_terminal_pos self) (firstn D final)
        ++ vsub_pointwise (last_terminal_vel self) (skipn D final)
    | None => []
    end.

Definition gap_block (self : Traj) (i : nat) : vec :=
  vsub_pointwise (nth i (last_preknot_poses self) []) (data (nth i (knot_poses self) no_tensor))
  ++ vsub_pointwise (nth i (last_preknot_vels self) []) (data (nth i (knot_vels self) no_tensor)).

Definition constraint_vector (self : Traj) : vec :=
  terminal_block self
  ++ flat_map (gap_block self) (seq 1 (Z.to_nat (num_shots (cfg self)) - 1)).

(** The state reached by simulation: the engine stepped from [(pos, vel)]
    under the controls [ts], one after the other. *)
Fixpoint spec_simulate (dart_layer : World -> vec -> vec -> vec -> vec * vec * BackpropSnapshot)
    (w : World) (pos vel : vec) (ts : list vec) : vec * vec :=
  match ts with
  | [] => (pos, vel)
  | t :: ts' =>
      let '(next_pos, next_vel, _) := dart_layer w pos vel t in
      spec_simulate dart_layer w next_pos next_vel ts'
  end.

(** The effective control of timestep [t]: the stored torque times the
    mask. *)
Definition spec_control (self : Traj) (t : nat) : vec :=
  match nth_error (torques self) t with
  | Some tq =>
      match mul_mask (data tq) (mask (cfg self)) with
      | Ok u => u
      | Err _ => []
      end
  | None => []
  end.

(** The (pos, vel) reached by simulation at the moment segment [i] ends:
    from the anchor of knot [i], under the controls of the segment's
    [shooting_length] timesteps. *)
Definition spec_segment_end (dart_layer : World -> vec -> vec -> vec -> vec * vec * BackpropSnapshot)
    (self : Traj) (i : nat) : vec * vec :=
  let sl := Z.to_nat (shooting_length (cfg self)) in
  spec_simulate dart_layer (world (cfg self))
    (data (nth i (knot_poses self) no_tensor)) (data (nth i (knot_vels self) no_tensor))
    (map (spec_control self) (seq (i * sl) sl)).

(** The constraint vector as the specification gives it, from the decision
    variables alone: the terminal state is the end of the last segment, the
    pre-knot state of knot [i > 0] is the end of segment [i - 1]. *)
Definition spec_terminal_block
    (dart_layer : World -> vec -> vec -> vec -> vec * vec * BackpropSnapshot)
    (self : Traj) : vec :=
  let D := world_dofs self in
  let terminal := spec_segment_end dart_layer self (Z.to_nat (num_shots (cfg self)) - 1) in
  if enforce_loop (cfg self) then
    vsub_pointwise (fst terminal) (data (nth 0 (knot_poses self) no_tensor))
    ++ vsub_pointwise (snd terminal) (data (nth 0 (knot_vels self) no_tensor))
  else
    match enforce_final_state (cfg self) with
    | Some final =>
        vsub_pointwise (fst terminal) (firstn D final)
        ++ vsub_pointwise (snd terminal) (skipn D final)
    | None => []
    end.

Definition spec_gap_block
    (dart_layer : World -> vec -> vec -> vec -> vec * vec * BackpropSnapshot)
    (self : Traj) (i : nat) : vec :=
  let pre_knot := spec_segment_end dart_layer self (i - 1) in
  vsub_pointwise (fst pre_knot) (data (nth i (knot_poses self) no_tensor))
  ++ vsub_pointwise (snd pre_knot) (data (nth i (knot_vels self) no_tensor)).

Definition spec_constraint_vector
    (dart_layer : World -> vec -> vec -> vec -> vec * vec * BackpropSnapshot)
    (self : Traj) : vec :=
  spec_terminal_block dart_layer self
  ++ flat_map (spec_gap_block dart_layer self) (seq 1 (Z.to_nat (num_shots (cfg self)) - 1)).

(** Every vector [eval_g] reads has [world_dofs] entries, there is a knot 0,
    and every knot has its anchor and its pre-knot state. *)
Definition shapes_ok (self : Traj) : Prop :=
  let D := world_dofs self in
  let n := Z.to_nat (num_shots (cfg self)) in
  (1 <= num_shots (cfg self))%Z /\
  length (knot_poses self) = n /\ length (knot_vels self) = n /\
  length (last_preknot_poses self) = n /\ length (last_preknot_vels self) = n /\
  Forall (fun t => length (data t) = D) (knot_poses self) /\
  Forall (fun t => length (data t) = D) (knot_vels self) /\
  Forall (fun v => length v = D) (last_preknot_poses self) /\
  Forall (fun v => length v = D) (last_preknot_vels self) /\
  length (last_terminal_pos self) = D /\ length (last_terminal_vel self) = D /\
  match enforce_final_state (cfg self) with
  | Some final => length final = (2 * D)%nat
  | None => True
  end.

(** The cross-check of the test suite: the [k]-th sparse value against the
    dense finite-difference Jacobian at the [k]-th (row, col) pair. *)
Definition within_tolerance (tol a b : float) : bool := abs (a - b) <=? tol.

Definition sparse_matches_dense (tol : float) (values : vec) (rows cols : list Z) (B : matrix)
  : bool :=
  forallb (fun k => within_tolerance tol (nth k values 0)
                      (mget B (Z.to_nat (nth k rows 0%Z)) (Z.to_nat (nth k cols 0%Z))))
          (nrange (length values)).

(** The control an external call received. *)
Definition control_of (c : call) : option vec :=
  match c with
  | CallStepLoss _ _ t => Some t
  | CallDartLayer _ _ t => Some t
  | CallFinalLoss _ _ => None
  | CallAfterStep _ _ t => Some t
  end.

(** Component [j] (a Python index) of the control of [c] is zero. *)
Definition control_zero_at (j : Z) (c : call) : Prop :=
  match control_of c with
  | Some t => exists v, py_get t j = Ok v /\ is_zero v = true
  | None => True
  end.

(** ** Stand-ins for the external collaborators, for concrete runs *)

Module StandIn.

(** Modelled from the spec: a linear forward-dynamics stand-in with known
    analytic Jacobians, for a system with one degree of freedom.  A unit
    mass on a spring of stiffness [k], stepped as the engine does:
    [v' = v + dt (f - k p)], then [p' = p + dt v'].  Its snapshot reports
    the exact derivatives [dp'/dp = 1 - dt^2 k], [dv'/dp = - dt k],
    [dv'/dv = 1], [dv'/df = dt]; [dp'/dv = dt dv'/dv] and
    [dp'/df = dt dv'/df] hold exactly, as the assembler assumes. *)
Definition dt : float := 0.5.
Definition k : float := 1.

Definition world1 : World :=
  {| getNumDofs := 1; getPositions := [0]; getVelocities := [0]; getTimeStep := dt;
     getPositionUpperLimits := [infinity]; getPositionLowerLimits := [neg_infinity];
     getVelocityUpperLimits := [infinity]; getVelocityLowerLimits := [neg_infinity];
     getForceUpperLimits := [infinity]; getForceLowerLimits := [neg_infinity] |}.

Definition world2 : World :=
  {| getNumDofs := 2; getPositions := [0; 0]; getVelocities := [0; 0]; getTimeStep := dt;
     getPositionUpperLimits := [infinity; infinity];
     getPositionLowerLimits := [neg_infinity; neg_infinity];
     getVelocityUpperLimits := [infinity; infinity];
     getVelocityLowerLimits := [neg_infinity; neg_infinity];
     getForceUpperLimits := [infinity; infinity];
     getForceLowerLimits := [neg_infinity; neg_infinity] |}.

Definition spring (w : World) (pos vel t : vec) : vec * vec * BackpropSnapshot :=
  let next_vel := hd 0 vel + dt * (hd 0 t - k * hd 0 pos) in
  let next_pos := hd 0 pos + dt * next_vel in
  ([next_pos], [next_vel],
   {| getPosPosJacobian := [[1 - dt * dt * k]];
      getPosVelJacobian := [[- (dt * k)]];
      getVelVelJacobian := [[1]];
      getForceVelJacobian := [[dt]] |}).

(** Costs that are zero everywhere, and a gradient of ones for every leaf. *)
Definition step_loss (pos vel t : vec) (w : World) : float := 0.
Definition final_loss (pos vel : vec) (w : World) : float := 0.
Definition autograd (self : Traj) (r : tref) : vec := [1].

(** A running cost of 0.1 per step, and one that is interrupted from the
    keyboard while it runs. *)
Definition tenth_loss (pos vel t : vec) (w : World) : float := 0.1.
Definition interrupted_loss (pos vel t : vec) (w : World) : res float := Err KeyboardInterrupt.

(** A running cost that fails with an ordinary exception. *)
Definition failing_loss (pos vel t : vec) (w : World) : res float := Err RuntimeError.

(** The barrier terms only feed [knot_loss], which no callback reads; a
    first-order stand-in for [exp] and the Euclidean norm. *)
Definition torch_exp (x : float) : float := 1 + x.
Definition torch_norm (v : vec) : float := sqrt (dot v v).

(** The stand-ins as the rollout calls them: callables that return. *)
Definition step_cost := returning4 step_loss.
Definition final_cost := returning3 final_loss.
Definition engine := returning4 spring.

Definition eval_f := eval_f step_cost final_cost engine torch_exp torch_norm.
Definition eval_grad_f := eval_grad_f step_cost final_cost engine torch_exp torch_norm autograd.
Definition eval_g := eval_g step_cost final_cost engine torch_exp torch_norm.
Definition eval_jac_g := eval_jac_g step_cost final_cost engine torch_exp torch_norm.
Definition unroll := unroll step_cost final_cost engine torch_exp torch_norm.
Definition ensure_fresh_rollout :=
  ensure_fresh_rollout step_cost final_cost engine torch_exp torch_norm.
Definition _test_brute_force_jac_g :=
  _test_brute_force_jac_g step_cost final_cost engine torch_exp torch_norm.
Definition ipopt_eval_f := ipopt_eval_f step_cost final_cost engine torch_exp torch_norm.

(** Run a method on the object a constructor call gives. *)
Definition on {A : Type} (c : res Traj) (m : M A) : res (outcome A) :=
  (s <- c ;; Ok (m s))%res.

Definition value {A : Type} (o : res (outcome A)) : option A :=
  match o with
  | Ok (Return a _) => Some a
  | _ => None
  end.

Definition raised {A : Type} (o : res (outcome A)) : option exn :=
  match o with
  | Ok (Raise e _) => Some e
  | _ => None
  end.

(** The object a constructor call gives (an empty one if it raised). *)
Definition blank : Traj :=
  {| cfg := {| world := world1; steps := 0; shooting_length := 0; disable_actuators := [];
               tune_starting_point := false; enforce_loop := false;
               enforce_final_state := None; num_shots := 0; mask := [];
               soft_knot_barrier_strength := 1 |};
     torques := []; knot_poses := []; knot_vels := []; last_x := []; snapshots := [];
     last_loss := 0; last_preknot_poses := []; last_preknot_vels := [];
     last_terminal_pos := []; last_terminal_vel := []; stdout := []; calls := [] |}.

Definition object (c : res Traj) : Traj :=
  match c with
  | Ok s => s
  | Err _ => blank
  end.

End StandIn.

(** ** Predicates used by the statements *)

(** [c] keeps the invariant [J], raised or not, and returns values in [Q]. *)
Definition keeps {A : Type} (J : Traj -> Prop) (c : M A) (Q : A -> Prop) : Prop :=
  forall s, J s ->
    match c s with
    | Return a s' => J s' /\ Q a
    | Raise _ s' => J s'
    end.

(** The index Python resolves [i] to on a list of length [n]. *)
Definition py_index (n : nat) (i : Z) : option nat :=
  let k := if (i <? 0)%Z then (i + Z.of_nat n)%Z else i in
  if (k <? 0)%Z || (Z.of_nat n <=? k)%Z then None else Some (Z.to_nat k).

(** Component [j] of the control [u] is zero if component [j] of the stored
    torque [tq] is a finite number. *)
Definition zero_if_finite (j : Z) (tq u : vec) : Prop :=
  forall v, py_get tq j = Ok v -> is_finite v = true ->
  exists z, py_get u j = Ok z /\ is_zero z = true.

(** The control [u] is the stored torque of timestep [i] times the mask. *)
Definition masked_torque (s : Traj) (i : Z) (u : vec) : Prop :=
  exists tq, py_get (torques s) i = Ok tq /\ mul_mask (data tq) (mask (cfg s)) = Ok u.

(** The number of free knots among the segments [a], ..., [a + m - 1]. *)
Definition free_knots (tune : bool) (a m : nat) : nat :=
  if tune || Nat.ltb 0 a then m else pred m.

(** The number of values one call of [insertFullJacobian] writes. *)
Definition full_jacobian_count (self : Traj) (includePhasePhase : bool) : nat :=
  let D := world_dofs self in
  (Z.to_nat (shooting_length (cfg self)) * (2 * (D * D))
   + if includePhasePhase then 4 * (D * D) else 0)%nat.

(** The number of values [eval_jac_g] writes. *)
Definition jac_values_count (self : Traj) : nat :=
  let D := world_dofs self in
  ((if loop_or_final self
    then full_jacobian_count self true
         + (if tune_starting_point (cfg self) && enforce_loop (cfg self) then 2 * D else 0)
    else 0)
   + list_sum (map (fun i => full_jacobian_count self
                               (Nat.ltb 1 i || tune_starting_point (cfg self)) + 2 * D)
                   (seq 1 (Z.to_nat (num_shots (cfg self)) - 1))))%nat.

(** [f] succeeds and appends [k] entries to [row] and to [col]. *)
Definition adds (k : nat) (f : idx_state -> res idx_state) : Prop :=
  forall st, exists st',
    f st = Ok st' /\
    length (fst st') = (length (fst st) + k)%nat /\
    length (snd st') = (length (snd st) + k)%nat.

(** Where knot [i] starts in [x] and in [g(x)], in closed form. *)
Definition knot_x_offset (tune : bool) (D sl : Z) (i : nat) : option Z :=
  if tune || Nat.ltb 0 i
  then Some (Z.of_nat i * sl * D + 2 * D * Z.of_nat (free_knots tune 0 i))%Z
  else None.

Definition knot_g_offset (lof : bool) (D : Z) (i : nat) : option Z :=
  if Nat.ltb 0 i
  then Some ((if lof then D * 2 else 0) + (Z.of_nat i - 1) * (D * 2))%Z
  else None.

(** [c] returns from [s], with a value and a state in [Q]. *)
Definition wp {A : Type} (c : M A) (Q : A -> Traj -> Prop) (s : Traj) : Prop :=
  match c s with
  | Return a s' => Q a s'
  | Raise _ _ => False
  end.

(** The decision variables and the configuration of [b] are those of [a]. *)
Definition same_vars (a b : Traj) : Prop :=
  cfg b = cfg a /\ torques b = torques a /\ knot_poses b = knot_poses a /\
  knot_vels b = knot_vels a /\ last_x b = last_x a.

(** The engine's contract on the world of [s]: from a state and a control
    with [world_dofs] entries each, the next position and the next velocity
    have [world_dofs] entries. *)
Definition engine_ok (dart_layer : World -> vec -> vec -> vec -> vec * vec * BackpropSnapshot)
    (s : Traj) : Prop :=
  forall pos vel t,
    length pos = world_dofs s -> length vel = world_dofs s -> length t = world_dofs s ->
    length (fst (fst (dart_layer (world (cfg s)) pos vel t))) = world_dofs s /\
    length (snd (fst (dart_layer (world (cfg s)) pos vel t))) = world_dofs s.

(** An object whose segments tile the horizon and whose arrays have the
    sizes the constructor gives them. *)
Record well_shaped (s : Traj) : Prop := mk_well_shaped {
  ws_shooting_length : (1 <= shooting_length (cfg s))%Z;
  ws_num_shots : (1 <= num_shots (cfg s))%Z;
  ws_steps : steps (cfg s) = (num_shots (cfg s) * shooting_length (cfg s))%Z;
  ws_torques : length (torques s) = Z.to_nat (steps (cfg s));
  ws_knot_poses : length (knot_poses s) = Z.to_nat (num_shots (cfg s));
  ws_knot_vels : length (knot_vels s) = Z.to_nat (num_shots (cfg s));
  ws_preknot_poses : length (last_preknot_poses s) = Z.to_nat (num_shots (cfg s));
  ws_preknot_vels : length (last_preknot_vels s) = Z.to_nat (num_shots (cfg s));
  ws_snapshots : length (snapshots s) = Z.to_nat (steps (cfg s));
  ws_mask : length (mask (cfg s)) = world_dofs s;
  ws_torques_data : Forall (fun t => length (data t) = world_dofs s) (torques s);
  ws_knot_poses_data : Forall (fun t => length (data t) = world_dofs s) (knot_poses s);
  ws_knot_vels_data : Forall (fun t => length (data t) = world_dofs s) (knot_vels s);
  ws_preknot_poses_data : Forall (fun v => length v = world_dofs s) (last_preknot_poses s);
  ws_preknot_vels_data : Forall (fun v => length v = world_dofs s) (last_preknot_vels s);
  ws_last_x : get_flat_problem_dim s = Ok (Z.of_nat (length (last_x s)));
  ws_final_state : match enforce_final_state (cfg s) with
                   | Some final => length final = (2 * world_dofs s)%nat
                   | None => True
                   end
}.

(** The number of external calls one step of the rollout makes. *)
Definition calls_per_step (after_step : bool) : nat := if after_step then 3 else 2.

(** What only writes to the output stream. *)
Definition only_prints (s s' : Traj) : Prop :=
  cfg s' = cfg s /\ torques s' = torques s /\ knot_poses s' = knot_poses s /\
  knot_vels s' = knot_vels s /\ last_x s' = last_x s /\ snapshots s' = snapshots s /\
  last_loss s' = last_loss s /\ last_preknot_poses s' = last_preknot_poses s /\
  last_preknot_vels s' = last_preknot_vels s /\ last_terminal_pos s' = last_terminal_pos s /\
  last_terminal_vel s' = last_terminal_vel s /\ calls s' = calls s.

(** Everything but the decision variables is the same in [a] and [b]. *)
Definition same_records (a b : Traj) : Prop :=
  cfg b = cfg a /\ last_x b = last_x a /\ snapshots b = snapshots a /\
  last_loss b = last_loss a /\ last_preknot_poses b = last_preknot_poses a /\
  last_preknot_vels b = last_preknot_vels a /\ last_terminal_pos b = last_terminal_pos a /\
  last_terminal_vel b = last_terminal_vel a /\ stdout b = stdout a /\ calls b = calls a.

(** The gradient accumulators and the [requires_grad] flags of [l] and [l']
    agree. *)
Definition same_grads (l l' : list Tensor) : Prop :=
  map grad l' = map grad l /\ map requires_grad l' = map requires_grad l.

(** Every decision variable holds [world_dofs] values. *)
Definition vars_shaped (s : Traj) : Prop :=
  Forall (fun t => length (data t) = world_dofs s) (torques s) /\
  Forall (fun t => length (data t) = world_dofs s) (knot_poses s) /\
  Forall (fun t => length (data t) = world_dofs s) (knot_vels s).

(** What [unflatten] may do between two states of its loop, reading [x]. *)
Definition decodes (x : vec) (st st1 : unflat_state) : Prop :=
  let '(su, fc, tc) := st in
  let '(su1, fc1, tc1) := st1 in
  same_records su su1 /\
  same_grads (torques su) (torques su1) /\
  same_grads (knot_poses su) (knot_poses su1) /\
  same_grads (knot_vels su) (knot_vels su1) /\
  (tune_starting_point (cfg su) = false ->
   nth_error (knot_poses su1) 0 = nth_error (knot_poses su) 0 /\
   nth_error (knot_vels su1) 0 = nth_error (knot_vels su) 0) /\
  (fc <= fc1)%nat /\
  ((fc1 <= length x)%nat -> vars_shaped su -> vars_shaped su1).

(** [c] raises from [s]. *)
Definition raises {A : Type} (c : M A) (s : Traj) : Prop :=
  exists e s', c s = Raise e s'.

(** Every exception [r] can end with is in [P]. *)
Definition fails_only {A : Type} (P : exn -> Prop) (r : res A) : Prop :=
  forall e, r = Err e -> P e.

(** Every exception [c] can raise, from whatever state, is in [P]. *)
Definition raises_only {A : Type} (P : exn -> Prop) (c : M A) : Prop :=
  forall s e s', c s = Raise e s' -> P e.

(** An instance of [Exception]. *)
Definition ordinary (e : exn) : Prop := is_Exception e = true.

(** [e] is what some call of one of the external callables ends with. *)
Definition raised_by_callable
    (step_loss : vec -> vec -> vec -> World -> res float)
    (final_loss : vec -> vec -> World -> res float)
    (dart_layer : World -> vec -> vec -> vec -> res (vec * vec * BackpropSnapshot))
    (e : exn) : Prop :=
  (exists pos vel t w, step_loss pos vel t w = Err e) \/
  (exists pos vel w, final_loss pos vel w = Err e) \/
  (exists w pos vel t, dart_layer w pos vel t = Err e).
(** * Properties *)

(** ** The constructor *)

(** C10.  The constructor clamps [self.shooting_length] to [steps] but
    divides by the caller's [shooting_length]: with [steps = 5] and
    [shooting_length = 10] (one degree of freedom, tunable start) the object
    is built with [shooting_length = 5] and [num_shots = 0], its pre-knot
    lists are empty and its constraint dimension is negative; with a fixed
    start the constructor itself raises [ValueError]. *)
Theorem init_num_shots_not_clamped :
  (exists s, __init__ StandIn.world1 5 10 true false None [] = Ok s /\
             shooting_length (cfg s) = 5%Z /\
             num_shots (cfg s) = 0%Z /\
             last_preknot_poses s = [] /\
             last_preknot_vels s = [] /\
             length (knot_poses s) = 1%nat /\
             length (snapshots s) = 5%nat /\
             get_constraint_dim s = (-2)%Z) /\
  __init__ StandIn.world1 5 10 false false None [] = Err ValueError.
Proof.
  split.
  - eexists. split; [vm_compute; reflexivity|]. vm_compute. repeat split; reflexivity.
  - vm_compute; reflexivity.
Qed.

(** ** Dimensions *)

(** C3.  With [steps = 5], [shooting_length = 2] and two degrees of freedom
    (fixed start) [get_flat_problem_dim] is 10, while the closed form of the
    specification and the cursor of [unflatten] both give 12; [flatten] on
    an array of the announced length 10 raises. *)
Theorem flat_dim_differs_when_steps_not_divisible :
  exists s, __init__ StandIn.world2 5 2 false false None [] = Ok s /\
            get_flat_problem_dim s = Ok 10%Z /\
            spec_flat_dim s = 12%Z /\
            unflatten_cursor s (np_zeros 10) = Ok 12%nat /\
            flatten s (np_zeros 10) "state" = Err ValueError /\
            get_constraint_dim s = spec_constraint_dim s.
Proof.
  eexists. split; [vm_compute; reflexivity|]. vm_compute. repeat split; reflexivity.
Qed.

(** ** The gradient callback *)

(** C5.  With a tunable start (one degree of freedom, one step) the list
    [tensors()] holds knot 0's position twice and never knot 0's velocity,
    so its accumulator is not zeroed: two calls of [eval_grad_f] at the same
    [x], with a gradient of one for every variable, return [1; 1; 1] and
    then [1; 2; 1]. *)
Theorem grad_of_start_velocity_not_zeroed :
  exists s, __init__ StandIn.world1 1 1 true false None [] = Ok s /\
            tensors s = Ok [RKnotPos 0; RKnotPos 0; RTorque 0] /\
            exists s1 s2,
              StandIn.eval_grad_f [0; 0; 0] (np_zeros 3) s = Return [1; 1; 1] s1 /\
              StandIn.eval_grad_f [0; 0; 0] (np_zeros 3) s1 = Return [1; 2; 1] s2.
Proof.
  eexists. split; [vm_compute; reflexivity|]. split; [vm_compute; reflexivity|].
  eexists. eexists. split.
  - vm_compute. reflexivity.
  - vm_compute. reflexivity.
Qed.

(** ** The constraint Jacobian *)

(** C1.  For the spring stand-in (one degree of freedom, [steps = 4],
    [shooting_length = 2], two segments, fixed start) the value
    [eval_jac_g] writes for the sensitivity of the end position of segment
    0 to the first torque is 0.375, the finite-difference Jacobian of
    [eval_g] has 0.4375 there, and the cross-check at tolerance [1e-5]
    fails. *)
Theorem jac_g_differs_from_finite_differences :
  exists s values rows cols B s1 s2,
    __init__ StandIn.world1 4 2 false false None [] = Ok s /\
    StandIn.eval_jac_g (np_zeros 6) (np_zeros 6) s = Return values s1 /\
    get_jac_g_sparsity_indices s = Ok (rows, cols) /\
    StandIn._test_brute_force_jac_g (np_zeros 6) s = Return B s2 /\
    nth 2 rows 1%Z = 0%Z /\ nth 2 cols 1%Z = 0%Z /\
    nth 2 values 0 = 0.375 /\ mget B 0 0 = 0.4375 /\
    sparse_matches_dense 1e-5 values rows cols B = false.
Proof.
  do 7 eexists.
  split; [vm_compute; reflexivity|].
  split; [vm_compute; reflexivity|].
  split; [vm_compute; reflexivity|].
  split; [vm_compute; reflexivity|].
  vm_compute. repeat split; reflexivity.
Qed.

(** C2.  With a single segment, a fixed start and loop closure (one degree
    of freedom, [steps = shooting_length = 2]) the problem has two
    variables and two constraints; after a rollout the value assembler
    writes eight values, the pattern generator raises [TypeError], and so
    does [eval_jac_g]. *)
Theorem sparsity_pattern_missing_for_single_shot_loop :
  exists s s1 out s2,
    __init__ StandIn.world1 2 2 false true None [] = Ok s /\
    get_flat_problem_dim s = Ok 2%Z /\
    get_constraint_dim s = 2%Z /\
    get_jac_g_sparsity_indices s = Err TypeError /\
    StandIn.ensure_fresh_rollout [0; 0] s = Return tt s1 /\
    eval_jac_g_fill s1 (np_zeros 8) = Ok (out, 8%nat) /\
    get_jac_g_sparsity_indices s1 = Err TypeError /\
    StandIn.eval_jac_g [0; 0] (np_zeros 8) s = Raise TypeError s2.
Proof.
  do 4 eexists.
  split; [vm_compute; reflexivity|].
  split; [vm_compute; reflexivity|].
  split; [vm_compute; reflexivity|].
  split; [vm_compute; reflexivity|].
  split; [vm_compute; reflexivity|].
  split; [vm_compute; reflexivity|].
  split.
  - vm_compute. reflexivity.
  - vm_compute. reflexivity.
Qed.

(** ** Reasoning about methods *)

Lemma keeps_ret {A : Type} (J : Traj -> Prop) (a : A) (Q : A -> Prop) :
  Q a -> keeps J (mret a) Q.
Proof. intros Ha s Hs. simpl. auto. Qed.

Lemma keeps_bind {A B : Type} (J : Traj -> Prop) (c : M A) (k : A -> M B)
    (Q : A -> Prop) (R : B -> Prop) :
  keeps J c Q -> (forall a, Q a -> keeps J (k a) R) -> keeps J (mbind c k) R.
Proof.
  intros Hc Hk s Hs. unfold mbind. specialize (Hc s Hs).
  destruct (c s) as [a s'|e s']; [|exact Hc].
  destruct Hc as [Hs' Ha]. exact (Hk a Ha s' Hs').
Qed.

Lemma keeps_lift {A : Type} (J : Traj -> Prop) (r : res A) (Q : A -> Prop) :
  (forall a, r = Ok a -> Q a) -> keeps J (lift r) Q.
Proof. intros H s Hs. unfold lift. destruct r; auto. Qed.

Lemma keeps_get_self (J : Traj -> Prop) : keeps J get_self J.
Proof. intros s Hs. simpl. auto. Qed.

Lemma keeps_modify (J : Traj -> Prop) (f : Traj -> Traj) :
  (forall s, J s -> J (f s)) -> keeps J (modify f) (fun _ => True).
Proof. intros H s Hs. simpl. auto. Qed.

Lemma keeps_when (J : Traj -> Prop) (b : bool) (c : M unit) :
  keeps J c (fun _ => True) -> keeps J (when b c) (fun _ => True).
Proof. intros H. destruct b; [exact H|]. apply keeps_ret. exact I. Qed.

Lemma keeps_weaken {A : Type} (J : Traj -> Prop) (c : M A) (Q R : A -> Prop) :
  keeps J c Q -> (forall a, Q a -> R a) -> keeps J c R.
Proof.
  intros Hc HQR s Hs. specialize (Hc s Hs).
  destruct (c s); [destruct Hc; auto|exact Hc].
Qed.

(** A call of an external callable: the call is made, then it returns or
    raises. *)
Lemma keeps_call {A : Type} (J : Traj -> Prop) (r : Traj -> res A) (c : call) :
  (forall s, J s -> J (record_call c s)) ->
  keeps J (fun s => lift (r s) (record_call c s)) (fun _ => True).
Proof. intros H s Hs. unfold lift. destruct (r s); auto. Qed.

Lemma keeps_mfold {X S : Type} (J : Traj -> Prop) (f : X -> S -> M S) (Q : S -> Prop)
    (l : list X) :
  (forall x acc, Q acc -> keeps J (f x acc) Q) ->
  forall acc, Q acc -> keeps J (mfold f l acc) Q.
Proof.
  intros Hf. induction l as [|x l IH]; intros acc Hacc.
  - apply keeps_ret. exact Hacc.
  - simpl. eapply keeps_bind; [apply Hf; exact Hacc|]. intros a Ha. apply IH. exact Ha.
Qed.

(** ** Lists, indices and floats *)

Lemma finite_mul_zero (v : float) : is_finite v = true -> is_zero (v * 0) = true.
Proof.
  unfold is_finite, is_nan, is_infinity, is_zero.
  rewrite !eqb_spec, abs_spec, mul_spec.
  change (Prim2SF zero) with (S754_zero false).
  change (Prim2SF 0) with (S754_zero false).
  change (Prim2SF infinity) with (S754_infinity false).
  destruct (Prim2SF v) as [s|s| |s m e].
  - intros _. destruct s; reflexivity.
  - destruct s; cbv; intros H; discriminate H.
  - cbv. intros H; discriminate H.
  - intros _. destruct s; reflexivity.
Qed.

Lemma py_set_length {A} (l : list A) i v l' : py_set l i v = Ok l' -> length l' = length l.
Proof.
  unfold py_set. destruct (_ || _); [discriminate|]. intros H; inversion H; subst.
  clear. generalize (Z.to_nat (if (i <? 0)%Z then (i + Z.of_nat (length l))%Z else i)).
  induction l; intros [|k]; simpl; auto.
Qed.

Lemma list_set_length {A} (l : list A) k v : length (list_set l k v) = length l.
Proof. revert k. induction l; intros [|k]; simpl; auto. Qed.

Lemma nth_error_list_set {A} (l : list A) k k' v :
  nth_error (list_set l k v) k' =
  if Nat.eqb k k' then (if Nat.ltb k (length l) then Some v else None) else nth_error l k'.
Proof.
  revert k k'. induction l as [|a l IH]; intros k k'.
  - simpl. destruct k'; destruct (Nat.eqb k _); reflexivity.
  - destruct k as [|k], k' as [|k']; simpl; try reflexivity.
    rewrite IH. reflexivity.
Qed.

Lemma py_get_index {A} (l : list A) i a :
  py_get l i = Ok a <-> exists k, py_index (length l) i = Some k /\ nth_error l k = Some a.
Proof.
  unfold py_get, py_index. destruct (_ || _).
  - split; [discriminate|]. intros (k & H & _). discriminate.
  - split.
    + destruct (nth_error l _) eqn:E; [|discriminate]. intros H; inversion H; subst. eauto.
    + intros (k & H & Hk). inversion H; subst. rewrite Hk. reflexivity.
Qed.

Lemma py_index_lt n i k : py_index n i = Some k -> (k < n)%nat.
Proof.
  unfold py_index. destruct (_ || _) eqn:E; [discriminate|]. intros H; inversion H; subst.
  apply orb_false_iff in E. destruct E as [E1 E2].
  apply Z.ltb_ge in E1. apply Z.leb_gt in E2. lia.
Qed.

Lemma py_set_index {A} (l : list A) i v l' :
  py_set l i v = Ok l' <-> exists k, py_index (length l) i = Some k /\ l' = list_set l k v.
Proof.
  unfold py_set, py_index. destruct (_ || _).
  - split; [discriminate|]. intros (k & H & _). discriminate.
  - split.
    + intros H; inversion H; subst. eauto.
    + intros (k & H & Hk). inversion H; subst. reflexivity.
Qed.

Lemma mask_disabled (dis : list Z) : forall m mask,
  foldM (fun j m => py_set m j 0%Z) dis m = Ok mask ->
  length mask = length m /\
  (forall k, nth_error m k = Some 0%Z -> nth_error mask k = Some 0%Z) /\
  (forall j, In j dis -> py_get mask j = Ok 0%Z).
Proof.
  induction dis as [|j dis IH]; intros m mask H; simpl in H.
  - inversion H; subst. repeat split; auto. intros j [].
  - destruct (py_set m j 0%Z) as [m1|e] eqn:E; simpl in H; [|discriminate].
    apply py_set_index in E. destruct E as (k & Hk & ->).
    destruct (IH _ _ H) as (Hlen & Hkeep & Hin).
    rewrite list_set_length in Hlen.
    split; [exact Hlen|]. split.
    + intros k' Hk'. apply Hkeep. rewrite nth_error_list_set.
      destruct (Nat.eqb k k') eqn:Ek; [|exact Hk'].
      apply py_index_lt in Hk. apply Nat.ltb_lt in Hk. rewrite Hk. reflexivity.
    + intros j' [<-|Hj']; [|auto].
      apply py_get_index. exists k. rewrite Hlen. split; [exact Hk|].
      apply Hkeep. rewrite nth_error_list_set, Nat.eqb_refl.
      apply py_index_lt in Hk. apply Nat.ltb_lt in Hk. rewrite Hk. reflexivity.
Qed.

Lemma keeps_lift_eq {A : Type} (J : Traj -> Prop) (r : res A) :
  keeps J (lift r) (fun a => r = Ok a).
Proof. apply keeps_lift. auto. Qed.

Lemma nth_error_combine {A B} (a : list A) (b : list B) k x y :
  nth_error a k = Some x -> nth_error b k = Some y -> nth_error (combine a b) k = Some (x, y).
Proof.
  revert b k. induction a as [|a0 a IH]; intros [|b0 b] [|k]; simpl; try discriminate.
  - intros H1 H2; inversion H1; inversion H2; reflexivity.
  - apply IH.
Qed.

Lemma same_vars_refl (s : Traj) : same_vars s s.
Proof. unfold same_vars. auto. Qed.

Lemma same_vars_trans (a b c : Traj) : same_vars a b -> same_vars b c -> same_vars a c.
Proof.
  intros (H1 & H2 & H3 & H4 & H5) (G1 & G2 & G3 & G4 & G5). unfold same_vars.
  rewrite G1, G2, G3, G4, G5. auto.
Qed.

(** ** The external calls of a rollout, timestep by timestep *)

Section Trace.
Variable step_loss : vec -> vec -> vec -> World -> res float.
Variable final_loss : vec -> vec -> World -> res float.
Variable dart_layer : World -> vec -> vec -> vec -> res (vec * vec * BackpropSnapshot).
Variable torch_exp : float -> float.
Variable torch_norm : vec -> float.

(** A knot point changes the pre-knot records and may print; nothing else. *)
Lemma unroll_knot_trace (i : Z) (pos vel : vec) (kl : float) (s : Traj)
    (o : outcome (vec * vec * float)) :
  o = unroll_knot torch_exp torch_norm i pos vel kl s ->
  same_vars s (final_state o) /\ calls (final_state o) = calls s.
Proof.
  intros H.
  unfold unroll_knot, mbind, get_self, lift, modify, mprint, when, mret in H.
  assert (L : forall s', same_vars s s' -> calls s' = calls s ->
            forall o', o = o' -> final_state o' = s' ->
            same_vars s (final_state o) /\ calls (final_state o) = calls s).
  { intros s' V C o' -> <-. auto. }
  destruct (py_floor_div _ _);
    [|eapply L; [| |exact H|]; cbn; try reflexivity; apply same_vars_refl].
  destruct (py_get (knot_poses s) _);
    [|eapply L; [| |exact H|]; cbn; try reflexivity; apply same_vars_refl].
  destruct (py_get (knot_vels s) _);
    [|eapply L; [| |exact H|]; cbn; try reflexivity; apply same_vars_refl].
  destruct (barrier _ _ _ _ _ _ _);
    [|eapply L; [| |exact H|]; cbn; try reflexivity; apply same_vars_refl].
  destruct (py_set (last_preknot_poses s) _ _);
    [|eapply L; [| |exact H|]; cbn; try reflexivity; apply same_vars_refl].
  cbn [last_preknot_vels set_last_preknot_poses] in H.
  destruct (py_set (last_preknot_vels s) _ _);
    [|subst o; cbn; unfold same_vars; cbn; repeat split; reflexivity].
  destruct (_ || _); subst o; cbn; unfold same_vars; cbn; repeat split; reflexivity.
Qed.

(** One timestep: it makes its calls in order, all with the stored torque
    of this timestep times the mask as control; it returns after
    [calls_per_step] calls and raises after two at most. *)
Lemma unroll_step_trace (use_knots after_step : bool) (i : Z) (st : roll_state) (s : Traj)
    (o : outcome roll_state) :
  o = unroll_step step_loss dart_layer torch_exp torch_norm use_knots after_step i st s ->
  same_vars s (final_state o) /\
  exists new,
    calls (final_state o) = calls s ++ new /\
    (forall c u, In c new -> control_of c = Some u -> masked_torque s i u) /\
    match o with
    | Return _ _ => length new = calls_per_step after_step
    | Raise _ _ => (length new <= 2)%nat
    end.
Proof.
  intros H. destruct st as [[[pos vel] loss] kl].
  assert (Nil : forall e s', o = Raise e s' -> same_vars s s' -> calls s' = calls s ->
            same_vars s (final_state o) /\
            exists new, calls (final_state o) = calls s ++ new /\
              (forall c u, In c new -> control_of c = Some u -> masked_torque s i u) /\
              match o with
              | Return _ _ => length new = calls_per_step after_step
              | Raise _ _ => (length new <= 2)%nat
              end).
  { intros e s' -> V C. split; [exact V|]. exists []. rewrite app_nil_r.
    split; [exact C|]. split; [intros c u []|simpl; lia]. }
  unfold unroll_step in H. unfold mbind at 1 in H. unfold get_self in H.
  unfold mbind at 1 in H. unfold lift at 1 in H.
  destruct (py_get (torques s) i) as [tq|] eqn:Htq;
    [|eapply Nil; [exact H|apply same_vars_refl|reflexivity]].
  unfold mbind at 1 in H. unfold lift at 1 in H.
  destruct (mul_mask (data tq) (mask (cfg s))) as [u|] eqn:Hu;
    [|eapply Nil; [exact H|apply same_vars_refl|reflexivity]].
  assert (Hm : masked_torque s i u) by (exists tq; auto).
  unfold mbind at 1 in H. unfold lift at 1 in H.
  destruct (py_mod i (shooting_length (cfg s))) as [r|];
    [|eapply Nil; [exact H|apply same_vars_refl|reflexivity]].
  unfold mbind at 1 in H.
  assert (K : forall o', o' = (if (r =? 0)%Z && (0 <? i)%Z && use_knots
                               then unroll_knot torch_exp torch_norm i pos vel kl
                               else mret (pos, vel, kl)) s ->
              same_vars s (final_state o') /\ calls (final_state o') = calls s).
  { intros o' E. destruct (_ && _); [eapply unroll_knot_trace; exact E|].
    subst o'. split; [apply same_vars_refl|reflexivity]. }
  specialize (K _ eq_refl).
  destruct ((if (r =? 0)%Z && (0 <? i)%Z && use_knots
             then unroll_knot torch_exp torch_norm i pos vel kl
             else mret (pos, vel, kl)) s) as [[[pos1 vel1] kl1] s1|e s1];
    cbn [final_state] in K; destruct K as [V1 C1]; [|eapply Nil; eassumption].
  unfold mbind at 1 in H. unfold call_step_loss in H. unfold lift at 1 in H.
  destruct (step_loss pos1 vel1 u (world (cfg s1))) as [l|e].
  2:{ subst o. cbn [final_state]. split; [exact V1|]. exists [CallStepLoss pos1 vel1 u].
      split; [cbn; rewrite C1; reflexivity|]. split; [|simpl; lia].
      intros c u' [<-|[]] E. inversion E; subst. exact Hm. }
  unfold mbind at 1 in H. unfold call_dart_layer in H. unfold lift at 1 in H.
  cbn [cfg record_call] in H.
  destruct (dart_layer (world (cfg s1)) pos1 vel1 u) as [[[next_pos next_vel] snapshot]|e].
  2:{ subst o. cbn [final_state]. split; [exact V1|].
      exists [CallStepLoss pos1 vel1 u; CallDartLayer pos1 vel1 u].
      split; [cbn; rewrite C1, <- app_assoc; reflexivity|]. split; [|simpl; lia].
      intros c u' [<-|[<-|[]]] E; inversion E; subst; exact Hm. }
  assert (Two : forall c u', In c [CallStepLoss pos1 vel1 u; CallDartLayer pos1 vel1 u] ->
                  control_of c = Some u' -> masked_torque s i u').
  { intros c u' [<-|[<-|[]]] E; inversion E; subst; exact Hm. }
  unfold mbind at 1 in H. unfold get_self in H. unfold mbind at 1 in H.
  unfold lift at 1 in H. cbn [snapshots record_call] in H.
  destruct (py_set (snapshots s1) i (Some snapshot)) as [sn|e].
  2:{ subst o. cbn [final_state]. split; [exact V1|].
      exists [CallStepLoss pos1 vel1 u; CallDartLayer pos1 vel1 u].
      split; [cbn; rewrite C1, <- app_assoc; reflexivity|]. split; [exact Two|simpl; lia]. }
  unfold mbind, modify, when, mprint, mret in H.
  destruct (negb _ && _); destruct after_step; subst o; cbn [final_state calls_per_step].
  all: split; [exact V1|].
  all: try (exists [CallStepLoss pos1 vel1 u; CallDartLayer pos1 vel1 u];
            split; [cbn; rewrite C1, <- app_assoc; reflexivity|]; split; [exact Two|reflexivity]).
  all: exists [CallStepLoss pos1 vel1 u; CallDartLayer pos1 vel1 u;
               CallAfterStep next_pos next_vel u];
       (split; [cbn; rewrite C1, <- !app_assoc; reflexivity|]); (split; [|reflexivity]);
       intros c u' [<-|[<-|[<-|[]]]] E; inversion E; subst; exact Hm.
Qed.

Lemma masked_torque_same_vars (s s1 : Traj) (i : Z) (u : vec) :
  same_vars s s1 -> masked_torque s1 i u -> masked_torque s i u.
Proof.
  intros (Hc & Ht & _) (tq & H1 & H2). exists tq. rewrite <- Hc, <- Ht. auto.
Qed.

Lemma calls_per_step_pos (after_step : bool) : (2 <= calls_per_step after_step)%nat.
Proof. destruct after_step; simpl; lia. Qed.

(** The loop over the timesteps [a], ..., [a + m - 1]: call number [k]
    belongs to timestep [a + k / calls_per_step]. *)
Lemma unroll_loop_trace (use_knots after_step : bool) (s : Traj) (m : nat) :
  forall (a : nat) (st : roll_state) (s1 : Traj) (o : outcome roll_state),
  o = mfold (unroll_step step_loss dart_layer torch_exp torch_norm use_knots after_step)
        (map Z.of_nat (seq a m)) st s1 ->
  same_vars s s1 ->
  same_vars s (final_state o) /\
  exists new,
    calls (final_state o) = calls s1 ++ new /\
    (forall k c u, nth_error new k = Some c -> control_of c = Some u ->
       masked_torque s (Z.of_nat (a + k / calls_per_step after_step)) u) /\
    match o with
    | Return _ _ => length new = (m * calls_per_step after_step)%nat
    | Raise _ _ => (length new <= m * calls_per_step after_step)%nat
    end.
Proof.
  pose proof (calls_per_step_pos after_step) as Hcps.
  set (cps := calls_per_step after_step) in *.
  induction m as [|m IH]; intros a st s1 o H V.
  - simpl in H. subst o. cbn [final_state]. split; [exact V|]. exists [].
    rewrite app_nil_r. split; [reflexivity|]. split; [|reflexivity].
    intros k c u E. destruct k; discriminate E.
  - cbn [seq map mfold] in H. unfold mbind in H.
    destruct (unroll_step_trace use_knots after_step (Z.of_nat a) st s1 _ eq_refl)
      as (V1 & new1 & C1 & M1 & L1).
    assert (G1 : forall k c u, nth_error new1 k = Some c -> control_of c = Some u ->
                   (length new1 <= cps)%nat ->
                   masked_torque s (Z.of_nat (a + k / cps)) u).
    { intros k c u E Ec Hle.
      assert (Hk : (k < length new1)%nat) by (apply nth_error_Some; congruence).
      rewrite Nat.div_small by lia. rewrite Nat.add_0_r.
      eapply masked_torque_same_vars; [exact V|]. eapply M1; [|exact Ec].
      eapply nth_error_In; exact E. }
    destruct (unroll_step _ _ _ _ _ _ (Z.of_nat a) st s1) as [st2 s2|e s2];
      cbn [final_state] in V1, C1.
    + assert (V2 : same_vars s s2) by (eapply same_vars_trans; eauto).
      destruct (IH (S a) st2 s2 o H V2) as (V3 & new2 & C2 & M2 & L2).
      split; [exact V3|]. exists (new1 ++ new2).
      split; [rewrite C2, C1, app_assoc; reflexivity|]. split.
      * intros k c u E Ec. destruct (Nat.lt_ge_cases k (length new1)) as [Hlt|Hge].
        -- rewrite nth_error_app1 in E by exact Hlt. apply (G1 k c u E Ec). lia.
        -- rewrite nth_error_app2 in E by exact Hge.
           specialize (M2 _ _ _ E Ec). rewrite L1 in *.
           replace (a + k / cps)%nat with (S a + (k - cps) / cps)%nat; [exact M2|].
           replace k with ((k - cps) + 1 * cps)%nat at 2 by lia.
           rewrite Nat.div_add by lia. lia.
      * rewrite length_app, L1. destruct o; lia.
    + subst o. cbn [final_state]. split; [eapply same_vars_trans; eauto|].
      exists new1. split; [exact C1|]. split.
      * intros k c u E Ec. apply (G1 k c u E Ec). lia.
      * lia.
Qed.

(** The whole rollout: the running cost and the engine are called once per
    timestep, in order, the hook after them if there is one, and the final
    cost at the end; an exception cuts the sequence short. *)
Lemma unroll_trace (use_knots after_step : bool) (s : Traj)
    (o : outcome (float * float)) :
  o = unroll step_loss final_loss dart_layer torch_exp torch_norm use_knots after_step s ->
  same_vars s (final_state o) /\
  exists new,
    calls (final_state o) = calls s ++ new /\
    (forall k c u, nth_error new k = Some c -> control_of c = Some u ->
       masked_torque s (Z.of_nat (k / calls_per_step after_step)) u) /\
    (length new <= Z.to_nat (steps (cfg s)) * calls_per_step after_step + 1)%nat.
Proof.
  intros H.
  set (cps := calls_per_step after_step) in *.
  assert (Nil : forall e, o = Raise e s ->
            same_vars s (final_state o) /\
            exists new, calls (final_state o) = calls s ++ new /\
              (forall k c u, nth_error new k = Some c -> control_of c = Some u ->
                 masked_torque s (Z.of_nat (k / cps)) u) /\
              (length new <= Z.to_nat (steps (cfg s)) * cps + 1)%nat).
  { intros e ->. split; [apply same_vars_refl|]. exists []. rewrite app_nil_r.
    split; [reflexivity|]. split; [|simpl; lia]. intros k c u E. destruct k; discriminate E. }
  unfold unroll in H. unfold mbind at 1 in H. unfold get_self in H.
  unfold mbind at 1 in H. unfold lift at 1 in H.
  destruct (py_get (knot_poses s) 0) as [kp|]; [|eapply Nil; exact H].
  unfold mbind at 1 in H. unfold lift at 1 in H.
  destruct (py_get (knot_vels s) 0) as [kv|]; [|eapply Nil; exact H].
  unfold mbind at 1 in H. unfold range in H.
  destruct (unroll_loop_trace use_knots after_step s (Z.to_nat (steps (cfg s))) 0
              (data kp, data kv, 0, 0) s _ eq_refl (same_vars_refl s))
    as (V1 & new1 & C1 & M1 & L1).
  fold cps in M1, L1.
  destruct (mfold _ (map Z.of_nat (seq 0 (Z.to_nat (steps (cfg s))))) _ s)
    as [[[[pos vel] loss] kl] s1|e s1]; cbn [final_state] in V1, C1.
  2:{ subst o. cbn [final_state]. split; [exact V1|]. exists new1.
      split; [exact C1|]. split; [exact M1|lia]. }
  assert (Fin : forall s', same_vars s s' ->
            calls s' = calls s1 ++ [CallFinalLoss pos vel] -> final_state o = s' ->
            same_vars s (final_state o) /\
            exists new, calls (final_state o) = calls s ++ new /\
              (forall k c u, nth_error new k = Some c -> control_of c = Some u ->
                 masked_torque s (Z.of_nat (k / cps)) u) /\
              (length new <= Z.to_nat (steps (cfg s)) * cps + 1)%nat).
  { intros s' V C ->. split; [exact V|]. exists (new1 ++ [CallFinalLoss pos vel]).
    split; [rewrite C, C1, app_assoc; reflexivity|]. split.
    - intros k c u E Ec. destruct (Nat.lt_ge_cases k (length new1)) as [Hlt|Hge].
      + rewrite nth_error_app1 in E by exact Hlt. exact (M1 k c u E Ec).
      + rewrite nth_error_app2 in E by exact Hge.
        destruct (k - length new1)%nat as [|k']; [|destruct k'; discriminate E].
        inversion E; subst c. discriminate Ec.
    - rewrite length_app, L1. simpl. lia. }
  assert (V' : forall f, (forall t, cfg (f t) = cfg t /\ torques (f t) = torques t /\
                            knot_poses (f t) = knot_poses t /\ knot_vels (f t) = knot_vels t /\
                            last_x (f t) = last_x t) ->
               same_vars s (f (record_call (CallFinalLoss pos vel) s1))).
  { intros f Hf. destruct (Hf (record_call (CallFinalLoss pos vel) s1)) as (F1 & F2 & F3 & F4 & F5).
    destruct V1 as (G1 & G2 & G3 & G4 & G5). unfold same_vars.
    rewrite F1, F2, F3, F4, F5. cbn. auto. }
  unfold mbind at 1 in H. unfold call_final_loss in H. unfold lift at 1 in H.
  destruct (final_loss pos vel (world (cfg s1))) as [l|e].
  2:{ apply (Fin (record_call (CallFinalLoss pos vel) s1)).
      - apply (V' (fun t => t)). intros t. auto.
      - reflexivity.
      - subst o. reflexivity. }
  unfold mbind, modify, get_self, lift, mret in H.
  cbn [cfg knot_poses knot_vels set_last_terminal record_call] in H.
  assert (Done : forall o', o = o' ->
            (final_state o' = set_last_terminal pos vel (record_call (CallFinalLoss pos vel) s1) \/
             exists v, final_state o'
                       = set_last_loss v (set_last_terminal pos vel
                                            (record_call (CallFinalLoss pos vel) s1))) ->
            same_vars s (final_state o) /\
            exists new, calls (final_state o) = calls s ++ new /\
              (forall k c u, nth_error new k = Some c -> control_of c = Some u ->
                 masked_torque s (Z.of_nat (k / cps)) u) /\
              (length new <= Z.to_nat (steps (cfg s)) * cps + 1)%nat).
  { intros o' -> [E|(v & E)]; eapply Fin; try exact E.
    - apply (V' (set_last_terminal pos vel)). intros t. cbn. auto.
    - reflexivity.
    - apply (V' (fun t => set_last_loss v (set_last_terminal pos vel t))). intros t. cbn. auto.
    - reflexivity. }
  apply (Done _ H).
  destruct (enforce_loop (cfg s1)).
  - destruct (py_get (knot_poses s1) 0); [|left; reflexivity].
    destruct (py_get (knot_vels s1) 0); [|left; reflexivity].
    destruct (barrier _ _ _ _ _ _ _); [|left; reflexivity].
    destruct (enforce_final_state (cfg s1)).
    + destruct (barrier _ _ _ _ _ _ _); [right; eexists|left]; reflexivity.
    + right; eexists; reflexivity.
  - destruct (enforce_final_state (cfg s1)).
    + destruct (barrier _ _ _ _ _ _ _); [right; eexists|left]; reflexivity.
    + right; eexists; reflexivity.
Qed.

End Trace.

(** ** Disabled actuators *)

(** What a successful constructor call built. *)
Lemma init_inv (w : World) (steps sl : Z) (tune loop : bool) (efs : option vec)
    (dis : list Z) (s0 : Traj) :
  __init__ w steps sl tune loop efs dis = Ok s0 ->
  exists ns mask n,
    py_floor_div steps sl = Ok ns /\
    foldM (fun j m => py_set m j 0%Z) dis (repeat 1%Z (getNumDofs w)) = Ok mask /\
    (0 <= n)%Z /\
    cfg s0 = {| world := w; steps := steps; shooting_length := Z.min sl steps;
                disable_actuators := dis; tune_starting_point := tune;
                enforce_loop := loop; enforce_final_state := efs;
                num_shots := ns; mask := mask; soft_knot_barrier_strength := 1 |} /\
    get_flat_problem_dim s0 = Ok n /\
    torques s0 = map (fun _ => zeros_tensor (getNumDofs w)) (range steps) /\
    knot_poses s0 =
      {| data := getPositions w; grad := None; requires_grad := tune |}
      :: map (fun _ => zeros_tensor (getNumDofs w)) (range (ns - 1)) /\
    knot_vels s0 =
      {| data := getVelocities w; grad := None; requires_grad := tune |}
      :: map (fun _ => zeros_tensor (getNumDofs w)) (range (ns - 1)) /\
    last_x s0 = repeat 1e19 (Z.to_nat n).
Proof.
  unfold __init__. intros H.
  destruct (rassert _); simpl in H; [|discriminate].
  destruct (py_floor_div steps sl) as [ns|]; simpl in H; [|discriminate].
  destruct (foldM _ dis _) as [mask|]; simpl in H; [|discriminate].
  match type of H with rbind ?c _ = _ => destruct c as [n|] eqn:En end; simpl in H; [|discriminate].
  destruct (n <? 0)%Z eqn:Hn; [discriminate|]. inversion H; subst s0; clear H.
  exists ns, mask, n. apply Z.ltb_ge in Hn. repeat split; auto.
Qed.

(** The product of a stored torque with a mask that is 0 at index [j]. *)
Lemma mask_zero_if_finite (tq : vec) (msk : list Z) (j : Z) (u : vec) :
  py_get msk j = Ok 0%Z -> mul_mask tq msk = Ok u -> zero_if_finite j tq u.
Proof.
  intros Hm Hu v Hv Hfin.
  apply py_get_index in Hm. destruct Hm as (k & Hk & Hmk).
  apply py_get_index in Hv. destruct Hv as (k' & Hk' & Hvk).
  exists (v * 0). split; [|apply finite_mul_zero; exact Hfin].
  apply py_get_index.
  unfold mul_mask, broadcast2 in Hu. rewrite length_map in Hu.
  destruct (Nat.eqb (length tq) (length msk)) eqn:E1.
  - apply Nat.eqb_eq in E1. inversion Hu; subst u; clear Hu.
    rewrite E1, Hk in Hk'. inversion Hk'; subst k'.
    exists k. split.
    + rewrite length_map, length_combine, length_map, E1, Nat.min_id. exact Hk.
    + rewrite nth_error_map.
      rewrite (nth_error_combine _ _ k v 0 Hvk); [reflexivity|].
      rewrite nth_error_map, Hmk. reflexivity.
  - destruct (Nat.eqb (length tq) 1) eqn:E2.
    + apply Nat.eqb_eq in E2. inversion Hu; subst u; clear Hu.
      destruct tq as [|v0 [|? ?]]; try discriminate E2.
      apply py_index_lt in Hk' as Hlt. simpl in Hlt.
      assert (k' = 0%nat) by lia. subst k'. simpl in Hvk. inversion Hvk; subst v0.
      exists k. split.
      * rewrite !length_map. exact Hk.
      * rewrite !nth_error_map, Hmk. reflexivity.
    + destruct (Nat.eqb (length msk) 1) eqn:E3; [|discriminate Hu].
      apply Nat.eqb_eq in E3. inversion Hu; subst u; clear Hu.
      destruct msk as [|m0 [|? ?]]; try discriminate E3.
      apply py_index_lt in Hk as Hlt. simpl in Hlt.
      assert (k = 0%nat) by lia. subst k. simpl in Hmk. inversion Hmk; subst m0.
      exists k'. split.
      * rewrite length_map. exact Hk'.
      * rewrite nth_error_map, Hvk. reflexivity.
Qed.

Section Actuators.
Variable step_loss : vec -> vec -> vec -> World -> res float.
Variable final_loss : vec -> vec -> World -> res float.
Variable dart_layer : World -> vec -> vec -> vec -> res (vec * vec * BackpropSnapshot).
Variable torch_exp : float -> float.
Variable torch_norm : vec -> float.

(** C7 (amended).  On an object built by the constructor, whatever its
    torques hold, a rollout makes its external calls timestep by timestep:
    call number [k] belongs to timestep [t = k // calls_per_step] (the
    running cost, the engine, then the hook when there is one).  The control
    of that call is the stored torque of timestep [t] times the mask, and
    for an index [j] of [disable_actuators] its component [j] is zero
    whenever component [j] of that stored torque is a finite number.  This
    holds for every timestep on its own, and for the calls made up to an
    exception too. *)
Theorem disabled_actuator_control_is_zero
    (w : World) (nsteps slen : Z) (tune loop : bool) (efs : option vec) (dis : list Z)
    (s0 s : Traj) (use_knots after_step : bool) (j : Z) :
  __init__ w nsteps slen tune loop efs dis = Ok s0 ->
  cfg s = cfg s0 ->
  In j dis ->
  exists new,
    calls (final_state (unroll step_loss final_loss dart_layer torch_exp torch_norm
                          use_knots after_step s)) = calls s ++ new /\
    forall k c u, nth_error new k = Some c -> control_of c = Some u ->
      exists tq,
        py_get (torques s) (Z.of_nat (k / calls_per_step after_step)) = Ok tq /\
        mul_mask (data tq) (mask (cfg s)) = Ok u /\
        zero_if_finite j (data tq) u.
Proof.
  intros Hinit Hcfg Hj.
  destruct (init_inv _ _ _ _ _ _ _ _ Hinit) as (ns & msk & n & _ & Hmask & _ & Hc & _).
  destruct (mask_disabled _ _ _ Hmask) as (_ & _ & Hzero).
  assert (Hm : mask (cfg s) = msk) by (rewrite Hcfg, Hc; reflexivity).
  destruct (unroll_trace step_loss final_loss dart_layer torch_exp torch_norm
              use_knots after_step s _ eq_refl) as (_ & new & C & G & _).
  exists new. split; [exact C|].
  intros k c u E Ec. destruct (G k c u E Ec) as (tq & Htq & Hu).
  exists tq. split; [exact Htq|]. split; [exact Hu|].
  eapply mask_zero_if_finite; [|exact Hu]. rewrite Hm. apply Hzero. exact Hj.
Qed.

End Actuators.

(** The theorem on the two-step object with actuator 0 disabled, after
    decoding [x = [infinity; 5]]: the controls of the first timestep are NaN,
    those of the second are zero. *)
Lemma disabled_actuator_control_is_zero_witness :
  let s0 := StandIn.object (__init__ StandIn.world1 2 2 false false None [0%Z]) in
  let s := StandIn.object (unflatten s0 [infinity; 5]) in
  map data (torques s) = [[infinity]; [5]] /\
  map control_of (calls (final_state (StandIn.unroll true false s)))
  = [Some [nan]; Some [nan]; Some [0]; Some [0]; None] /\
  exists new,
    calls (final_state (StandIn.unroll true false s)) = calls s ++ new /\
    forall k c u, nth_error new k = Some c -> control_of c = Some u ->
      exists tq,
        py_get (torques s) (Z.of_nat (k / calls_per_step false)) = Ok tq /\
        mul_mask (data tq) (mask (cfg s)) = Ok u /\
        zero_if_finite 0 (data tq) u.
Proof.
  intros s0 s.
  split; [vm_compute; reflexivity|]. split; [vm_compute; reflexivity|].
  apply (disabled_actuator_control_is_zero StandIn.step_cost StandIn.final_cost StandIn.engine
           StandIn.torch_exp StandIn.torch_norm
           StandIn.world1 2 2 false false None [0%Z] s0 s true false 0%Z).
  - vm_compute. reflexivity.
  - vm_compute. reflexivity.
  - simpl. auto.
Defined.

(** C7 as stated fails: a stored torque of [infinity] passes the NaN check
    of [eval_f], and the control handed to the cost and to the dynamics has
    NaN, not zero, at the disabled index. *)
Lemma disabled_actuator_control_nan_for_infinite_torque :
  exists s0 s1,
    __init__ StandIn.world1 1 1 false false None [0%Z] = Ok s0 /\
    In 0%Z (disable_actuators (cfg s0)) /\
    StandIn.eval_f [infinity] s0 = Return 0 s1 /\
    calls s1 = [CallStepLoss [0] [0] [nan]; CallDartLayer [0] [0] [nan];
                CallFinalLoss [nan] [nan]] /\
    ~ control_zero_at 0 (CallStepLoss [0] [0] [nan]) /\
    ~ control_zero_at 0 (CallDartLayer [0] [0] [nan]).
Proof.
  eexists. eexists.
  split; [vm_compute; reflexivity|].
  split; [simpl; auto|].
  split; [vm_compute; reflexivity|].
  split; [vm_compute; reflexivity|].
  split; intros (v & Hv & Hz); vm_compute in Hv; inversion Hv; subst v; discriminate Hz.
Qed.

(** ** The solver-facing callbacks *)

Section SolverCallbacks.
Variable step_loss : vec -> vec -> vec -> World -> res float.
Variable final_loss : vec -> vec -> World -> res float.
Variable dart_layer : World -> vec -> vec -> vec -> res (vec * vec * BackpropSnapshot).
Variable torch_exp : float -> float.
Variable torch_norm : vec -> float.
Variable autograd : Traj -> tref -> vec.

(** C8.  When [x] has a NaN entry each of [eval_f], [eval_grad_f], [eval_g]
    and [eval_jac_g] prints its two diagnostic lines and raises
    [AssertionError]; the object is otherwise untouched: no decoding, no
    rollout, no external call. *)
Theorem nan_input_aborts (x out : vec) (s : Traj) :
  np_isnan_any x = true ->
  let fed := fun what => print (PrintVec "x = " x) (print (Print what) s) in
  eval_f step_loss final_loss dart_layer torch_exp torch_norm x s
    = Raise AssertionError (fed "f(x) was fed NaNs!"%string) /\
  eval_grad_f step_loss final_loss dart_layer torch_exp torch_norm autograd x out s
    = Raise AssertionError (fed "grad f(x) was fed NaNs!"%string) /\
  eval_g step_loss final_loss dart_layer torch_exp torch_norm x out s
    = Raise AssertionError (fed "g(x) was fed NaNs!"%string) /\
  eval_jac_g step_loss final_loss dart_layer torch_exp torch_norm x out s
    = Raise AssertionError (fed "jac g(x) was fed NaNs!"%string).
Proof.
  intros H fed.
  unfold eval_f, eval_grad_f, eval_g, eval_jac_g, mbind, when, massert, rassert, lift.
  rewrite H. simpl. repeat split; reflexivity.
Qed.

End SolverCallbacks.

(** The theorem at a vector with one NaN entry, on the two-segment object. *)
Lemma nan_input_aborts_witness :
  let s := StandIn.object (__init__ StandIn.world1 4 2 false false None []) in
  let fed := fun what => print (PrintVec "x = " [0; nan; 0; 0; 0; 0]) (print (Print what) s) in
  np_isnan_any [0; nan; 0; 0; 0; 0] = true /\
  StandIn.eval_f [0; nan; 0; 0; 0; 0] s = Raise AssertionError (fed "f(x) was fed NaNs!"%string) /\
  StandIn.eval_grad_f [0; nan; 0; 0; 0; 0] (np_zeros 6) s
    = Raise AssertionError (fed "grad f(x) was fed NaNs!"%string) /\
  StandIn.eval_g [0; nan; 0; 0; 0; 0] (np_zeros 6) s
    = Raise AssertionError (fed "g(x) was fed NaNs!"%string) /\
  StandIn.eval_jac_g [0; nan; 0; 0; 0; 0] (np_zeros 6) s
    = Raise AssertionError (fed "jac g(x) was fed NaNs!"%string).
Proof.
  intros s fed. split; [reflexivity|].
  apply (nan_input_aborts StandIn.step_cost StandIn.final_cost StandIn.engine
           StandIn.torch_exp StandIn.torch_norm StandIn.autograd
           [0; nan; 0; 0; 0; 0] (np_zeros 6) s).
  reflexivity.
Defined.

(** ** The exceptions of the embedded code *)

Lemma fails_only_ok {A : Type} (P : exn -> Prop) (a : A) : fails_only P (Ok a).
Proof. intros e H. discriminate H. Qed.

Lemma fails_only_err {A : Type} (e : exn) :
  is_Exception e = true -> fails_only (A := A) ordinary (Err e).
Proof. intros H e' E. inversion E; subst. exact H. Qed.

Lemma fails_only_bind {A B : Type} (P : exn -> Prop) (c : res A) (k : A -> res B) :
  fails_only P c -> (forall a, fails_only P (k a)) -> fails_only P (rbind c k).
Proof.
  intros Hc Hk e H. destruct c as [a|e']; simpl in H.
  - exact (Hk a e H).
  - apply Hc. inversion H; subst. reflexivity.
Qed.

Lemma fails_only_foldM {X S : Type} (P : exn -> Prop) (f : X -> S -> res S) (l : list X) :
  (forall x s, fails_only P (f x s)) -> forall s, fails_only P (foldM f l s).
Proof.
  intros Hf. induction l as [|x l IH]; intros s; simpl.
  - apply fails_only_ok.
  - apply fails_only_bind; [apply Hf|exact IH].
Qed.

Create HintDb own_exceptions.

Ltac own_step :=
  match goal with
  | |- fails_only _ (Ok _) => apply fails_only_ok
  | |- fails_only _ (Err _) => apply fails_only_err; reflexivity
  | |- fails_only _ (rbind _ _) => apply fails_only_bind; [|intros ?]
  | |- fails_only _ (foldM _ _ _) => apply fails_only_foldM; intros ? ?
  | |- fails_only _ _ => solve [auto with own_exceptions]
  | |- fails_only _ (if ?b then _ else _) => destruct b
  | |- fails_only _ (match ?x with _ => _ end) => destruct x
  | |- fails_only _ _ => progress cbv beta zeta
  end.

Ltac own := repeat own_step.

Lemma own_rassert (b : bool) : fails_only ordinary (rassert b).
Proof. unfold rassert. own. Qed.
Lemma own_py_get {A : Type} (l : list A) (i : Z) : fails_only ordinary (py_get l i).
Proof. unfold py_get. own. Qed.
Lemma own_py_set {A : Type} (l : list A) (i : Z) (v : A) : fails_only ordinary (py_set l i v).
Proof. unfold py_set. own. Qed.
Lemma own_np_set_slice (out : vec) (a b : nat) (v : vec) :
  fails_only ordinary (np_set_slice out a b v).
Proof. unfold np_set_slice. own. Qed.
Lemma own_broadcast2 (f : float -> float -> float) (a b : vec) :
  fails_only ordinary (broadcast2 f a b).
Proof. unfold broadcast2. own. Qed.
Lemma own_py_mod (a b : Z) : fails_only ordinary (py_mod a b).
Proof. unfold py_mod. own. Qed.
Lemma own_py_floor_div (a b : Z) : fails_only ordinary (py_floor_div a b).
Proof. unfold py_floor_div. own. Qed.
Lemma own_py_add (a : option Z) (b : Z) : fails_only ordinary (py_add a b).
Proof. unfold py_add. own. Qed.
#[local] Hint Resolve own_rassert own_py_get own_py_set own_np_set_slice own_broadcast2
  own_py_mod own_py_floor_div own_py_add : own_exceptions.

Lemma own_vsub (a b : vec) : fails_only ordinary (vsub a b).
Proof. apply own_broadcast2. Qed.
Lemma own_mul_mask (t : vec) (m : list Z) : fails_only ordinary (mul_mask t m).
Proof. apply own_broadcast2. Qed.
Lemma own_get_flat_problem_dim (s : Traj) : fails_only ordinary (get_flat_problem_dim s).
Proof. unfold get_flat_problem_dim. own. Qed.
#[local] Hint Resolve own_vsub own_mul_mask own_get_flat_problem_dim : own_exceptions.

Lemma own_set_tensor_data (l : list Tensor) (i : Z) (v : vec) :
  fails_only ordinary (set_tensor_data l i v).
Proof. unfold set_tensor_data. own. Qed.
#[local] Hint Resolve own_set_tensor_data : own_exceptions.

Lemma own_unflatten (s : Traj) (x : vec) : fails_only ordinary (unflatten s x).
Proof.
  unfold unflatten, unflatten_loop, unflatten_shot, unflatten_torque. own.
Qed.

Lemma own_flatten (s : Traj) (out : vec) (which : string) :
  fails_only ordinary (flatten s out which).
Proof.
  unfold flatten, flatten_loop, flatten_shot, flatten_knot, flatten_torque. own.
Qed.

Lemma own_tensors (s : Traj) : fails_only ordinary (tensors s).
Proof. unfold tensors. own. Qed.

Lemma own_barrier (torch_exp : float -> float) (torch_norm : vec -> float)
    (a b c d : vec) (k : float) :
  fails_only ordinary (barrier torch_exp torch_norm a b c d k).
Proof. unfold barrier. own. Qed.

Lemma own_eval_g_fill (s : Traj) (out : vec) : fails_only ordinary (eval_g_fill s out).
Proof. unfold eval_g_fill, eval_g_terminal, eval_g_knot. own. Qed.

Lemma own_jac_put (v : float) (st : jac_state) : fails_only ordinary (jac_put v st).
Proof. unfold jac_put. own. Qed.
#[local] Hint Resolve own_jac_put : own_exceptions.

Lemma own_eval_jac_g_fill (s : Traj) (out : vec) : fails_only ordinary (eval_jac_g_fill s out).
Proof.
  unfold eval_jac_g_fill, jac_knot, insertFullJacobian, insertNegativeIdentity, jac_step,
    jac_put_block.
  own.
Qed.

Lemma own_sp_append (r c : option Z) (a b : Z) (st : idx_state) :
  fails_only ordinary (sp_append r c a b st).
Proof. unfold sp_append. own. Qed.
#[local] Hint Resolve own_sp_append : own_exceptions.

Lemma own_torque_jac_locations (k : nat) : forall (cursor : option Z) (D n : Z),
  fails_only ordinary (torque_jac_locations k cursor D n).
Proof.
  induction k as [|k IH]; intros cursor D n; simpl; own.
Qed.
#[local] Hint Resolve own_torque_jac_locations : own_exceptions.

Lemma own_get_jac_g_sparsity_indices (s : Traj) :
  fails_only ordinary (get_jac_g_sparsity_indices s).
Proof.
  unfold get_jac_g_sparsity_indices, sp_knot, sp_insertFullJacobian, sp_insertNegativeIdentity,
    sp_insertPhasePhaseJacobian, sp_insertTorquePhaseJacobian.
  own.
Qed.
#[local] Hint Resolve own_unflatten own_flatten own_tensors own_barrier own_eval_g_fill
  own_eval_jac_g_fill own_get_jac_g_sparsity_indices : own_exceptions.

(** ** What a method can raise *)

Lemma raises_only_ret {A : Type} (P : exn -> Prop) (a : A) : raises_only P (mret a).
Proof. intros s e s' H. discriminate H. Qed.

Lemma raises_only_bind {A B : Type} (P : exn -> Prop) (c : M A) (k : A -> M B) :
  raises_only P c -> (forall a, raises_only P (k a)) -> raises_only P (mbind c k).
Proof.
  intros Hc Hk s e s' H. unfold mbind in H. destruct (c s) as [a s1|e1 s1] eqn:E.
  - exact (Hk a s1 e s' H).
  - inversion H; subst. exact (Hc s e s' E).
Qed.

Lemma raises_only_lift {A : Type} (P : exn -> Prop) (r : res A) :
  fails_only P r -> raises_only P (lift r).
Proof. intros Hr s e s' H. unfold lift in H. destruct r; inversion H; subst. apply Hr. reflexivity. Qed.

Lemma raises_only_get_self (P : exn -> Prop) : raises_only P get_self.
Proof. intros s e s' H. discriminate H. Qed.

Lemma raises_only_modify (P : exn -> Prop) (f : Traj -> Traj) : raises_only P (modify f).
Proof. intros s e s' H. discriminate H. Qed.

Lemma raises_only_when (P : exn -> Prop) (b : bool) (c : M unit) :
  raises_only P c -> raises_only P (when b c).
Proof. intros H. destruct b; [exact H|apply raises_only_ret]. Qed.

Lemma raises_only_mfold {X S : Type} (P : exn -> Prop) (f : X -> S -> M S) (l : list X) :
  (forall x acc, raises_only P (f x acc)) -> forall acc, raises_only P (mfold f l acc).
Proof.
  intros Hf. induction l as [|x l IH]; intros acc; simpl.
  - apply raises_only_ret.
  - apply raises_only_bind; [apply Hf|exact IH].
Qed.

Lemma raises_only_call {A : Type} (P : exn -> Prop) (r : Traj -> res A) (c : call) :
  (forall s, fails_only P (r s)) -> raises_only P (fun s => lift (r s) (record_call c s)).
Proof.
  intros Hr s e s' H. unfold lift in H. destruct (r s) eqn:E; inversion H; subst.
  exact (Hr s e E).
Qed.

Section OwnOrForeign.
Variable step_loss : vec -> vec -> vec -> World -> res float.
Variable final_loss : vec -> vec -> World -> res float.
Variable dart_layer : World -> vec -> vec -> vec -> res (vec * vec * BackpropSnapshot).
Variable torch_exp : float -> float.
Variable torch_norm : vec -> float.
Variable autograd : Traj -> tref -> vec.

(** What a callback can raise: an exception of its own code, all of them
    instances of [Exception], or what an external callable raised. *)
Local Abbreviation P :=
  (fun e => ordinary e \/ raised_by_callable step_loss final_loss dart_layer e).

Lemma own_lift {A : Type} (r : res A) : fails_only ordinary r -> raises_only P (lift r).
Proof. intros H. apply raises_only_lift. intros e E. left. exact (H e E). Qed.

Lemma own_massert (b : bool) : raises_only P (massert b).
Proof. apply own_lift. apply own_rassert. Qed.

Lemma own_mprint (l : line) : raises_only P (mprint l).
Proof. apply raises_only_modify. Qed.

Lemma own_call_step_loss (pos vel t : vec) :
  raises_only P (call_step_loss step_loss pos vel t).
Proof. apply raises_only_call. intros s e E. right. left. eauto. Qed.

Lemma own_call_dart_layer (pos vel t : vec) :
  raises_only P (call_dart_layer dart_layer pos vel t).
Proof. apply raises_only_call. intros s e E. right. right. right. eauto. Qed.

Lemma own_call_final_loss (pos vel : vec) :
  raises_only P (call_final_loss final_loss pos vel).
Proof. apply raises_only_call. intros s e E. right. right. left. eauto. Qed.

#[local] Hint Resolve own_massert own_mprint own_call_step_loss own_call_dart_layer
  own_call_final_loss : own_exceptions.

Ltac own_m :=
  repeat first
    [ apply raises_only_ret
    | apply raises_only_get_self
    | apply raises_only_modify
    | solve [auto with own_exceptions]
    | apply own_lift; solve [auto with own_exceptions | own]
    | apply raises_only_when
    | apply raises_only_bind; [|intros ?]
    | apply raises_only_mfold; intros ? ?
    | match goal with |- raises_only _ (match ?x with _ => _ end) => destruct x end ].

Lemma own_unroll_knot (i : Z) (pos vel : vec) (kl : float) :
  raises_only P (unroll_knot torch_exp torch_norm i pos vel kl).
Proof. unfold unroll_knot. own_m. Qed.
#[local] Hint Resolve own_unroll_knot : own_exceptions.

Lemma own_unroll_step (use_knots after_step : bool) (i : Z) (st : roll_state) :
  raises_only P (unroll_step step_loss dart_layer torch_exp torch_norm use_knots after_step i st).
Proof. unfold unroll_step. own_m. Qed.
#[local] Hint Resolve own_unroll_step : own_exceptions.

Lemma own_unroll (use_knots after_step : bool) :
  raises_only P (unroll step_loss final_loss dart_layer torch_exp torch_norm
                   use_knots after_step).
Proof. unfold unroll. own_m. Qed.
#[local] Hint Resolve own_unroll : own_exceptions.

Lemma own_ensure_fresh_rollout (x : vec) :
  raises_only P (ensure_fresh_rollout step_loss final_loss dart_layer torch_exp torch_norm x).
Proof. unfold ensure_fresh_rollout. own_m. Qed.
#[local] Hint Resolve own_ensure_fresh_rollout : own_exceptions.

Lemma own_eval_f (x : vec) :
  raises_only P (eval_f step_loss final_loss dart_layer torch_exp torch_norm x).
Proof. unfold eval_f. own_m. Qed.

Lemma own_eval_grad_f (x out : vec) :
  raises_only P (eval_grad_f step_loss final_loss dart_layer torch_exp torch_norm autograd
                   x out).
Proof. unfold eval_grad_f, backward. own_m. Qed.

Lemma own_eval_g_report (i : Z) (u : unit) : raises_only P (eval_g_report i u).
Proof. unfold eval_g_report. own_m. Qed.
#[local] Hint Resolve own_eval_g_report : own_exceptions.

Lemma own_eval_g (x out : vec) :
  raises_only P (eval_g step_loss final_loss dart_layer torch_exp torch_norm x out).
Proof. unfold eval_g. own_m. Qed.

Lemma own_eval_jac_g (x out : vec) :
  raises_only P (eval_jac_g step_loss final_loss dart_layer torch_exp torch_norm x out).
Proof. unfold eval_jac_g. own_m. Qed.

(** What [try: ... except Exception] does with each outcome. *)
Lemma try_except_returns {A : Type} (c : M A) (msg : string) (s : Traj) :
  (forall a s', c s = Return a s' -> try_except c msg s = Return (Some a) s') /\
  (forall e s', is_Exception e = true -> c s = Raise e s' ->
     try_except c msg s = Return None (print (PrintExn e) (print (Print msg) s'))) /\
  (forall e s', try_except c msg s = Raise e s' ->
     is_Exception e = false /\ c s = Raise e s').
Proof.
  unfold try_except. destruct (c s) as [a s1|e s1].
  - repeat split; intros; congruence.
  - split; [intros; congruence|]. split.
    + intros e' s' He H. inversion H; subst. rewrite He. reflexivity.
    + intros e' s' H. destruct (is_Exception e) eqn:He; inversion H; subst. auto.
Qed.

Lemma try_except_foreign {A : Type} (c : M A) (msg : string) (s : Traj) (e : exn) (s' : Traj) :
  raises_only P c -> try_except c msg s = Raise e s' ->
  is_Exception e = false /\ raised_by_callable step_loss final_loss dart_layer e.
Proof.
  intros Hc H. apply try_except_returns in H. destruct H as (He & H).
  split; [exact He|]. destruct (Hc s e s' H) as [Ho|Hf]; [|exact Hf].
  unfold ordinary in Ho. congruence.
Qed.


End OwnOrForeign.



(** ** The encoding layer: decode, then encode *)

Lemma py_get_nat {A} (l : list A) (k : nat) :
  py_get l (Z.of_nat k) =
  match nth_error l k with
  | Some a => Ok a
  | None => Err IndexError
  end.
Proof.
  unfold py_get.
  destruct (Z.of_nat k <? 0)%Z eqn:E; [apply Z.ltb_lt in E; lia|]. rewrite E. simpl.
  destruct (Z.of_nat (length l) <=? Z.of_nat k)%Z eqn:E2.
  - apply Z.leb_le in E2. destruct (nth_error l k) eqn:E3; [|reflexivity].
    assert (k < length l)%nat by (apply nth_error_Some; congruence). lia.
  - rewrite Nat2Z.id. reflexivity.
Qed.

Lemma py_set_nat {A} (l : list A) (k : nat) (v : A) :
  py_set l (Z.of_nat k) v =
  if Nat.ltb k (length l) then Ok (list_set l k v) else Err IndexError.
Proof.
  unfold py_set.
  destruct (Z.of_nat k <? 0)%Z eqn:E; [apply Z.ltb_lt in E; lia|]. rewrite E. simpl.
  destruct (Z.of_nat (length l) <=? Z.of_nat k)%Z eqn:E2.
  - apply Z.leb_le in E2. destruct (Nat.ltb k (length l)) eqn:E3; [|reflexivity].
    apply Nat.ltb_lt in E3. lia.
  - apply Z.leb_gt in E2. destruct (Nat.ltb k (length l)) eqn:E3.
    + rewrite Nat2Z.id. reflexivity.
    + apply Nat.ltb_ge in E3. lia.
Qed.

Lemma set_tensor_data_nat (l : list Tensor) (k : nat) (v : vec) :
  set_tensor_data l (Z.of_nat k) v =
  match nth_error l k with
  | Some t => Ok (list_set l k (set_data v t))
  | None => Err IndexError
  end.
Proof.
  unfold set_tensor_data. rewrite py_get_nat.
  destruct (nth_error l k) eqn:E; [|reflexivity]. simpl.
  rewrite py_set_nat.
  assert (H : (k < length l)%nat) by (apply nth_error_Some; congruence).
  apply Nat.ltb_lt in H. rewrite H. reflexivity.
Qed.

Lemma firstn_add_skipn {A} (a b : nat) (l : list A) :
  firstn (a + b) l = firstn a l ++ firstn b (skipn a l).
Proof.
  revert l. induction a as [|a IH]; intros l; simpl; [reflexivity|].
  destruct l; simpl; [rewrite firstn_nil; reflexivity|]. rewrite IH. reflexivity.
Qed.

(** Writing the slice of [x] at the cursor keeps [out] equal to [x] up to
    the cursor. *)
Lemma np_set_slice_prefix (x out : vec) (c D : nat) :
  length out = length x ->
  firstn c out = firstn c x ->
  exists out',
    np_set_slice out c (c + D) (py_slice x c (c + D)) = Ok out' /\
    length out' = length x /\
    firstn (c + D) out' = firstn (c + D) x.
Proof.
  intros Hlen Hpre. unfold np_set_slice, py_slice.
  replace (c + D - c)%nat with D by lia.
  rewrite length_firstn, length_skipn, Hlen.
  replace (Nat.eqb (Nat.min D (length x - c)) (Nat.min (c + D) (length x) - Nat.min c (length x)))
    with true by (symmetry; apply Nat.eqb_eq; lia).
  eexists. split; [reflexivity|].
  assert (H1 : firstn (Nat.min c (length x)) out = firstn (Nat.min c (length x)) x).
  { destruct (Nat.le_ge_cases c (length x)) as [H|H].
    - rewrite Nat.min_l by lia. exact Hpre.
    - rewrite Nat.min_r by lia. rewrite <- Hlen at 1. rewrite !firstn_all2 in Hpre by lia.
      rewrite firstn_all, firstn_all. exact Hpre. }
  rewrite H1. clear H1.
  assert (HA : firstn (Nat.min c (length x)) x ++ firstn D (skipn c x)
               = firstn (Nat.min (c + D) (length x)) x).
  { destruct (Nat.le_ge_cases c (length x)) as [H|H].
    - rewrite (Nat.min_l c) by lia. rewrite <- firstn_add_skipn.
      destruct (Nat.le_ge_cases (c + D) (length x)) as [H'|H'].
      + rewrite Nat.min_l by lia. reflexivity.
      + rewrite Nat.min_r by lia. rewrite firstn_all, firstn_all2 by lia. reflexivity.
    - rewrite (Nat.min_r c) by lia. rewrite (Nat.min_r (c + D)) by lia.
      rewrite (skipn_all2 x) by lia. rewrite firstn_nil, app_nil_r. reflexivity. }
  rewrite app_assoc, HA. clear HA. split.
  - rewrite length_app, length_firstn, length_skipn. lia.
  - destruct (Nat.le_ge_cases (c + D) (length x)) as [H|H].
    + rewrite Nat.min_l by lia.
      rewrite firstn_app, firstn_firstn, Nat.min_id, length_firstn.
      replace (c + D - Nat.min (c + D) (length x))%nat with O by lia.
      simpl. rewrite app_nil_r. reflexivity.
    + rewrite Nat.min_r by lia. rewrite (skipn_all2 out) by lia. rewrite app_nil_r.
      rewrite firstn_all. rewrite !firstn_all2 by lia. reflexivity.
Qed.

Lemma rbind_ok {A B} (c : res A) (k : A -> res B) (b : B) :
  rbind c k = Ok b -> exists a, c = Ok a /\ k a = Ok b.
Proof. destruct c; simpl; [eauto|discriminate]. Qed.

Lemma rbind_intro {A B} (c : res A) (k : A -> res B) (a : A) (r : res B) :
  c = Ok a -> k a = r -> rbind c k = r.
Proof. intros -> H. exact H. Qed.

Lemma foldM_cons {X S} (f : X -> S -> res S) (x : X) (l : list X) (s s1 : S) (r : res S) :
  f x s = Ok s1 -> foldM f l s1 = r -> foldM f (x :: l) s = r.
Proof. intros H1 H2. simpl. rewrite H1. exact H2. Qed.

Section Decode.
Variable x : vec.

Lemma unflatten_torques_spec (l : list Z) : forall su fc tc su1 fc1 tc1,
  foldM (unflatten_torque x) l (su, fc, tc) = Ok (su1, fc1, tc1) ->
  cfg su1 = cfg su /\ knot_poses su1 = knot_poses su /\ knot_vels su1 = knot_vels su /\
  length (torques su1) = length (torques su) /\
  (forall t, (t < tc)%nat -> nth_error (torques su1) t = nth_error (torques su) t) /\
  tc1 = (tc + length l)%nat /\ fc1 = (fc + length l * world_dofs su)%nat /\
  (forall q, (q < length l)%nat ->
     exists tq, nth_error (torques su1) (tc + q) = Some tq /\
                data tq = py_slice x (fc + q * world_dofs su)
                            (fc + q * world_dofs su + world_dofs su)).
Proof.
  induction l as [|j l IH]; intros su fc tc su1 fc1 tc1 H; simpl in H.
  - inversion H; subst. repeat split; auto; try lia. intros q Hq. simpl in Hq. lia.
  - apply rbind_ok in H. destruct H as ([[su' fc'] tc'] & Hstep & Hrest).
    unfold unflatten_torque in Hstep. rewrite set_tensor_data_nat in Hstep.
    destruct (nth_error (torques su) tc) as [t0|] eqn:E0; simpl in Hstep; [|discriminate].
    inversion Hstep; subst su' fc' tc'; clear Hstep.
    apply IH in Hrest.
    destruct Hrest as (H1 & H2 & H3 & H4 & H5 & H6 & H7 & H8).
    simpl in H1, H2, H3, H4, H5.
    change (world_dofs (set_torques (list_set (torques su) tc
              (set_data (py_slice x fc (fc + world_dofs su)) t0)) su))
      with (world_dofs su) in *.
    rewrite list_set_length in H4.
    assert (Hat : forall t, (t < S tc)%nat ->
              nth_error (torques su1) t =
              if Nat.eqb tc t then Some (set_data (py_slice x fc (fc + world_dofs su)) t0)
              else nth_error (torques su) t).
    { intros t Ht. rewrite H5 by exact Ht. rewrite nth_error_list_set.
      destruct (Nat.eqb tc t); [|reflexivity].
      assert (Hlt : (tc < length (torques su))%nat) by (apply nth_error_Some; congruence).
      apply Nat.ltb_lt in Hlt. rewrite Hlt. reflexivity. }
    repeat split; auto.
    + intros t Ht. rewrite Hat by lia.
      destruct (Nat.eqb tc t) eqn:E; [apply Nat.eqb_eq in E; exfalso; lia|reflexivity].
    + simpl. lia.
    + simpl. lia.
    + intros [|q] Hq.
      * rewrite Nat.add_0_r, Hat, Nat.eqb_refl by lia. eexists. split; [reflexivity|].
        simpl. rewrite Nat.add_0_r. reflexivity.
      * simpl in Hq. destruct (H8 q) as (tq & Hq1 & Hq2); [lia|].
        exists tq. split.
        -- rewrite <- Hq1. f_equal. lia.
        -- rewrite Hq2. f_equal; simpl; lia.
Qed.


(** What one iteration of [unflatten]'s outer loop leaves behind. *)
Lemma unflatten_shot_spec (a : nat) (su : Traj) (fc tc : nat) (su1 : Traj) (fc1 tc1 : nat) :
  unflatten_shot x (Z.of_nat a) (su, fc, tc) = Ok (su1, fc1, tc1) ->
  let D := world_dofs su in
  let free := (0 <? Z.of_nat a)%Z || tune_starting_point (cfg su) in
  let fck := if free then (fc + D + D)%nat else fc in
  let L := length (range (shot_length su tc)) in
  same_layout su1 su /\
  (forall k, k <> a -> nth_error (knot_poses su1) k = nth_error (knot_poses su) k /\
                       nth_error (knot_vels su1) k = nth_error (knot_vels su) k) /\
  (free = true ->
   exists kp kv,
     nth_error (knot_poses su1) a = Some kp /\ data kp = py_slice x fc (fc + D) /\
     nth_error (knot_vels su1) a = Some kv /\ data kv = py_slice x (fc + D) (fc + D + D)) /\
  (forall t, (t < tc)%nat -> nth_error (torques su1) t = nth_error (torques su) t) /\
  tc1 = (tc + L)%nat /\ fc1 = (fck + L * D)%nat /\
  (forall q, (q < L)%nat ->
     exists tq, nth_error (torques su1) (tc + q) = Some tq /\
                data tq = py_slice x (fck + q * D) (fck + q * D + D)).
Proof.
  intros H D free fck L. unfold unflatten_shot in H.
  apply rbind_ok in H. destruct H as ([[su' fc'] tc'] & Hknot & Htor).
  fold free in Hknot. fold D in Hknot.
  assert (Hk : same_layout su' su /\ torques su' = torques su /\ fc' = fck /\ tc' = tc /\
               (forall k, k <> a -> nth_error (knot_poses su') k = nth_error (knot_poses su) k /\
                                    nth_error (knot_vels su') k = nth_error (knot_vels su) k) /\
               (free = true ->
                exists kp kv,
                  nth_error (knot_poses su') a = Some kp /\ data kp = py_slice x fc (fc + D) /\
                  nth_error (knot_vels su') a = Some kv /\
                  data kv = py_slice x (fc + D) (fc + D + D))).
  { unfold fck. destruct free.
    - rewrite set_tensor_data_nat in Hknot.
      destruct (nth_error (knot_poses su) a) as [p0|] eqn:Ep; simpl in Hknot; [|discriminate].
      rewrite set_tensor_data_nat in Hknot.
      destruct (nth_error (knot_vels su) a) as [v0|] eqn:Ev; simpl in Hknot; [|discriminate].
      inversion Hknot; subst su' fc' tc'; clear Hknot.
      assert (Hpa : (a < length (knot_poses su))%nat) by (apply nth_error_Some; congruence).
      assert (Hva : (a < length (knot_vels su))%nat) by (apply nth_error_Some; congruence).
      apply Nat.ltb_lt in Hpa, Hva.
      split; [|split; [reflexivity|split; [reflexivity|split; [reflexivity|split]]]].
      + unfold same_layout; simpl. rewrite !list_set_length. auto.
      + intros k Hk. simpl. rewrite !nth_error_list_set.
        destruct (Nat.eqb a k) eqn:E; [apply Nat.eqb_eq in E; congruence|auto].
      + intros _. simpl. rewrite !nth_error_list_set, Nat.eqb_refl, Hpa, Hva.
        eexists. eexists. repeat split; reflexivity.
    - inversion Hknot; subst su' fc' tc'; clear Hknot.
      unfold same_layout. repeat split; auto. discriminate. }
  destruct Hk as (Hlay & Htq & -> & -> & Hother & Hfree).
  apply unflatten_torques_spec in Htor. simpl in Htor.
  destruct Htor as (H1 & H2 & H3 & H4 & H5 & H6 & H7 & H8).
  destruct Hlay as (Hc & Hl1 & Hl2 & Hl3).
  assert (HD : world_dofs su' = D) by (unfold D, world_dofs; rewrite Hc; reflexivity).
  assert (HL : length (range (shot_length su' tc)) = L).
  { unfold L, shot_length. rewrite Hc, Htq. reflexivity. }
  rewrite HD in *. rewrite HL in *.
  split; [|split; [|split; [|split; [|split; [|split]]]]].
  - unfold same_layout. rewrite H1, H2, H3, H4. auto.
  - intros k Hk. rewrite H2, H3. auto.
  - intros Hf. rewrite H2, H3. auto.
  - intros t Ht. rewrite H5 by exact Ht. rewrite Htq. reflexivity.
  - exact H6.
  - exact H7.
  - exact H8.
Qed.


(** The segments [a], ..., [a + m - 1]. *)
Lemma range_shots (n : Z) : range n = map Z.of_nat (seq 0 (Z.to_nat n)).
Proof. reflexivity. Qed.

Lemma same_layout_trans (a b c : Traj) : same_layout a b -> same_layout b c -> same_layout a c.
Proof.
  intros (H1 & H2 & H3 & H4) (G1 & G2 & G3 & G4). unfold same_layout.
  rewrite H1, H2, H3, H4. auto.
Qed.

(** Later iterations of [unflatten] leave earlier knots and torques alone. *)
Lemma unflatten_shots_frame (m : nat) : forall a su fc tc s' fc' tc',
  foldM (unflatten_shot x) (map Z.of_nat (seq a m)) (su, fc, tc) = Ok (s', fc', tc') ->
  same_layout s' su /\
  (forall k, (k < a)%nat -> nth_error (knot_poses s') k = nth_error (knot_poses su) k /\
                            nth_error (knot_vels s') k = nth_error (knot_vels su) k) /\
  (forall t, (t < tc)%nat -> nth_error (torques s') t = nth_error (torques su) t).
Proof.
  induction m as [|m IH]; intros a su fc tc s' fc' tc' H; simpl in H.
  - inversion H; subst. unfold same_layout. repeat split; auto.
  - apply rbind_ok in H. destruct H as ([[su1 fc1] tc1] & Hstep & Hrest).
    apply unflatten_shot_spec in Hstep. cbv zeta in Hstep.
    destruct Hstep as (Hlay & Hother & _ & Htq & Htc & _).
    apply IH in Hrest. destruct Hrest as (Hlay' & Hk' & Ht').
    split; [eapply same_layout_trans; eauto|]. split.
    + intros k Hk. destruct (Hk' k) as [E1 E2]; [lia|].
      destruct (Hother k) as [F1 F2]; [lia|]. rewrite E1, E2. auto.
    + intros t Ht. rewrite Ht' by lia. apply Htq. exact Ht.
Qed.

End Decode.

Lemma flatten_knot_state (sf : Traj) (i : Z) (out : vec) (fc tc : nat) :
  flatten_knot sf "state" i (out, fc, tc) =
  rbind (py_get (knot_poses sf) i) (fun kp =>
  rbind (np_set_slice out fc (fc + world_dofs sf) (data kp)) (fun out =>
  rbind (py_get (knot_vels sf) i) (fun kv =>
  rbind (np_set_slice out (fc + world_dofs sf) (fc + world_dofs sf + world_dofs sf) (data kv))
    (fun out => Ok (out, (fc + world_dofs sf + world_dofs sf)%nat, tc))))).
Proof. reflexivity. Qed.

Lemma flatten_torque_state (sf : Traj) (j : Z) (out : vec) (fc tc : nat) :
  flatten_torque sf "state" j (out, fc, tc) =
  rbind (rbind (py_get (torques sf) (Z.of_nat tc)) (fun tq =>
                np_set_slice out fc (fc + world_dofs sf) (data tq)))
        (fun out => Ok (out, (fc + world_dofs sf)%nat, S tc)).
Proof. reflexivity. Qed.

Section Encode.
Variable x : vec.

Lemma flatten_torques_spec (sf : Traj) (l : list Z) : forall out fc tc,
  length out = length x ->
  firstn fc out = firstn fc x ->
  (forall q, (q < length l)%nat ->
     exists tq, nth_error (torques sf) (tc + q) = Some tq /\
                data tq = py_slice x (fc + q * world_dofs sf)
                            (fc + q * world_dofs sf + world_dofs sf)) ->
  exists out1,
    foldM (flatten_torque sf "state") l (out, fc, tc)
    = Ok (out1, (fc + length l * world_dofs sf)%nat, (tc + length l)%nat) /\
    length out1 = length x /\
    firstn (fc + length l * world_dofs sf) out1 = firstn (fc + length l * world_dofs sf) x.
Proof.
  induction l as [|j l IH]; intros out fc tc Hlen Hpre Hq.
  - exists out. simpl. rewrite !Nat.add_0_r. auto.
  - destruct (Hq O) as (tq & Htq & Hdata); [simpl; lia|].
    rewrite Nat.add_0_r in Htq. rewrite Nat.mul_0_l, Nat.add_0_r in Hdata.
    destruct (np_set_slice_prefix x out fc (world_dofs sf) Hlen Hpre)
      as (out1 & Hset & Hlen1 & Hpre1).
    destruct (IH out1 (fc + world_dofs sf)%nat (S tc) Hlen1 Hpre1) as (out2 & H2 & Hlen2 & Hpre2).
    { intros q Hq'. destruct (Hq (S q)) as (tq' & E1 & E2); [simpl; lia|].
      exists tq'. split; [rewrite <- E1; f_equal; lia|].
      rewrite E2. f_equal; simpl; lia. }
    exists out2. split; [|split; [exact Hlen2|]].
    + cbn [foldM]. rewrite flatten_torque_state, py_get_nat, Htq. cbn [rbind].
      rewrite Hdata, Hset. cbn [rbind]. refine (eq_trans H2 _). f_equal. f_equal; [|simpl; lia].
      f_equal. simpl. lia.
    + replace (fc + length (j :: l) * world_dofs sf)%nat
        with (fc + world_dofs sf + length l * world_dofs sf)%nat by (simpl; lia).
      exact Hpre2.
Qed.

Lemma flatten_shot_spec (sf : Traj) (a : nat) (out : vec) (fc tc : nat) :
  let D := world_dofs sf in
  let free := (0 <? Z.of_nat a)%Z || tune_starting_point (cfg sf) in
  let fck := if free then (fc + D + D)%nat else fc in
  let L := length (range (shot_length sf tc)) in
  length out = length x ->
  firstn fc out = firstn fc x ->
  (free = true ->
   exists kp kv,
     nth_error (knot_poses sf) a = Some kp /\ data kp = py_slice x fc (fc + D) /\
     nth_error (knot_vels sf) a = Some kv /\ data kv = py_slice x (fc + D) (fc + D + D)) ->
  (forall q, (q < L)%nat ->
     exists tq, nth_error (torques sf) (tc + q) = Some tq /\
                data tq = py_slice x (fck + q * D) (fck + q * D + D)) ->
  exists out1,
    flatten_shot sf "state" (Z.of_nat a) (out, fc, tc)
    = Ok (out1, (fck + L * D)%nat, (tc + L)%nat) /\
    length out1 = length x /\
    firstn (fck + L * D) out1 = firstn (fck + L * D) x.
Proof.
  intros D free fck L Hlen Hpre Hknot Htor. unfold flatten_shot. fold free.
  assert (Hk : exists out0,
             (if free then flatten_knot sf "state" (Z.of_nat a) (out, fc, tc)
              else @Ok flat_state (out, fc, tc)) = @Ok flat_state (out0, fck, tc) /\
             length out0 = length x /\ firstn fck out0 = firstn fck x).
  { unfold fck. destruct free.
    - destruct (Hknot eq_refl) as (kp & kv & Hp & Hpd & Hv & Hvd).
      destruct (np_set_slice_prefix x out fc D Hlen Hpre) as (out1 & Hs1 & Hl1 & Hp1).
      destruct (np_set_slice_prefix x out1 (fc + D) D Hl1 Hp1) as (out2 & Hs2 & Hl2 & Hp2).
      exists out2. split; [|auto].
      rewrite flatten_knot_state, !py_get_nat, Hp, Hv. cbn [rbind]. fold D.
      rewrite Hpd, Hs1. cbn [rbind]. rewrite Hvd, Hs2. reflexivity.
    - exists out. auto. }
  destruct Hk as (out0 & Hk & Hl0 & Hp0). rewrite Hk. cbn [rbind snd].
  destruct (flatten_torques_spec sf (range (shot_length sf tc)) out0 fck tc Hl0 Hp0 Htor)
    as (out1 & H1 & Hl1 & Hp1).
  exists out1. auto.
Qed.

(** Encoding what was decoded writes [x] back, segment by segment. *)
Lemma roundtrip_shots (m : nat) : forall a su fc tc s' fc' tc',
  foldM (unflatten_shot x) (map Z.of_nat (seq a m)) (su, fc, tc) = Ok (s', fc', tc') ->
  forall out,
    length out = length x ->
    firstn fc out = firstn fc x ->
    exists out',
      foldM (flatten_shot s' "state") (map Z.of_nat (seq a m)) (out, fc, tc)
      = Ok (out', fc', tc') /\
      length out' = length x /\
      firstn fc' out' = firstn fc' x.
Proof.
  induction m as [|m IH]; intros a su fc tc s' fc' tc' H out Hlen Hpre; simpl in H.
  - inversion H; subst. exists out. auto.
  - apply rbind_ok in H. destruct H as ([[su1 fc1] tc1] & Hstep & Hrest).
    pose proof (unflatten_shots_frame x _ _ _ _ _ _ _ _ Hrest) as (Hlay & Hkn & Htq).
    apply unflatten_shot_spec in Hstep. cbv zeta in Hstep.
    destruct Hstep as (Hlay1 & _ & Hfree & _ & Htc1 & Hfc1 & Hcont).
    pose proof (same_layout_trans _ _ _ Hlay Hlay1) as (Hc & Hl1 & Hl2 & Hl3).
    assert (HD : world_dofs s' = world_dofs su) by (unfold world_dofs; rewrite Hc; reflexivity).
    assert (HL : shot_length s' tc = shot_length su tc).
    { unfold shot_length. rewrite Hc, Hl1. reflexivity. }
    destruct (flatten_shot_spec s' a out fc tc Hlen Hpre) as (out1 & H1 & Hlen1 & Hpre1).
    + rewrite Hc, HD. intros Hf. destruct (Hfree Hf) as (kp & kv & E1 & E2 & E3 & E4).
      exists kp, kv. destruct (Hkn a) as [F1 F2]; [lia|]. rewrite F1, F2. auto.
    + rewrite Hc, HD, HL. intros q Hq. destruct (Hcont q Hq) as (tq & E1 & E2).
      exists tq. rewrite Htq by lia. auto.
    + rewrite Hc, HD, HL in H1, Hpre1. rewrite <- Hfc1, <- Htc1 in H1. rewrite <- Hfc1 in Hpre1.
      destruct (IH _ _ _ _ _ _ _ Hrest out1 Hlen1 Hpre1) as (out' & H2 & Hlen2 & Hpre2).
      exists out'. split; [|auto].
      cbn [map seq]. eapply foldM_cons; [exact H1|exact H2].
Qed.

End Encode.

Lemma range_length (z : Z) : length (range z) = Z.to_nat z.
Proof. unfold range. rewrite length_map, length_seq. reflexivity. Qed.

Section Total.
Variable x : vec.

Lemma unflatten_torques_ok (l : list Z) : forall su fc tc,
  (forall q, (q < length l)%nat -> (tc + q < length (torques su))%nat) ->
  exists r, foldM (unflatten_torque x) l (su, fc, tc) = Ok r.
Proof.
  induction l as [|j l IH]; intros su fc tc H.
  - eexists. reflexivity.
  - assert (H0 : (tc < length (torques su))%nat).
    { specialize (H O). simpl in H. lia. }
    destruct (nth_error (torques su) tc) as [t0|] eqn:E;
      [|apply nth_error_None in E; lia].
    destruct (IH (set_torques (list_set (torques su) tc
                    (set_data (py_slice x fc (fc + world_dofs su)) t0)) su)
                 (fc + world_dofs su)%nat (S tc)) as (r & Hr).
    { intros q Hq. simpl. rewrite list_set_length. specialize (H (S q)). simpl in H. lia. }
    exists r. eapply foldM_cons; [|exact Hr].
    unfold unflatten_torque. rewrite set_tensor_data_nat, E. reflexivity.
Qed.

Lemma unflatten_shot_ok (a : nat) (su : Traj) (fc tc : nat) :
  (a < length (knot_poses su))%nat -> (a < length (knot_vels su))%nat ->
  exists r, unflatten_shot x (Z.of_nat a) (su, fc, tc) = Ok r.
Proof.
  intros Hp Hv. unfold unflatten_shot.
  assert (Hk : exists su' fc',
            (if (0 <? Z.of_nat a)%Z || tune_starting_point (cfg su)
             then rbind (set_tensor_data (knot_poses su) (Z.of_nat a)
                           (py_slice x fc (fc + world_dofs su))) (fun kp =>
                  rbind (set_tensor_data (knot_vels (set_knot_poses kp su)) (Z.of_nat a)
                           (py_slice x (fc + world_dofs su) (fc + world_dofs su + world_dofs su)))
                    (fun kv => Ok (set_knot_vels kv (set_knot_poses kp su),
                                   (fc + world_dofs su + world_dofs su)%nat, tc)))
             else @Ok unflat_state (su, fc, tc)) = @Ok unflat_state (su', fc', tc) /\
            length (torques su') = length (torques su) /\ cfg su' = cfg su).
  { destruct (_ || _).
    - rewrite set_tensor_data_nat.
      destruct (nth_error (knot_poses su) a) as [p0|] eqn:Ep;
        [|apply nth_error_None in Ep; lia].
      cbn [rbind]. rewrite set_tensor_data_nat. cbn [knot_vels set_knot_poses].
      destruct (nth_error (knot_vels su) a) as [v0|] eqn:Ev;
        [|apply nth_error_None in Ev; lia].
      cbn [rbind]. eexists. eexists. split; [reflexivity|]. split; reflexivity.
    - exists su, fc. auto. }
  destruct Hk as (su' & fc' & Hk & Hl & Hc).
  destruct (unflatten_torques_ok (range (shot_length su' tc)) su' fc' tc) as (r & Hr).
  { intros q Hq. rewrite range_length in Hq. unfold shot_length in Hq. lia. }
  exists r. eapply rbind_intro; [exact Hk|exact Hr].
Qed.

Lemma unflatten_shots_ok (m : nat) : forall a su fc tc,
  (a + m <= length (knot_poses su))%nat -> (a + m <= length (knot_vels su))%nat ->
  exists r, foldM (unflatten_shot x) (map Z.of_nat (seq a m)) (su, fc, tc) = Ok r.
Proof.
  induction m as [|m IH]; intros a su fc tc Hp Hv.
  - eexists. reflexivity.
  - destruct (unflatten_shot_ok a su fc tc) as ([[su1 fc1] tc1] & H1); [lia|lia|].
    pose proof (unflatten_shot_spec x _ _ _ _ _ _ _ H1) as Hs. cbv zeta in Hs.
    destruct Hs as ((_ & _ & Hl2 & Hl3) & _).
    destruct (IH (S a) su1 fc1 tc1) as (r & Hr); [lia|lia|].
    exists r. cbn [map seq]. eapply foldM_cons; [exact H1|exact Hr].
Qed.

(** The cursors of [unflatten] after whole segments. *)
Lemma unflatten_shots_cursors (m : nat) : forall a su fc tc s' fc' tc',
  foldM (unflatten_shot x) (map Z.of_nat (seq a m)) (su, fc, tc) = Ok (s', fc', tc') ->
  let sl := shooting_length (cfg su) in
  let D := Z.of_nat (world_dofs su) in
  (0 <= sl)%Z ->
  Z.of_nat tc = (Z.of_nat a * sl)%Z ->
  (Z.of_nat (a + m) * sl <= Z.of_nat (length (torques su)))%Z ->
  Z.of_nat tc' = (Z.of_nat (a + m) * sl)%Z /\
  Z.of_nat fc' = (Z.of_nat fc + Z.of_nat m * sl * D
                  + 2 * D * Z.of_nat (free_knots (tune_starting_point (cfg su)) a m))%Z.
Proof.
  induction m as [|m IH]; intros a su fc tc s' fc' tc' H sl D Hsl Htc Hlen; simpl in H.
  - inversion H; subst. rewrite Nat.add_0_r. split; [exact Htc|].
    unfold free_knots. destruct (_ || _); simpl; lia.
  - apply rbind_ok in H. destruct H as ([[su1 fc1] tc1] & Hstep & Hrest).
    apply unflatten_shot_spec in Hstep. cbv zeta in Hstep.
    destruct Hstep as ((Hc & Hl1 & _) & _ & _ & _ & Htc1 & Hfc1 & _).
    rewrite range_length in Htc1, Hfc1.
    assert (HL : Z.to_nat (shot_length su tc) = Z.to_nat sl).
    { unfold shot_length. fold sl. f_equal. nia. }
    rewrite HL in Htc1, Hfc1.
    specialize (IH (S a) su1 fc1 tc1 s' fc' tc' Hrest).
    cbv zeta in IH. rewrite Hc, Hl1 in IH. fold sl in IH.
    assert (HD : Z.of_nat (world_dofs su1) = D).
    { unfold D, world_dofs. rewrite Hc. reflexivity. }
    rewrite HD in IH.
    destruct IH as (IH1 & IH2); [exact Hsl|nia|
      replace (S a + m)%nat with (a + S m)%nat by lia; exact Hlen|].
    split; [rewrite IH1; f_equal; lia|].
    rewrite IH2. subst fc1. fold D.
    assert (Hf : ((0 <? Z.of_nat a)%Z || tune_starting_point (cfg su))
                 = (tune_starting_point (cfg su) || Nat.ltb 0 a)).
    { destruct a as [|a]; [rewrite orb_false_r; reflexivity|].
      replace (0 <? Z.of_nat (S a))%Z with true by (symmetry; apply Z.ltb_lt; lia).
      rewrite orb_true_r. reflexivity. }
    rewrite Hf. unfold free_knots.
    replace (tune_starting_point (cfg su) || Nat.ltb 0 (S a)) with true
      by (rewrite orb_true_r; reflexivity).
    destruct (tune_starting_point (cfg su) || Nat.ltb 0 a).
    + rewrite !Nat2Z.inj_add, !Nat2Z.inj_mul, !Z2Nat.id by lia.
      fold D. nia.
    + rewrite !Nat2Z.inj_add, !Nat2Z.inj_mul, !Z2Nat.id by lia. fold D.
      change (Init.Nat.pred (S m)) with m. nia.
Qed.

End Total.

Lemma get_flat_problem_dim_cfg (a b : Traj) :
  cfg a = cfg b -> get_flat_problem_dim a = get_flat_problem_dim b.
Proof. intros H. unfold get_flat_problem_dim, world_dofs. rewrite H. reflexivity. Qed.

(** The flat dimension never exceeds what [unflatten] walks over. *)
Lemma flat_dim_le_cursor (w : World) (nsteps slen : Z) (tune loop : bool) (efs : option vec)
    (dis : list Z) (s0 s s1 : Traj) (x : vec) (n : Z) (fc tc : nat) :
  __init__ w nsteps slen tune loop efs dis = Ok s0 ->
  (0 <= nsteps)%Z -> (1 <= slen)%Z ->
  same_layout s s0 ->
  get_flat_problem_dim s = Ok n ->
  unflatten_loop s x = Ok (s1, fc, tc) ->
  (n <= Z.of_nat fc)%Z.
Proof.
  intros Hinit Hsteps Hsl (Hc & Hl1 & Hl2 & Hl3) Hn Hloop.
  destruct (init_inv _ _ _ _ _ _ _ _ Hinit)
    as (ns & msk & n0 & Hns & _ & _ & Hc0 & _ & Htq & _).
  unfold py_floor_div in Hns.
  destruct (slen =? 0)%Z eqn:E0; [apply Z.eqb_eq in E0; lia|]. inversion Hns; subst ns; clear Hns.
  unfold unflatten_loop in Hloop. rewrite range_shots in Hloop.
  unfold get_flat_problem_dim, py_mod in Hn.
  assert (HD : world_dofs s = getNumDofs w) by (unfold world_dofs; rewrite Hc, Hc0; reflexivity).
  rewrite Hc, Hc0, HD in Hn. cbn [shooting_length num_shots steps tune_starting_point] in Hn.
  destruct (Z.min slen nsteps =? 0)%Z eqn:E1; [discriminate|]. apply Z.eqb_neq in E1.
  cbn [rbind] in Hn. inversion Hn; subst n; clear Hn.
  destruct (Z.le_gt_cases slen nsteps) as [Hle|Hgt].
  - pose proof (unflatten_shots_cursors x _ _ _ _ _ _ _ _ Hloop) as Hcur.
    cbv zeta in Hcur. rewrite Hc, Hc0, HD, Hl1, Htq in Hcur.
    cbn [shooting_length num_shots steps tune_starting_point] in Hcur.
    rewrite length_map, range_length in Hcur. rewrite Z.min_l in * by lia.
    assert (H1 : (1 <= nsteps / slen)%Z) by (apply Z.div_le_lower_bound; lia).
    pose proof (Z.mul_div_le nsteps slen ltac:(lia)) as H2.
    pose proof (Z.mod_pos_bound nsteps slen ltac:(lia)) as H3.
    destruct Hcur as (_ & Hfc); [lia|reflexivity|simpl; rewrite !Z2Nat.id by lia; lia|].
    rewrite Hfc. unfold free_knots. simpl Nat.ltb. rewrite orb_false_r.
    assert (H4 : (0 <= nsteps mod slen * Z.of_nat (getNumDofs w))%Z)
      by (apply Z.mul_nonneg_nonneg; lia).
    clear Hfc. revert H1 H4.
    generalize (nsteps / slen)%Z (nsteps mod slen)%Z (Z.of_nat (getNumDofs w)).
    clear - Hsl. intros q r d H1 H4.
    destruct tune; cbn [negb].
    + rewrite Z2Nat.id by lia. change (Z.of_nat 0) with 0%Z.
      match goal with |- (?a <= ?b)%Z => assert (E : (b - a = r * d)%Z) by ring end. lia.
    + replace (Z.of_nat (Init.Nat.pred (Z.to_nat q))) with (q - 1)%Z by lia.
      rewrite Z2Nat.id by lia. change (Z.of_nat 0) with 0%Z.
      change (match d with 0 => 0 | Z.pos y' => Z.pos y'~0 | Z.neg y' => Z.neg y'~0 end)%Z
        with (2 * d)%Z.
      match goal with |- (?a <= ?b)%Z => assert (E : (b - a = r * d)%Z) by ring end. lia.
  - rewrite Z.div_small in * by lia. rewrite Z.min_r in * by lia.
    rewrite Z.mod_same by lia. rewrite !Z.mul_0_l.
    destruct tune; cbn [negb]; [lia|].
    change (match Z.of_nat (getNumDofs w) with
            | 0 => 0 | Z.pos y' => Z.pos y'~0 | Z.neg y' => Z.neg y'~0 end)%Z
      with (2 * Z.of_nat (getNumDofs w))%Z.
    lia.
Qed.

(** C4.  For an object with the layout the constructor built ([steps >= 0],
    [shooting_length >= 1]), a vector [x] and an array [out] of length
    [get_flat_problem_dim()]: [unflatten(x)] succeeds and
    [flatten(out, 'state')] then returns exactly [x]. *)
Theorem flatten_after_unflatten_is_identity (w : World) (nsteps slen : Z) (tune loop : bool)
    (efs : option vec) (dis : list Z) (s0 s : Traj) (x out : vec) (n : Z) :
  __init__ w nsteps slen tune loop efs dis = Ok s0 ->
  (0 <= nsteps)%Z -> (1 <= slen)%Z ->
  same_layout s s0 ->
  get_flat_problem_dim s = Ok n ->
  Z.of_nat (length x) = n ->
  Z.of_nat (length out) = n ->
  exists s1, unflatten s x = Ok s1 /\ same_layout s1 s0 /\ flatten s1 out "state" = Ok x.
Proof.
  intros Hinit Hsteps Hsl Hlay Hn Hx Hout.
  pose proof Hlay as (Hc & Hl1 & Hl2 & Hl3).
  destruct (init_inv _ _ _ _ _ _ _ _ Hinit)
    as (ns & msk & n0 & Hns & _ & _ & Hc0 & _ & Htq & Hkp & Hkv & _).
  destruct (unflatten_shots_ok x (Z.to_nat (num_shots (cfg s))) 0 s 0 0)
    as ([[s1 fc] tc] & Hloop).
  { rewrite Hl2, Hkp, Hc, Hc0. cbn [num_shots length]. rewrite length_map, range_length. lia. }
  { rewrite Hl3, Hkv, Hc, Hc0. cbn [num_shots length]. rewrite length_map, range_length. lia. }
  assert (Hloop' : unflatten_loop s x = Ok (s1, fc, tc)) by exact Hloop.
  pose proof (flat_dim_le_cursor _ _ _ _ _ _ _ _ _ _ _ _ _ _ Hinit Hsteps Hsl Hlay Hn Hloop')
    as Hle.
  pose proof (unflatten_shots_frame x _ _ _ _ _ _ _ _ Hloop) as (Hlay1 & _).
  destruct (roundtrip_shots x _ _ _ _ _ _ _ _ Hloop out) as (out' & Hfl & Hlen' & Hpre');
    [lia|reflexivity|].
  exists s1. split; [|split].
  - unfold unflatten. rewrite Hloop'. reflexivity.
  - eapply same_layout_trans; eauto.
  - unfold flatten. rewrite (get_flat_problem_dim_cfg s1 s) by (apply Hlay1). rewrite Hn.
    cbn [rbind]. unfold rassert. replace (Z.of_nat (length out) =? n)%Z with true
      by (symmetry; apply Z.eqb_eq; exact Hout).
    cbn [rbind]. unfold flatten_loop. rewrite range_shots.
    destruct Hlay1 as (Hc1 & _). rewrite Hc1.
    eapply rbind_intro; [exact Hfl|]. cbn [fst]. f_equal.
    rewrite firstn_all2 in Hpre' by lia. rewrite firstn_all2 in Hpre' by lia. exact Hpre'.
Qed.

(** The theorem on the two-segment object at [x = 1, ..., 6]. *)
Lemma flatten_after_unflatten_is_identity_witness :
  let s := StandIn.object (__init__ StandIn.world1 4 2 false false None []) in
  let x := [1; 2; 3; 4; 5; 6]%float in
  exists s1, unflatten s x = Ok s1 /\ same_layout s1 s /\
             flatten s1 (np_zeros 6) "state" = Ok x.
Proof.
  intros s x.
  apply (flatten_after_unflatten_is_identity StandIn.world1 4 2 false false None []
           s s x (np_zeros 6) 6).
  - vm_compute. reflexivity.
  - lia.
  - lia.
  - unfold same_layout. auto.
  - vm_compute. reflexivity.
  - reflexivity.
  - reflexivity.
Defined.

(** ** Filling the constraint vector *)

Lemma vsub_same_length (a b : vec) :
  length a = length b -> vsub a b = Ok (vsub_pointwise a b).
Proof. intros H. unfold vsub, broadcast2. rewrite H, Nat.eqb_refl. reflexivity. Qed.

Lemma vsub_pointwise_length (a b : vec) (D : nat) :
  length a = D -> length b = D -> length (vsub_pointwise a b) = D.
Proof. intros Ha Hb. unfold vsub_pointwise. rewrite length_map, length_combine. lia. Qed.

(** Writing a block of [D] values right after what was written so far. *)
Lemma np_set_slice_block (pre rest v : vec) (D : nat) :
  length v = D -> (D <= length rest)%nat ->
  np_set_slice (pre ++ rest) (length pre) (length pre + D) v = Ok ((pre ++ v) ++ skipn D rest).
Proof.
  intros Hv HD. unfold np_set_slice. rewrite length_app.
  rewrite (Nat.min_l (length pre)) by lia. rewrite (Nat.min_l (length pre + D)) by lia.
  replace (length pre + D - length pre)%nat with D by lia.
  rewrite Hv, Nat.eqb_refl. f_equal.
  rewrite firstn_app, firstn_all, Nat.sub_diag. simpl firstn. rewrite app_nil_r.
  rewrite skipn_app, (skipn_all2 pre) by lia.
  replace (length pre + D - length pre)%nat with D by lia.
  rewrite <- app_assoc. reflexivity.
Qed.

(** Two blocks in a row: the position difference, then the velocity
    difference. *)
Lemma write_two_blocks (pre rest a b c d : vec) (D : nat) :
  length a = D -> length b = D -> length c = D -> length d = D ->
  (2 * D <= length rest)%nat ->
  rbind (vsub a b) (fun d1 =>
  rbind (np_set_slice (pre ++ rest) (length pre) (length pre + D) d1) (fun out =>
  rbind (vsub c d) (fun d2 =>
  rbind (np_set_slice out (length pre + D) (length pre + D + D) d2) (fun out =>
  Ok (out, (length pre + D + D)%nat)))))
  = Ok ((pre ++ vsub_pointwise a b ++ vsub_pointwise c d) ++ skipn (2 * D) rest,
        length (pre ++ vsub_pointwise a b ++ vsub_pointwise c d)).
Proof.
  intros Ha Hb Hc Hd HD.
  rewrite vsub_same_length by congruence. cbn [rbind].
  rewrite np_set_slice_block; [|apply vsub_pointwise_length; assumption|lia]. cbn [rbind].
  rewrite vsub_same_length by congruence. cbn [rbind].
  pose proof (vsub_pointwise_length a b D Ha Hb) as L1.
  pose proof (vsub_pointwise_length c d D Hc Hd) as L2.
  replace (length pre + D)%nat with (length (pre ++ vsub_pointwise a b))
    by (rewrite length_app; lia).
  rewrite np_set_slice_block; [|exact L2|rewrite length_skipn; lia]. cbn [rbind].
  rewrite skipn_skipn. replace (D + D)%nat with (2 * D)%nat by lia.
  rewrite <- !app_assoc. rewrite !length_app. f_equal. f_equal. lia.
Qed.

Lemma Forall_nth_error {A} (P : A -> Prop) (l : list A) (i : nat) (a : A) :
  Forall P l -> nth_error l i = Some a -> P a.
Proof. intros H E. rewrite Forall_forall in H. apply H. eapply nth_error_In; eauto. Qed.

Lemma nth_error_default {A} (l : list A) (i : nat) (d : A) :
  (i < length l)%nat -> nth_error l i = Some (nth i l d).
Proof. intros H. apply nth_error_nth'. exact H. Qed.

Lemma nth_data_length (l : list Tensor) (D i : nat) :
  Forall (fun t => length (data t) = D) l -> (i < length l)%nat ->
  length (data (nth i l no_tensor)) = D.
Proof.
  intros H Hi.
  exact (Forall_nth_error (fun t => length (data t) = D) l i _ H (nth_error_default l i _ Hi)).
Qed.

Lemma nth_vec_length (l : list vec) (D i : nat) :
  Forall (fun v => length v = D) l -> (i < length l)%nat -> length (nth i l []) = D.
Proof.
  intros H Hi.
  exact (Forall_nth_error (fun v => length v = D) l i _ H (nth_error_default l i _ Hi)).
Qed.

Lemma terminal_block_length (s : Traj) :
  shapes_ok s ->
  length (terminal_block s) = if loop_or_final s then (2 * world_dofs s)%nat else O.
Proof.
  intros (Hns & Hkp & Hkv & _ & _ & Fkp & Fkv & _ & _ & Htp & Htv & Hfin).
  unfold terminal_block, loop_or_final.
  assert (Hn : (0 < Z.to_nat (num_shots (cfg s)))%nat) by lia.
  destruct (enforce_loop (cfg s)); cbn [orb].
  - rewrite length_app.
    rewrite (vsub_pointwise_length _ _ (world_dofs s)), (vsub_pointwise_length _ _ (world_dofs s));
      try assumption; try lia.
    + apply nth_data_length; [exact Fkv|lia].
    + apply nth_data_length; [exact Fkp|lia].
  - destruct (enforce_final_state (cfg s)) as [final|]; [|reflexivity].
    rewrite length_app.
    rewrite (vsub_pointwise_length _ _ (world_dofs s)), (vsub_pointwise_length _ _ (world_dofs s));
      try assumption; try lia.
    + rewrite length_skipn. lia.
    + rewrite length_firstn. lia.
Qed.

Lemma eval_g_terminal_spec (s : Traj) (out : vec) :
  shapes_ok s ->
  (length (terminal_block s) <= length out)%nat ->
  eval_g_terminal s out
  = Ok (terminal_block s ++ skipn (length (terminal_block s)) out, length (terminal_block s)).
Proof.
  intros Hs Hlen. pose proof (terminal_block_length s Hs) as HT. rewrite HT in Hlen.
  destruct Hs as (Hns & Hkp & Hkv & _ & _ & Fkp & Fkv & _ & _ & Htp & Htv & Hfin).
  assert (Hn : (0 < Z.to_nat (num_shots (cfg s)))%nat) by lia.
  unfold eval_g_terminal, terminal_block, loop_or_final in *.
  destruct (enforce_loop (cfg s)); cbn [orb] in *.
  - change 0%Z with (Z.of_nat 0). rewrite !py_get_nat.
    rewrite (nth_error_default (knot_poses s) 0 no_tensor) by lia.
    rewrite (nth_error_default (knot_vels s) 0 no_tensor) by lia.
    cbn [rbind].
    rewrite HT at 1.
    refine (write_two_blocks [] out _ _ _ _ (world_dofs s) Htp _ Htv _ Hlen).
    + apply nth_data_length; [exact Fkp|lia].
    + apply nth_data_length; [exact Fkv|lia].
  - destruct (enforce_final_state (cfg s)) as [final|].
    + unfold py_slice, py_slice_from. rewrite Nat.sub_0_r. cbn [skipn].
      rewrite HT at 1.
      refine (write_two_blocks [] out _ _ _ _ (world_dofs s) Htp _ Htv _ Hlen).
      * rewrite length_firstn. lia.
      * rewrite length_skipn. lia.
    + reflexivity.
Qed.

Lemma gap_block_length (s : Traj) (a : nat) :
  shapes_ok s -> (a < Z.to_nat (num_shots (cfg s)))%nat ->
  length (gap_block s a) = (2 * world_dofs s)%nat.
Proof.
  intros (Hns & Hkp & Hkv & Hpp & Hpv & Fkp & Fkv & Fpp & Fpv & _) Ha.
  unfold gap_block. rewrite length_app.
  rewrite (vsub_pointwise_length _ _ (world_dofs s)), (vsub_pointwise_length _ _ (world_dofs s)).
  - lia.
  - apply nth_vec_length; [exact Fpv|lia].
  - apply nth_data_length; [exact Fkv|lia].
  - apply nth_vec_length; [exact Fpp|lia].
  - apply nth_data_length; [exact Fkp|lia].
Qed.

Lemma eval_g_knot_spec (s : Traj) (a : nat) (pre rest : vec) :
  shapes_ok s -> (1 <= a)%nat -> (a < Z.to_nat (num_shots (cfg s)))%nat ->
  (2 * world_dofs s <= length rest)%nat ->
  eval_g_knot s (Z.of_nat a) (pre ++ rest, length pre)
  = Ok ((pre ++ gap_block s a) ++ skipn (2 * world_dofs s) rest, length (pre ++ gap_block s a)).
Proof.
  intros (Hns & Hkp & Hkv & Hpp & Hpv & Fkp & Fkv & Fpp & Fpv & _) H1 Ha Hrest.
  unfold eval_g_knot.
  replace (Z.of_nat a =? 0)%Z with false by (symmetry; apply Z.eqb_neq; lia).
  rewrite !py_get_nat.
  rewrite (nth_error_default (last_preknot_poses s) a []) by lia.
  rewrite (nth_error_default (knot_poses s) a no_tensor) by lia.
  rewrite (nth_error_default (last_preknot_vels s) a []) by lia.
  rewrite (nth_error_default (knot_vels s) a no_tensor) by lia.
  cbn [rbind].
  refine (write_two_blocks pre rest _ _ _ _ (world_dofs s) _ _ _ _ Hrest).
  - apply nth_vec_length; [exact Fpp|lia].
  - apply nth_data_length; [exact Fkp|lia].
  - apply nth_vec_length; [exact Fpv|lia].
  - apply nth_data_length; [exact Fkv|lia].
Qed.

Lemma eval_g_knots_spec (s : Traj) (m : nat) : forall a pre rest,
  shapes_ok s -> (1 <= a)%nat -> (a + m <= Z.to_nat (num_shots (cfg s)))%nat ->
  (m * (2 * world_dofs s) <= length rest)%nat ->
  foldM (eval_g_knot s) (map Z.of_nat (seq a m)) (pre ++ rest, length pre)
  = Ok ((pre ++ flat_map (gap_block s) (seq a m)) ++ skipn (m * (2 * world_dofs s)) rest,
        length (pre ++ flat_map (gap_block s) (seq a m))).
Proof.
  induction m as [|m IH]; intros a pre rest Hs H1 Ha Hrest.
  - simpl. rewrite app_nil_r. reflexivity.
  - cbn [seq map flat_map]. eapply foldM_cons.
    + apply eval_g_knot_spec; [exact Hs|lia|lia|lia].
    + rewrite IH; [|exact Hs|lia|lia|rewrite length_skipn; lia].
      rewrite skipn_skipn, <- !app_assoc.
      replace (m * (2 * world_dofs s) + 2 * world_dofs s)%nat
        with (S m * (2 * world_dofs s))%nat by lia.
      reflexivity.
Qed.

Lemma gap_blocks_length (s : Traj) (k : nat) : forall a,
  shapes_ok s -> (a + k <= Z.to_nat (num_shots (cfg s)))%nat ->
  length (flat_map (gap_block s) (seq a k)) = (k * (2 * world_dofs s))%nat.
Proof.
  induction k as [|k IHk]; intros a Hs Hk; [reflexivity|].
  cbn [seq flat_map]. rewrite length_app, IHk by (exact Hs || lia).
  rewrite gap_block_length by (exact Hs || lia). lia.
Qed.

Lemma constraint_vector_length (s : Traj) :
  shapes_ok s -> Z.of_nat (length (constraint_vector s)) = get_constraint_dim s.
Proof.
  intros Hs. pose proof Hs as (Hns & _).
  unfold constraint_vector. rewrite length_app, gap_blocks_length by (exact Hs || lia).
  rewrite (terminal_block_length s Hs). unfold get_constraint_dim.
  destruct (loop_or_final s); nia.
Qed.

Lemma eval_g_fill_spec (s : Traj) (out : vec) :
  shapes_ok s ->
  Z.of_nat (length out) = get_constraint_dim s ->
  eval_g_fill s out = Ok (constraint_vector s, length out).
Proof.
  intros Hs Hlen. pose proof Hs as (Hns & _).
  pose proof (constraint_vector_length s Hs) as Hcv.
  assert (Hout : length out = length (constraint_vector s)) by lia.
  unfold constraint_vector in Hout. rewrite length_app, gap_blocks_length in Hout
    by (exact Hs || lia).
  assert (Hle : (length (terminal_block s) <= length out)%nat)
    by (rewrite Hout; apply Nat.le_add_r).
  unfold eval_g_fill. rewrite (eval_g_terminal_spec s out Hs Hle). cbn [rbind].
  rewrite range_shots.
  destruct (Z.to_nat (num_shots (cfg s))) as [|n] eqn:En; [lia|].
  cbn [seq map]. eapply foldM_cons; [reflexivity|].
  rewrite <- seq_shift, map_map.
  rewrite <- (map_map S Z.of_nat), seq_shift.
  replace (S n - 1)%nat with n in Hout by lia.
  rewrite eval_g_knots_spec; [|exact Hs|lia|lia|rewrite length_skipn; lia].
  unfold constraint_vector. rewrite En. replace (S n - 1)%nat with n by lia.
  rewrite skipn_skipn. rewrite skipn_all2 by lia. rewrite app_nil_r.
  f_equal. f_equal. rewrite length_app, gap_blocks_length by (exact Hs || lia). lia.
Qed.

(** ** Dimensions in closed form *)

Lemma constraint_dim_closed_form (s : Traj) : get_constraint_dim s = spec_constraint_dim s.
Proof.
  unfold get_constraint_dim, spec_constraint_dim. destruct (loop_or_final s); ring.
Qed.

Lemma spec_flat_dim_from_whole (m : nat) : forall (a : nat) (D sl nsteps : Z) (tune : bool),
  (0 <= sl)%Z -> (Z.of_nat (a + m) * sl <= nsteps)%Z ->
  spec_flat_dim_from m (Z.of_nat a) (Z.of_nat a * sl) D sl nsteps tune
  = (Z.of_nat m * sl * D + 2 * D * Z.of_nat (free_knots tune a m))%Z.
Proof.
  induction m as [|m IH]; intros a D sl nsteps tune Hsl Hle.
  - unfold free_knots. destruct (_ || _); simpl; ring.
  - cbn [spec_flat_dim_from].
    rewrite Z.min_l by nia.
    replace (Z.of_nat a + 1)%Z with (Z.of_nat (S a)) by lia.
    replace (Z.of_nat a * sl + sl)%Z with (Z.of_nat (S a) * sl)%Z by lia.
    rewrite IH by (try exact Hsl; replace (S a + m)%nat with (a + S m)%nat by lia; exact Hle).
    assert (Hf : ((0 <? Z.of_nat a)%Z || tune) = (tune || Nat.ltb 0 a)).
    { destruct a as [|a]; [rewrite orb_false_r; reflexivity|].
      replace (0 <? Z.of_nat (S a))%Z with true by (symmetry; apply Z.ltb_lt; lia).
      rewrite orb_true_r. reflexivity. }
    rewrite Hf. unfold free_knots.
    replace (tune || Nat.ltb 0 (S a)) with true by (rewrite orb_true_r; reflexivity).
    destruct (tune || Nat.ltb 0 a).
    + rewrite !Nat2Z.inj_succ. ring.
    + change (Init.Nat.pred (S m)) with m. rewrite !Nat2Z.inj_succ. ring.
Qed.

(** For [1 <= shooting_length <= steps]: the cursor of [unflatten] ends at
    the closed form of the specification, and [get_flat_problem_dim] is
    that number less [(steps % shooting_length) * D]. *)
Lemma flat_dim_and_cursor (w : World) (nsteps slen : Z) (tune loop : bool)
    (efs : option vec) (dis : list Z) (s0 s : Traj) (x : vec) :
  __init__ w nsteps slen tune loop efs dis = Ok s0 ->
  (1 <= slen <= nsteps)%Z ->
  same_layout s s0 ->
  exists n s1 fc tc,
    get_flat_problem_dim s = Ok n /\
    unflatten_loop s x = Ok (s1, fc, tc) /\
    Z.of_nat fc = spec_flat_dim s /\
    (n + (nsteps mod slen) * Z.of_nat (getNumDofs w))%Z = spec_flat_dim s.
Proof.
  intros Hinit Hsl Hlay. pose proof Hlay as (Hc & Hl1 & Hl2 & Hl3).
  destruct (init_inv _ _ _ _ _ _ _ _ Hinit)
    as (ns & msk & n0 & Hns & _ & _ & Hc0 & _ & Htq & Hkp & Hkv & _).
  unfold py_floor_div in Hns.
  destruct (slen =? 0)%Z eqn:E0; [apply Z.eqb_eq in E0; lia|]. inversion Hns; subst ns; clear Hns.
  assert (HD : world_dofs s = getNumDofs w) by (unfold world_dofs; rewrite Hc, Hc0; reflexivity).
  assert (H1 : (1 <= nsteps / slen)%Z) by (apply Z.div_le_lower_bound; lia).
  pose proof (Z.mul_div_le nsteps slen ltac:(lia)) as H2.
  destruct (unflatten_shots_ok x (Z.to_nat (num_shots (cfg s))) 0 s 0 0)
    as ([[s1 fc] tc] & Hloop).
  { rewrite Hl2, Hkp, Hc, Hc0. cbn [num_shots length]. rewrite length_map, range_length. lia. }
  { rewrite Hl3, Hkv, Hc, Hc0. cbn [num_shots length]. rewrite length_map, range_length. lia. }
  pose proof (unflatten_shots_cursors x _ _ _ _ _ _ _ _ Hloop) as Hcur.
  cbv zeta in Hcur. rewrite Hc, Hc0, HD, Hl1, Htq in Hcur.
  cbn [shooting_length num_shots steps tune_starting_point] in Hcur.
  rewrite length_map, range_length in Hcur. rewrite Z.min_l in Hcur by lia.
  destruct Hcur as (_ & Hfc); [lia|reflexivity|simpl; rewrite !Z2Nat.id by lia; lia|].
  assert (Hspec : spec_flat_dim s
                  = (Z.of_nat (Z.to_nat (nsteps / slen)) * slen * Z.of_nat (getNumDofs w)
                     + 2 * Z.of_nat (getNumDofs w)
                       * Z.of_nat (free_knots tune 0 (Z.to_nat (nsteps / slen))))%Z).
  { unfold spec_flat_dim. rewrite HD, Hc, Hc0.
    cbn [shooting_length num_shots steps tune_starting_point]. rewrite Z.min_l by lia.
    apply (spec_flat_dim_from_whole _ 0); [lia|]. simpl. rewrite Z2Nat.id by lia. lia. }
  exists (nsteps / slen * (Z.of_nat (getNumDofs w) * 2 + slen * Z.of_nat (getNumDofs w))
          - (if tune then 0 else 2 * Z.of_nat (getNumDofs w))
          - nsteps mod slen * Z.of_nat (getNumDofs w))%Z, s1, fc, tc.
  split; [|split; [exact Hloop|split]].
  - unfold get_flat_problem_dim, py_mod. rewrite Hc, Hc0, HD.
    cbn [shooting_length num_shots steps tune_starting_point]. rewrite Z.min_l by lia.
    rewrite E0. cbn [rbind]. f_equal. destruct tune; cbn [negb]; ring.
  - rewrite Hspec, Hfc. change (Z.of_nat 0) with 0%Z. ring.
  - rewrite Hspec. unfold free_knots. simpl Nat.ltb. rewrite orb_false_r.
    destruct tune.
    + rewrite Z2Nat.id by lia. ring.
    + replace (Z.of_nat (Init.Nat.pred (Z.to_nat (nsteps / slen))))
        with (nsteps / slen - 1)%Z by lia.
      rewrite Z2Nat.id by lia. ring.
Qed.

(** When [steps] is a multiple of [shooting_length], the three numbers agree. *)
Lemma flat_dim_when_divisible (w : World) (nsteps slen : Z) (tune loop : bool)
    (efs : option vec) (dis : list Z) (s0 s : Traj) (x : vec) :
  __init__ w nsteps slen tune loop efs dis = Ok s0 ->
  (1 <= slen <= nsteps)%Z -> (nsteps mod slen = 0)%Z ->
  same_layout s s0 ->
  get_flat_problem_dim s = Ok (spec_flat_dim s) /\
  unflatten_cursor s x = Ok (Z.to_nat (spec_flat_dim s)).
Proof.
  intros Hinit Hsl Hmod Hlay.
  destruct (flat_dim_and_cursor _ _ _ _ _ _ _ _ _ x Hinit Hsl Hlay)
    as (n & s1 & fc & tc & Hn & Hloop & Hfc & Hgap).
  rewrite Hmod in Hgap. split.
  - rewrite Hn. f_equal. lia.
  - unfold unflatten_cursor. rewrite Hloop. cbn [rbind fst snd]. f_equal. lia.
Qed.

(** For [1 <= shooting_length <= steps] the constructor does give at least
    one segment and non-empty lists. *)
Lemma init_num_shots_positive (w : World) (nsteps slen : Z) (tune loop : bool)
    (efs : option vec) (dis : list Z) (s0 : Traj) :
  __init__ w nsteps slen tune loop efs dis = Ok s0 ->
  (1 <= slen <= nsteps)%Z ->
  (1 <= num_shots (cfg s0))%Z /\ shooting_length (cfg s0) = slen /\
  knot_poses s0 <> [] /\ knot_vels s0 <> [] /\ torques s0 <> [].
Proof.
  intros Hinit Hsl.
  destruct (init_inv _ _ _ _ _ _ _ _ Hinit)
    as (ns & msk & n0 & Hns & _ & _ & Hc0 & _ & Htq & Hkp & Hkv & _).
  unfold py_floor_div in Hns.
  destruct (slen =? 0)%Z eqn:E0; [apply Z.eqb_eq in E0; lia|]. inversion Hns; subst ns; clear Hns.
  rewrite Hc0, Hkp, Hkv, Htq. cbn [num_shots shooting_length].
  split; [apply Z.div_le_lower_bound; lia|]. split; [apply Z.min_l; lia|].
  split; [discriminate|]. split; [discriminate|].
  unfold range. destruct (Z.to_nat nsteps) eqn:E; [lia|]. discriminate.
Qed.

(** ** Counting the values of the Jacobian *)

Lemma jac_put_cursor (v : float) (st st' : jac_state) :
  jac_put v st = Ok st' -> snd st' = S (snd st).
Proof.
  destruct st as [out c]. unfold jac_put. intros H.
  apply rbind_ok in H. destruct H as (o & _ & H). inversion H. reflexivity.
Qed.

Lemma foldM_cursor {X : Type} (f : X -> jac_state -> res jac_state) (k : nat) (l : list X) :
  (forall x st st', f x st = Ok st' -> snd st' = (snd st + k)%nat) ->
  forall st st', foldM f l st = Ok st' -> snd st' = (snd st + length l * k)%nat.
Proof.
  intros Hf. induction l as [|x l IH]; intros st st' H; simpl in H.
  - inversion H. simpl. lia.
  - apply rbind_ok in H. destruct H as (st1 & H1 & H2).
    apply Hf in H1. apply IH in H2. simpl. lia.
Qed.

Lemma jac_put_block_cursor (A : matrix) (rows cols : nat) (st st' : jac_state) :
  jac_put_block A rows cols st = Ok st' -> snd st' = (snd st + rows * cols)%nat.
Proof.
  intros H. unfold jac_put_block in H.
  apply (foldM_cursor _ cols) in H.
  - unfold nrange in H. rewrite length_seq in H. exact H.
  - intros row st0 st1 H0. apply (foldM_cursor _ 1) in H0.
    + unfold nrange in H0. rewrite length_seq in H0. lia.
    + intros col st2 st3 H3. apply jac_put_cursor in H3. lia.
Qed.

Lemma insertNegativeIdentity_cursor (D : nat) (st st' : jac_state) :
  insertNegativeIdentity D st = Ok st' -> snd st' = (snd st + 2 * D)%nat.
Proof.
  intros H. unfold insertNegativeIdentity in H. apply (foldM_cursor _ 1) in H.
  - unfold nrange in H. rewrite length_seq in H. lia.
  - intros x st0 st1 H0. apply jac_put_cursor in H0. lia.
Qed.

Lemma jac_step_cursor (s : Traj) (i : Z) (st st' : accumulators * jac_state) :
  jac_step s i st = Ok st' ->
  snd (snd st') = (snd (snd st) + 2 * (world_dofs s * world_dofs s))%nat.
Proof.
  destruct st as [[[[a b] c] d] out]. unfold jac_step. intros H.
  apply rbind_ok in H. destruct H as (sn & _ & H).
  apply rbind_ok in H. destruct H as (snap & _ & H).
  apply rbind_ok in H. destruct H as (o1 & H1 & H).
  apply rbind_ok in H. destruct H as (o2 & H2 & H).
  inversion H; subst st'; clear H. cbn [snd].
  apply jac_put_block_cursor in H1, H2. lia.
Qed.

Lemma foldM_jac_step_cursor (s : Traj) (l : list Z) : forall st st',
  foldM (jac_step s) l st = Ok st' ->
  snd (snd st') = (snd (snd st) + length l * (2 * (world_dofs s * world_dofs s)))%nat.
Proof.
  induction l as [|x l IH]; intros st st' H; simpl in H.
  - inversion H. simpl. lia.
  - apply rbind_ok in H. destruct H as (st1 & H1 & H2).
    apply jac_step_cursor in H1. apply IH in H2. simpl. lia.
Qed.

Lemma range2_length (a b : Z) : length (range2 a b) = Z.to_nat (b - a).
Proof. unfold range2. rewrite length_map, length_seq. reflexivity. Qed.

Lemma insertFullJacobian_cursor (s : Traj) (k : Z) (pp : bool) (st st' : jac_state) :
  insertFullJacobian s k pp st = Ok st' ->
  snd st' = (snd st + full_jacobian_count s pp)%nat.
Proof.
  unfold insertFullJacobian. intros H.
  apply rbind_ok in H. destruct H as ([[[[a b] c] d] st1] & H1 & H).
  apply foldM_jac_step_cursor in H1. cbn [snd] in H1.
  rewrite length_rev, range2_length in H1.
  replace ((k + 1) * shooting_length (cfg s) - k * shooting_length (cfg s))%Z
    with (shooting_length (cfg s)) in H1 by ring.
  unfold full_jacobian_count. destruct pp.
  - apply rbind_ok in H. destruct H as (st2 & H2 & H3).
    apply jac_put_block_cursor in H2, H3. nia.
  - inversion H; subst st'. lia.
Qed.

Lemma jac_knots_cursor (s : Traj) (m : nat) : forall a st st',
  (1 <= a)%nat ->
  foldM (jac_knot s) (map Z.of_nat (seq a m)) st = Ok st' ->
  snd st' = (snd st
             + list_sum (map (fun i => full_jacobian_count s
                                         (Nat.ltb 1 i || tune_starting_point (cfg s))
                                       + 2 * world_dofs s)
                             (seq a m)))%nat.
Proof.
  induction m as [|m IH]; intros a st st' Ha H; cbn [seq map foldM] in H.
  - inversion H. simpl. lia.
  - apply rbind_ok in H. destruct H as (st1 & H1 & H2).
    apply IH in H2; [|lia]. unfold jac_knot in H1.
    replace (Z.of_nat a =? 0)%Z with false in H1 by (symmetry; apply Z.eqb_neq; lia).
    apply rbind_ok in H1. destruct H1 as (st2 & H3 & H4).
    apply insertFullJacobian_cursor in H3. apply insertNegativeIdentity_cursor in H4.
    replace (1 <? Z.of_nat a)%Z with (Nat.ltb 1 a) in H3.
    + cbn [seq map]. unfold list_sum in *. cbn [fold_right]. lia.
    + destruct (Nat.ltb 1 a) eqn:E.
      * apply Nat.ltb_lt in E. symmetry. apply Z.ltb_lt. lia.
      * apply Nat.ltb_ge in E. symmetry. apply Z.ltb_ge. lia.
Qed.

(** What [eval_jac_g] writes, counted. *)
Lemma eval_jac_g_fill_cursor (s : Traj) (out out' : vec) (c : nat) :
  (1 <= num_shots (cfg s))%Z ->
  eval_jac_g_fill s out = Ok (out', c) -> c = jac_values_count s.
Proof.
  intros Hns H. unfold eval_jac_g_fill in H.
  apply rbind_ok in H. destruct H as (st1 & H1 & H2).
  rewrite range_shots in H2.
  destruct (Z.to_nat (num_shots (cfg s))) as [|n] eqn:En; [lia|].
  cbn [seq map foldM] in H2. unfold jac_knot at 1 in H2. cbn [Z.of_nat Z.eqb rbind] in H2.
  rewrite <- seq_shift, map_map in H2. rewrite <- (map_map S Z.of_nat), seq_shift in H2.
  apply jac_knots_cursor in H2; [|lia]. cbn [snd] in H2.
  unfold jac_values_count. rewrite En. replace (S n - 1)%nat with n by lia.
  rewrite H2. f_equal. clear H2.
  destruct (loop_or_final s).
  - apply rbind_ok in H1. destruct H1 as (st2 & H3 & H4).
    apply insertFullJacobian_cursor in H3. cbn [snd] in H3.
    destruct (tune_starting_point (cfg s) && enforce_loop (cfg s)).
    + apply insertNegativeIdentity_cursor in H4. lia.
    + inversion H4; subst. lia.
  - inversion H1. reflexivity.
Qed.

(** ** Counting the entries of the sparsity pattern *)

Lemma adds_sp_append (r c a b : Z) : adds 1 (sp_append (Some r) (Some c) a b).
Proof.
  intros [row col]. eexists. split; [reflexivity|]. cbn [fst snd].
  rewrite !length_app. simpl. auto.
Qed.

Lemma adds_foldM {X : Type} (f : X -> idx_state -> res idx_state) (k : nat) (l : list X) :
  (forall x, adds k (f x)) -> adds (length l * k) (foldM f l).
Proof.
  intros Hf. induction l as [|x l IH]; intros st.
  - exists st. simpl. auto.
  - destruct (Hf x st) as (st1 & H1 & L1 & L2).
    destruct (IH st1) as (st2 & H2 & L3 & L4).
    exists st2. split; [eapply foldM_cons; eauto|]. simpl. lia.
Qed.

Lemma adds_ext (k k' : nat) (f : idx_state -> res idx_state) :
  adds k f -> k = k' -> adds k' f.
Proof. intros H <-. exact H. Qed.

Lemma adds_skip : adds 0 (fun st => Ok st).
Proof. intros st. exists st. auto. Qed.

Lemma adds_seq (k1 k2 : nat) (f g : idx_state -> res idx_state) :
  adds k1 f -> adds k2 g -> adds (k1 + k2) (fun st => rbind (f st) g).
Proof.
  intros Hf Hg st. destruct (Hf st) as (st1 & H1 & L1 & L2).
  destruct (Hg st1) as (st2 & H2 & L3 & L4).
  exists st2. rewrite H1. cbn [rbind]. split; [exact H2|lia].
Qed.

Lemma adds_sp_insertNegativeIdentity (D : nat) (r c : Z) :
  adds (2 * D) (sp_insertNegativeIdentity (Z.of_nat D) (Some r) (Some c)).
Proof.
  unfold sp_insertNegativeIdentity. eapply adds_ext.
  - apply adds_foldM. intros i. apply adds_sp_append.
  - rewrite range_length. lia.
Qed.

Lemma adds_sp_insertPhasePhaseJacobian (D : nat) (r c : Z) :
  adds (4 * (D * D)) (sp_insertPhasePhaseJacobian (Z.of_nat D) (Some r) (Some c)).
Proof.
  unfold sp_insertPhasePhaseJacobian. eapply adds_ext.
  - apply adds_foldM. intros i. apply adds_foldM. intros j. apply adds_sp_append.
  - rewrite !range_length. nia.
Qed.

Lemma adds_sp_insertTorquePhaseJacobian (D : nat) (r c : Z) :
  adds (2 * (D * D)) (sp_insertTorquePhaseJacobian (Z.of_nat D) (Some r) (Some c)).
Proof.
  unfold sp_insertTorquePhaseJacobian. eapply adds_ext.
  - apply adds_foldM. intros i. apply adds_foldM. intros j. apply adds_sp_append.
  - rewrite !range_length. nia.
Qed.

(** The loop of lines 648-652 runs all its [k] iterations when the last
    torque column is below [n]. *)
Lemma torque_jac_locations_all (k : nat) : forall (c D n : Z),
  (1 <= D)%Z -> (c + Z.of_nat k * D < n + D)%Z ->
  torque_jac_locations k (Some c) D n
  = Ok (map (fun j => Some (c + Z.of_nat j * D)%Z) (seq 0 k)).
Proof.
  induction k as [|k IH]; intros c D n HD Hlt; [reflexivity|].
  cbn [torque_jac_locations py_add rbind].
  destruct (n <=? c + D)%Z eqn:E.
  - apply Z.leb_le in E. assert (k = O) by nia. subst k. simpl.
    rewrite Z.add_0_r. reflexivity.
  - apply Z.leb_gt in E. rewrite IH by nia. cbn [rbind seq map].
    rewrite Z.mul_0_l, Z.add_0_r. f_equal. f_equal.
    rewrite <- seq_shift, map_map. apply map_ext. intros j. f_equal. lia.
Qed.

Lemma adds_foldM_Forall {X : Type} (f : X -> idx_state -> res idx_state) (k : nat)
    (l : list X) :
  Forall (fun x => adds k (f x)) l -> adds (length l * k) (foldM f l).
Proof.
  induction 1 as [|x l Hx Hl IH]; intros st.
  - exists st. simpl. auto.
  - destruct (Hx st) as (st1 & H1 & L1 & L2).
    destruct (IH st1) as (st2 & H2 & L3 & L4).
    exists st2. split; [eapply foldM_cons; eauto|]. simpl. lia.
Qed.

Lemma adds_sp_insertFullJacobian (s : Traj) (n r c : Z) (pp : bool) :
  (1 <= world_dofs s)%nat ->
  (0 <= shooting_length (cfg s))%Z ->
  (c + (if pp then 2 * Z.of_nat (world_dofs s) else 0)
   + shooting_length (cfg s) * Z.of_nat (world_dofs s) < n + Z.of_nat (world_dofs s))%Z ->
  adds (full_jacobian_count s pp) (sp_insertFullJacobian s n (Some r) (Some c) pp).
Proof.
  intros HD Hsl Hlt st. unfold sp_insertFullJacobian.
  set (D := world_dofs s) in *.
  set (c0 := (c + (if pp then 2 * Z.of_nat D else 0))%Z).
  assert (Hc0 : (if pp then rbind (py_add (Some c) (Z.of_nat D * 2)) (fun c1 => Ok (Some c1))
                 else Ok (Some c)) = Ok (Some c0)).
  { unfold c0. destruct pp; cbn [py_add rbind]; do 2 f_equal; lia. }
  rewrite Hc0. cbn [rbind].
  rewrite torque_jac_locations_all
    by (try lia; unfold c0; rewrite Z2Nat.id by lia; lia).
  cbn [rbind].
  assert (Ht : adds (Z.to_nat (shooting_length (cfg s)) * (2 * (D * D)))
                 (foldM (fun cursor => sp_insertTorquePhaseJacobian (Z.of_nat D) (Some r) cursor)
                    (rev (map (fun j => Some (c0 + Z.of_nat j * Z.of_nat D)%Z)
                            (seq 0 (Z.to_nat (shooting_length (cfg s)))))))).
  { eapply adds_ext.
    - apply adds_foldM_Forall. apply Forall_rev. apply Forall_map. apply Forall_forall.
      intros j _. apply adds_sp_insertTorquePhaseJacobian.
    - rewrite length_rev, length_map, length_seq. reflexivity. }
  destruct (Ht st) as (st1 & H1 & L1 & L2). rewrite H1. cbn [rbind].
  unfold full_jacobian_count. fold D. destruct pp.
  - destruct (adds_sp_insertPhasePhaseJacobian D r c st1) as (st2 & H2 & L3 & L4).
    exists st2. split; [exact H2|lia].
  - exists st1. split; [reflexivity|lia].
Qed.

Lemma free_knots_succ (tune : bool) (i : nat) :
  free_knots tune 0 (S i) = (free_knots tune 0 i + if tune || Nat.ltb 0 i then 1 else 0)%nat.
Proof. unfold free_knots. destruct tune, i; simpl; lia. Qed.

Lemma fold_x_offsets (tune : bool) (D sl len : Z)
    (step : list (option Z) * Z * Z -> Z -> list (option Z) * Z * Z) :
  (forall acc fc tc i,
     step (acc, fc, tc) (Z.of_nat i)
     = (acc ++ [if tune || Nat.ltb 0 i then Some fc else None],
        ((if tune || Nat.ltb 0 i then fc + D * 2 else fc) + Z.min sl (len - tc) * D)%Z,
        (tc + Z.min sl (len - tc))%Z)) ->
  (0 <= sl)%Z ->
  forall m a acc,
    (Z.of_nat (a + m) * sl <= len)%Z ->
    fst (fst (fold_left step (map Z.of_nat (seq a m))
                (acc, (Z.of_nat a * sl * D + 2 * D * Z.of_nat (free_knots tune 0 a))%Z,
                 (Z.of_nat a * sl)%Z)))
    = acc ++ map (knot_x_offset tune D sl) (seq a m).
Proof.
  intros Hstep Hsl. induction m as [|m IH]; intros a acc Hlen.
  - simpl. rewrite app_nil_r. reflexivity.
  - cbn [seq map fold_left]. rewrite Hstep.
    rewrite Z.min_l by nia.
    replace ((if tune || Nat.ltb 0 a
              then Z.of_nat a * sl * D + 2 * D * Z.of_nat (free_knots tune 0 a) + D * 2
              else Z.of_nat a * sl * D + 2 * D * Z.of_nat (free_knots tune 0 a)) + sl * D)%Z
      with (Z.of_nat (S a) * sl * D + 2 * D * Z.of_nat (free_knots tune 0 (S a)))%Z.
    + replace (Z.of_nat a * sl + sl)%Z with (Z.of_nat (S a) * sl)%Z by lia.
      rewrite IH by (replace (S a + m)%nat with (a + S m)%nat by lia; exact Hlen).
      rewrite <- app_assoc. reflexivity.
    + rewrite free_knots_succ. destruct (tune || Nat.ltb 0 a); lia.
Qed.

Lemma get_knot_x_offsets_spec (s : Traj) :
  (0 <= shooting_length (cfg s))%Z ->
  (num_shots (cfg s) * shooting_length (cfg s) <= Z.of_nat (length (torques s)))%Z ->
  (0 <= num_shots (cfg s))%Z ->
  get_knot_x_offsets s
  = map (knot_x_offset (tune_starting_point (cfg s)) (Z.of_nat (world_dofs s))
           (shooting_length (cfg s)))
        (seq 0 (Z.to_nat (num_shots (cfg s)))).
Proof.
  intros Hsl Hlen Hns. unfold get_knot_x_offsets. rewrite range_shots.
  match goal with
  | |- fst (fst (fold_left ?f _ _)) = _ =>
      pose proof (fold_x_offsets (tune_starting_point (cfg s)) (Z.of_nat (world_dofs s))
                    (shooting_length (cfg s)) (Z.of_nat (length (torques s))) f) as H
  end.
  assert (H0 : (Z.of_nat 0 * shooting_length (cfg s) * Z.of_nat (world_dofs s)
                + 2 * Z.of_nat (world_dofs s)
                  * Z.of_nat (free_knots (tune_starting_point (cfg s)) 0 0))%Z = 0%Z).
  { unfold free_knots. destruct (tune_starting_point (cfg s)); simpl; lia. }
  specialize (fun Hstep => H Hstep Hsl (Z.to_nat (num_shots (cfg s))) O []).
  rewrite H0 in H. apply H.
  - intros acc fc tc i.
    assert (Hf : ((0 <? Z.of_nat i)%Z || tune_starting_point (cfg s))
                 = (tune_starting_point (cfg s) || Nat.ltb 0 i)).
    { destruct i as [|i]; [rewrite orb_false_r; reflexivity|].
      replace (0 <? Z.of_nat (S i))%Z with true by (symmetry; apply Z.ltb_lt; lia).
      rewrite orb_true_r. reflexivity. }
    cbv beta iota. rewrite Hf.
    destruct (tune_starting_point (cfg s) || Nat.ltb 0 i); reflexivity.
  - simpl. rewrite Z2Nat.id by lia. exact Hlen.
Qed.

Lemma fold_g_offsets (D : Z) (step : list (option Z) * Z -> Z -> list (option Z) * Z) :
  (forall acc fc i,
     step (acc, fc) (Z.of_nat i)
     = if Nat.ltb 0 i then (acc ++ [Some fc], (fc + D * 2)%Z) else (acc ++ [None], fc)) ->
  forall m a acc fc,
    (1 <= a)%nat ->
    fst (fold_left step (map Z.of_nat (seq a m)) (acc, fc))
    = acc ++ map (fun i => Some (fc + (Z.of_nat i - Z.of_nat a) * (D * 2))%Z) (seq a m).
Proof.
  intros Hstep. induction m as [|m IH]; intros a acc fc Ha.
  - simpl. rewrite app_nil_r. reflexivity.
  - cbn [seq map fold_left]. rewrite Hstep.
    replace (Nat.ltb 0 a) with true by (symmetry; apply Nat.ltb_lt; lia).
    rewrite IH by lia. rewrite <- app_assoc. cbn [app]. f_equal. f_equal.
    + f_equal. lia.
    + apply map_ext. intros i. f_equal. lia.
Qed.

Lemma get_knot_g_offsets_spec (s : Traj) :
  get_knot_g_offsets s
  = map (knot_g_offset (loop_or_final s) (Z.of_nat (world_dofs s)))
        (seq 0 (Z.to_nat (num_shots (cfg s)))).
Proof.
  unfold get_knot_g_offsets. rewrite range_shots.
  destruct (Z.to_nat (num_shots (cfg s))) as [|n]; [reflexivity|].
  cbn [seq map fold_left]. cbn [Z.of_nat Z.ltb Z.compare app].
  rewrite <- seq_shift, map_map. rewrite <- (map_map S Z.of_nat), seq_shift.
  match goal with
  | |- fst (fold_left ?f _ _) = _ =>
      rewrite (fold_g_offsets (Z.of_nat (world_dofs s)) f)
  end.
  - cbn [app]. unfold knot_g_offset at 1. cbn [Nat.ltb Nat.leb]. f_equal.
    apply map_ext_in. intros i Hi. apply in_seq in Hi. unfold knot_g_offset.
    replace (Nat.ltb 0 i) with true by (symmetry; apply Nat.ltb_lt; lia).
    reflexivity.
  - intros acc fc i. cbv beta iota.
    destruct i as [|i]; [reflexivity|].
    replace (0 <? Z.of_nat (S i))%Z with true by (symmetry; apply Z.ltb_lt; lia).
    reflexivity.
  - lia.
Qed.

Lemma adds_foldM_sum {X : Type} (f : X -> idx_state -> res idx_state) (k : X -> nat)
    (l : list X) :
  Forall (fun x => adds (k x) (f x)) l -> adds (list_sum (map k l)) (foldM f l).
Proof.
  induction 1 as [|x l Hx Hl IH]; intros st.
  - exists st. simpl. auto.
  - destruct (Hx st) as (st1 & H1 & L1 & L2).
    destruct (IH st1) as (st2 & H2 & L3 & L4).
    exists st2. split; [eapply foldM_cons; eauto|].
    cbn [map]. unfold list_sum in *. cbn [fold_right]. lia.
Qed.

Lemma free_knots_mono (tune : bool) (i j : nat) :
  (i <= j)%nat -> (free_knots tune 0 i <= free_knots tune 0 j)%nat.
Proof. unfold free_knots. destruct tune; simpl; lia. Qed.

Lemma knot_x_offset_free (tune : bool) (D sl : Z) (i : nat) :
  tune || Nat.ltb 0 i = true ->
  knot_x_offset tune D sl i
  = Some (Z.of_nat i * sl * D + 2 * D * Z.of_nat (free_knots tune 0 i))%Z.
Proof. intros H. unfold knot_x_offset. rewrite H. reflexivity. Qed.

Section Pattern.
Variable s : Traj.
Let D := world_dofs s.
Let sl := shooting_length (cfg s).
Let N := Z.to_nat (num_shots (cfg s)).
Let tune := tune_starting_point (cfg s).
Let F (i : nat) : Z :=
  (Z.of_nat i * sl * Z.of_nat D + 2 * Z.of_nat D * Z.of_nat (free_knots tune 0 i))%Z.

Hypothesis HD : (1 <= D)%nat.
Hypothesis Hsl : (1 <= sl)%Z.
Hypothesis HN : (1 <= num_shots (cfg s))%Z.
Hypothesis Hlen : (num_shots (cfg s) * sl <= Z.of_nat (length (torques s)))%Z.

Lemma F_step (i j : nat) : (i < j)%nat -> (F i + sl * Z.of_nat D <= F j)%Z.
Proof.
  intros Hij. unfold F. pose proof (free_knots_mono tune i j ltac:(lia)).
  assert (0 <= sl * Z.of_nat D)%Z by nia.
  assert (Z.of_nat i * sl * Z.of_nat D + sl * Z.of_nat D
          <= Z.of_nat j * sl * Z.of_nat D)%Z by nia.
  nia.
Qed.

Lemma F_succ (i : nat) :
  F (S i) = (F i + (if tune || Nat.ltb 0 i then 2 * Z.of_nat D else 0) + sl * Z.of_nat D)%Z.
Proof. unfold F. rewrite free_knots_succ. destruct (tune || Nat.ltb 0 i); lia. Qed.

Lemma x_offsets_nth (i : nat) :
  (i < N)%nat ->
  py_get (get_knot_x_offsets s) (Z.of_nat i) = Ok (knot_x_offset tune (Z.of_nat D) sl i).
Proof.
  intros Hi. rewrite get_knot_x_offsets_spec by (fold sl; lia).
  rewrite py_get_nat, nth_error_map, nth_error_seq.
  replace (Nat.ltb i (Z.to_nat (num_shots (cfg s)))) with true
    by (symmetry; apply Nat.ltb_lt; exact Hi).
  reflexivity.
Qed.

Lemma g_offsets_nth (i : nat) :
  (i < N)%nat ->
  py_get (get_knot_g_offsets s) (Z.of_nat i)
  = Ok (knot_g_offset (loop_or_final s) (Z.of_nat D) i).
Proof.
  intros Hi. rewrite get_knot_g_offsets_spec.
  rewrite py_get_nat, nth_error_map, nth_error_seq.
  replace (Nat.ltb i (Z.to_nat (num_shots (cfg s)))) with true
    by (symmetry; apply Nat.ltb_lt; exact Hi).
  reflexivity.
Qed.

(** One iteration of the loop over the knots of the pattern generator. *)
Lemma adds_sp_knot (i : nat) :
  (1 <= i < N)%nat ->
  adds (full_jacobian_count s (Nat.ltb 1 i || tune) + 2 * D)
       (sp_knot s (F N) (get_knot_x_offsets s) (get_knot_g_offsets s) (Z.of_nat i)).
Proof.
  intros Hi. unfold sp_knot.
  replace (Z.of_nat i =? 0)%Z with false by (symmetry; apply Z.eqb_neq; lia).
  replace (Z.of_nat i - 1)%Z with (Z.of_nat (i - 1)) by lia.
  rewrite (x_offsets_nth (i - 1)), (x_offsets_nth i), (g_offsets_nth i) by lia.
  cbn [rbind].
  assert (Hg : knot_g_offset (loop_or_final s) (Z.of_nat D) i
               = Some ((if loop_or_final s then Z.of_nat D * 2 else 0)
                       + (Z.of_nat i - 1) * (Z.of_nat D * 2))%Z).
  { unfold knot_g_offset.
    replace (Nat.ltb 0 i) with true by (symmetry; apply Nat.ltb_lt; lia). reflexivity. }
  rewrite Hg. rewrite (knot_x_offset_free tune _ _ i)
    by (replace (Nat.ltb 0 i) with true by (symmetry; apply Nat.ltb_lt; lia);
        apply orb_true_r).
  fold (F i).
  assert (Hpp : (tune || Nat.ltb 0 (i - 1)) = (Nat.ltb 1 i || tune)).
  { rewrite orb_comm. f_equal. destruct (Nat.ltb 1 i) eqn:E.
    - apply Nat.ltb_lt in E. apply Nat.ltb_lt. lia.
    - apply Nat.ltb_ge in E. apply Nat.ltb_ge. lia. }
  pose proof (F_step i N ltac:(lia)) as HFi.
  pose proof (F_succ (i - 1)) as HFs. replace (S (i - 1)) with i in HFs by lia.
  unfold knot_x_offset. fold (F (i - 1)). rewrite Hpp in *.
  assert (Hpos : (0 <= sl * Z.of_nat D)%Z) by nia.
  destruct (Nat.ltb 1 i || tune) eqn:Epp.
  - cbn [rbind]. apply adds_seq.
    + apply adds_sp_insertFullJacobian; fold D sl; try lia.
    + apply adds_sp_insertNegativeIdentity.
  - cbn [rbind]. apply adds_seq.
    + apply adds_sp_insertFullJacobian; fold D sl; try lia.
      assert (i = 1%nat).
      { apply orb_false_iff in Epp. destruct Epp as [E _]. apply Nat.ltb_ge in E. lia. }
      subst i. assert (F 0 = 0%Z).
      { unfold F, free_knots. destruct tune; simpl; lia. }
      change (1 - 1)%nat with 0%nat in HFs. lia.
    + apply adds_sp_insertNegativeIdentity.
Qed.

(** The pattern has as many entries as [eval_jac_g] writes values. *)
Lemma sparsity_indices_count :
  get_flat_problem_dim s = Ok (F N) ->
  (loop_or_final s = true -> (2 <= N)%nat \/ tune = true) ->
  exists rows cols,
    get_jac_g_sparsity_indices s = Ok (rows, cols) /\
    length rows = jac_values_count s /\ length cols = jac_values_count s.
Proof.
  intros Hn Hlof. unfold get_jac_g_sparsity_indices. rewrite Hn. cbn [rbind].
  assert (H1 : adds (if loop_or_final s
                     then full_jacobian_count s true
                          + (if tune && enforce_loop (cfg s) then 2 * D else 0)
                     else 0)%nat
                 (fun st : idx_state =>
                    if loop_or_final s then
                      rbind (py_get (get_knot_x_offsets s)
                               (Z.of_nat (length (get_knot_x_offsets s)) - 1)) (fun last =>
                      rbind (sp_insertFullJacobian s (F N) (Some 0%Z) last true st) (fun st =>
                      rbind (py_get (get_knot_x_offsets s) 0) (fun first =>
                      match first with
                      | None => rbind (rassert (negb tune)) (fun _ => Ok st)
                      | Some _ =>
                          if enforce_loop (cfg s)
                          then sp_insertNegativeIdentity (Z.of_nat D) (Some 0%Z) first st
                          else Ok st
                      end)))
                    else Ok st)).
  { destruct (loop_or_final s) eqn:El; [|apply adds_skip].
    specialize (Hlof eq_refl).
    assert (HlenX : length (get_knot_x_offsets s) = N).
    { rewrite get_knot_x_offsets_spec by (fold sl; lia). rewrite length_map, length_seq.
      reflexivity. }
    rewrite HlenX. replace (Z.of_nat N - 1)%Z with (Z.of_nat (N - 1)) by (unfold N; lia).
    rewrite (x_offsets_nth (N - 1)) by (unfold N; lia).
    change 0%Z with (Z.of_nat 0) at 2. rewrite (x_offsets_nth 0) by (unfold N; lia).
    rewrite (knot_x_offset_free tune _ _ (N - 1)).
    2:{ destruct Hlof as [H|H]; [|rewrite H; reflexivity].
        replace (Nat.ltb 0 (N - 1)) with true by (symmetry; apply Nat.ltb_lt; lia).
        apply orb_true_r. }
    fold (F (N - 1)).
    pose proof (F_succ (N - 1)) as HFs. replace (S (N - 1)) with N in HFs by (unfold N; lia).
    assert (Hfree : tune || Nat.ltb 0 (N - 1) = true).
    { destruct Hlof as [H|H]; [|rewrite H; reflexivity].
      replace (Nat.ltb 0 (N - 1)) with true by (symmetry; apply Nat.ltb_lt; lia).
      apply orb_true_r. }
    rewrite Hfree in HFs.
    intros st. cbn [rbind].
    destruct (adds_sp_insertFullJacobian s (F N) 0 (F (N - 1)) true HD ltac:(fold sl; lia)
                ltac:(fold D sl; lia) st) as (st1 & E1 & L1 & L2).
    rewrite E1. cbn [rbind].
    unfold knot_x_offset. cbn [Nat.ltb Nat.leb]. rewrite orb_false_r.
    destruct tune eqn:Et; cbn [andb negb rassert rbind].
    - destruct (enforce_loop (cfg s)).
      + destruct (adds_sp_insertNegativeIdentity D 0
                    (Z.of_nat 0 * sl * Z.of_nat D
                     + 2 * Z.of_nat D * Z.of_nat (free_knots true 0 0)) st1)
          as (st2 & E2 & L3 & L4).
        exists st2. split; [exact E2|lia].
      + exists st1. split; [reflexivity|lia].
    - exists st1. split; [reflexivity|lia]. }
  destruct (H1 ([], [])) as (st1 & E1 & L1 & L2).
  assert (H2 : adds (list_sum (map (fun i => full_jacobian_count s (Nat.ltb 1 i || tune) + 2 * D)
                                 (seq 1 (N - 1)))%nat)
                 (foldM (sp_knot s (F N) (get_knot_x_offsets s) (get_knot_g_offsets s))
                    (map Z.of_nat (seq 1 (N - 1))))).
  { pose proof (adds_foldM_sum
                  (fun i => sp_knot s (F N) (get_knot_x_offsets s) (get_knot_g_offsets s)
                              (Z.of_nat i))
                  (fun i => full_jacobian_count s (Nat.ltb 1 i || tune) + 2 * D)%nat
                  (seq 1 (N - 1))) as H.
    assert (Hm : forall (l : list nat) st,
               foldM (sp_knot s (F N) (get_knot_x_offsets s) (get_knot_g_offsets s))
                 (map Z.of_nat l) st
               = foldM (fun i => sp_knot s (F N) (get_knot_x_offsets s) (get_knot_g_offsets s)
                                   (Z.of_nat i)) l st).
    { induction l as [|a l IHl]; intros st; [reflexivity|].
      cbn [map foldM]. destruct (sp_knot _ _ _ _ _ st); [apply IHl|reflexivity]. }
    intros st. rewrite Hm. apply H. apply Forall_forall. intros i Hi.
    apply in_seq in Hi. apply adds_sp_knot. unfold N in *. lia. }
  destruct (H2 st1) as (st2 & E2 & L3 & L4).
  exists (fst st2), (snd st2). split.
  - eapply rbind_intro; [exact E1|].
    rewrite range_shots. fold N.
    destruct N as [|n] eqn:En; [unfold N in En; lia|].
    replace (S n - 1)%nat with n in E2 by lia.
    cbn [seq map]. eapply foldM_cons; [reflexivity|].
    rewrite <- surjective_pairing. exact E2.
  - unfold jac_values_count. fold D tune N. cbn [fst snd length] in L1, L2. lia.
Qed.

End Pattern.

Lemma spec_flat_dim_closed (s : Traj) :
  (0 <= shooting_length (cfg s))%Z ->
  (0 <= num_shots (cfg s))%Z ->
  (num_shots (cfg s) * shooting_length (cfg s) <= steps (cfg s))%Z ->
  spec_flat_dim s
  = (Z.of_nat (Z.to_nat (num_shots (cfg s))) * shooting_length (cfg s) * Z.of_nat (world_dofs s)
     + 2 * Z.of_nat (world_dofs s)
       * Z.of_nat (free_knots (tune_starting_point (cfg s)) 0 (Z.to_nat (num_shots (cfg s)))))%Z.
Proof.
  intros Hsl Hns Hle. unfold spec_flat_dim.
  apply (spec_flat_dim_from_whole _ 0); [exact Hsl|]. simpl. rewrite Z2Nat.id by lia. exact Hle.
Qed.

(** X1.  When [steps] is a multiple of [shooting_length >= 1], there is at least
    one degree of freedom, and the loop or terminal block (if any) has a
    start phase to refer to (two segments or more, or a tunable start):
    [get_jac_g_sparsity_indices] returns row and column lists of the same
    length [jac_values_count], and whenever the value assembler of
    [eval_jac_g] runs through, it has written exactly that many values. *)
Theorem sparsity_pattern_has_one_entry_per_value (w : World) (nsteps slen : Z)
    (tune loop : bool) (efs : option vec) (dis : list Z) (s0 s : Traj) :
  __init__ w nsteps slen tune loop efs dis = Ok s0 ->
  (1 <= slen <= nsteps)%Z -> (nsteps mod slen = 0)%Z ->
  (1 <= getNumDofs w)%nat ->
  same_layout s s0 ->
  (loop_or_final s = true -> (2 <= num_shots (cfg s))%Z \/ tune = true) ->
  (exists rows cols,
     get_jac_g_sparsity_indices s = Ok (rows, cols) /\
     length rows = jac_values_count s /\ length cols = jac_values_count s) /\
  (forall out out' c, eval_jac_g_fill s out = Ok (out', c) -> c = jac_values_count s).
Proof.
  intros Hinit Hsl Hmod HD Hlay Hlof. pose proof Hlay as (Hc & Hl1 & Hl2 & Hl3).
  destruct (init_inv _ _ _ _ _ _ _ _ Hinit)
    as (ns & msk & n0 & Hns & _ & _ & Hc0 & _ & Htq & _).
  unfold py_floor_div in Hns.
  destruct (slen =? 0)%Z eqn:E0; [apply Z.eqb_eq in E0; lia|]. inversion Hns; subst ns; clear Hns.
  assert (HD' : world_dofs s = getNumDofs w) by (unfold world_dofs; rewrite Hc, Hc0; reflexivity).
  assert (H1 : (1 <= nsteps / slen)%Z) by (apply Z.div_le_lower_bound; lia).
  pose proof (Z.mul_div_le nsteps slen ltac:(lia)) as H2.
  assert (Hsl' : shooting_length (cfg s) = slen).
  { rewrite Hc, Hc0. cbn [shooting_length]. apply Z.min_l. lia. }
  assert (Hns' : num_shots (cfg s) = (nsteps / slen)%Z) by (rewrite Hc, Hc0; reflexivity).
  assert (Hst : steps (cfg s) = nsteps) by (rewrite Hc, Hc0; reflexivity).
  assert (Htl : length (torques s) = Z.to_nat nsteps).
  { rewrite Hl1, Htq, length_map, range_length. reflexivity. }
  split.
  - apply sparsity_indices_count.
    + lia.
    + lia.
    + lia.
    + rewrite Hns', Hsl', Htl. lia.
    + destruct (flat_dim_when_divisible _ _ _ _ _ _ _ _ _ [] Hinit Hsl Hmod Hlay) as (Hn & _).
      rewrite Hn. f_equal. apply spec_flat_dim_closed; rewrite ?Hns', ?Hsl', ?Hst; lia.
    + intros Hl. destruct (Hlof Hl) as [H|H]; [left; lia|right].
      rewrite Hc, Hc0. exact H.
  - intros out out' c Hfill. eapply eval_jac_g_fill_cursor; [|exact Hfill]. lia.
Qed.

(** The theorem on the two-segment object with loop closure. *)
Lemma sparsity_pattern_has_one_entry_per_value_witness :
  let s := StandIn.object (__init__ StandIn.world1 4 2 false true None []) in
  (exists rows cols,
     get_jac_g_sparsity_indices s = Ok (rows, cols) /\
     length rows = jac_values_count s /\ length cols = jac_values_count s) /\
  (forall out out' c, eval_jac_g_fill s out = Ok (out', c) -> c = jac_values_count s).
Proof.
  intro s.
  apply (sparsity_pattern_has_one_entry_per_value StandIn.world1 4 2 false true None [] s s).
  - vm_compute. reflexivity.
  - lia.
  - reflexivity.
  - simpl. lia.
  - unfold same_layout. auto.
  - intros _. left. vm_compute. intro H. discriminate H.
Defined.

(** ** Methods that return *)

Lemma wp_bind {A B : Type} (c : M A) (k : A -> M B) (Q : B -> Traj -> Prop) (s : Traj) :
  wp c (fun a s' => wp (k a) Q s') s -> wp (mbind c k) Q s.
Proof. unfold wp, mbind. destruct (c s); auto. Qed.

Lemma wp_ret {A : Type} (a : A) (Q : A -> Traj -> Prop) (s : Traj) : Q a s -> wp (mret a) Q s.
Proof. auto. Qed.

Lemma wp_lift {A : Type} (r : res A) (a : A) (Q : A -> Traj -> Prop) (s : Traj) :
  r = Ok a -> Q a s -> wp (lift r) Q s.
Proof. intros -> H. exact H. Qed.

Lemma wp_get_self (Q : Traj -> Traj -> Prop) (s : Traj) : Q s s -> wp get_self Q s.
Proof. auto. Qed.

Lemma wp_modify (f : Traj -> Traj) (Q : unit -> Traj -> Prop) (s : Traj) :
  Q tt (f s) -> wp (modify f) Q s.
Proof. auto. Qed.

Lemma wp_massert (b : bool) (Q : unit -> Traj -> Prop) (s : Traj) :
  b = true -> Q tt s -> wp (massert b) Q s.
Proof. intros -> H. exact H. Qed.

Lemma wp_weaken {A : Type} (c : M A) (Q R : A -> Traj -> Prop) (s : Traj) :
  wp c Q s -> (forall a s', Q a s' -> R a s') -> wp c R s.
Proof. unfold wp. destruct (c s); auto. Qed.

Lemma wp_returns {A : Type} (c : M A) (Q : A -> Traj -> Prop) (s : Traj) :
  wp c Q s -> exists a s', c s = Return a s' /\ Q a s'.
Proof. unfold wp. destruct (c s) as [a s'|]; [eauto|tauto]. Qed.

Lemma wp_of_returns {A : Type} (c : M A) (Q : A -> Traj -> Prop) (s : Traj) a s' :
  c s = Return a s' -> Q a s' -> wp c Q s.
Proof. unfold wp. intros ->. auto. Qed.

Lemma wp_mfold {X S : Type} (f : X -> S -> M S) (J : list X -> S -> Traj -> Prop) :
  (forall x rest acc s, J (x :: rest) acc s -> wp (f x acc) (J rest) s) ->
  forall l acc s, J l acc s -> wp (mfold f l acc) (J []) s.
Proof.
  intros Hf. induction l as [|x l IH]; intros acc s HJ.
  - exact HJ.
  - simpl. apply wp_bind. eapply wp_weaken; [apply Hf; exact HJ|].
    intros a s' Ha. apply IH. exact Ha.
Qed.

Lemma only_prints_refl (s : Traj) : only_prints s s.
Proof. unfold only_prints. repeat split. Qed.

Lemma only_prints_print (l : line) (s s' : Traj) : only_prints s s' -> only_prints s (print l s').
Proof. intros H. exact H. Qed.

Lemma wp_mprint (l : line) (Q : unit -> Traj -> Prop) (s : Traj) :
  Q tt (print l s) -> wp (mprint l) Q s.
Proof. auto. Qed.

Ltac wp_go :=
  repeat first
    [ apply wp_ret
    | apply wp_bind; first [ apply wp_get_self | apply wp_modify | apply wp_mprint ]; cbv beta
    | apply wp_modify
    | apply wp_mprint ].

Ltac wp_lift H := apply wp_bind; eapply wp_lift; [exact H|]; cbv beta.

(** ** Shapes *)

Lemma broadcast2_same_length (f : float -> float -> float) (a b : vec) :
  length a = length b ->
  broadcast2 f a b = Ok (map (fun p => f (fst p) (snd p)) (combine a b)).
Proof. intros H. unfold broadcast2. rewrite H, Nat.eqb_refl. reflexivity. Qed.

Lemma mul_mask_same_length (t : vec) (msk : list Z) :
  length t = length msk ->
  exists r, mul_mask t msk = Ok r /\ length r = length t.
Proof.
  intros H. unfold mul_mask. rewrite broadcast2_same_length by (rewrite length_map; exact H).
  eexists. split; [reflexivity|]. rewrite length_map, length_combine, length_map. lia.
Qed.

Lemma barrier_same_length (torch_exp : float -> float) (torch_norm : vec -> float)
    (a b c d : vec) (k : float) :
  length a = length b -> length c = length d ->
  exists r, barrier torch_exp torch_norm a b c d k = Ok r.
Proof.
  intros H1 H2. unfold barrier. rewrite (vsub_same_length a b H1), (vsub_same_length c d H2).
  eexists. reflexivity.
Qed.

Lemma py_get_in_range {A : Type} (l : list A) (i : Z) :
  (0 <= i < Z.of_nat (length l))%Z ->
  exists a, py_get l i = Ok a /\ nth_error l (Z.to_nat i) = Some a.
Proof.
  intros H. unfold py_get.
  destruct (i <? 0)%Z eqn:E; [apply Z.ltb_lt in E; lia|]. rewrite E. simpl.
  destruct (Z.of_nat (length l) <=? i)%Z eqn:E2; [apply Z.leb_le in E2; lia|].
  destruct (nth_error l (Z.to_nat i)) as [a|] eqn:E3; [eauto|].
  apply nth_error_None in E3. lia.
Qed.

Lemma py_set_in_range {A : Type} (l : list A) (i : Z) (v : A) :
  (0 <= i < Z.of_nat (length l))%Z -> py_set l i v = Ok (list_set l (Z.to_nat i) v).
Proof.
  intros H. unfold py_set.
  destruct (i <? 0)%Z eqn:E; [apply Z.ltb_lt in E; lia|]. rewrite E. simpl.
  destruct (Z.of_nat (length l) <=? i)%Z eqn:E2; [apply Z.leb_le in E2; lia|]. reflexivity.
Qed.

Lemma Forall_list_set {A : Type} (P : A -> Prop) (l : list A) (k : nat) (v : A) :
  Forall P l -> P v -> Forall P (list_set l k v).
Proof.
  intros Hl Hv. revert k. induction Hl as [|a l Ha Hl IH]; intros k; simpl; [constructor|].
  destruct k; constructor; auto.
Qed.

Lemma well_shaped_frame (s s' : Traj) :
  well_shaped s -> same_vars s s' ->
  length (last_preknot_poses s') = length (last_preknot_poses s) ->
  length (last_preknot_vels s') = length (last_preknot_vels s) ->
  length (snapshots s') = length (snapshots s) ->
  Forall (fun v => length v = world_dofs s) (last_preknot_poses s') ->
  Forall (fun v => length v = world_dofs s) (last_preknot_vels s') ->
  well_shaped s'.
Proof.
  intros W (Hc & Ht & Hp & Hv & Hx) H1 H2 H3 H4 H5. destruct W as
    [Wsl Wns Wst Wtq Wkp Wkv Wpp Wpv Wsn Wmk Wtd Wkpd Wkvd Wppd Wpvd Wlx Wfs].
  assert (HD : world_dofs s' = world_dofs s) by (unfold world_dofs; rewrite Hc; reflexivity).
  constructor; unfold get_flat_problem_dim;
    rewrite ?HD, ?Hc, ?Ht, ?Hp, ?Hv, ?Hx, ?H1, ?H2, ?H3; auto.
Qed.

Section RolloutReturns.
Variable step_loss : vec -> vec -> vec -> World -> float.
Variable final_loss : vec -> vec -> World -> float.
Variable dart_layer : World -> vec -> vec -> vec -> vec * vec * BackpropSnapshot.
Variable torch_exp : float -> float.
Variable torch_norm : vec -> float.

(** The collaborators as the rollout calls them: callables that return. *)
Local Abbreviation step_cost := (returning4 step_loss).
Local Abbreviation final_cost := (returning3 final_loss).
Local Abbreviation engine := (returning4 dart_layer).

(** What a knot point does to a well-shaped object: it returns the knot's
    state and records the state before it. *)
Lemma wp_unroll_knot (i : Z) (pos vel : vec) (kl : float) (s : Traj) :
  well_shaped s ->
  (0 < i < steps (cfg s))%Z ->
  length pos = world_dofs s -> length vel = world_dofs s ->
  wp (unroll_knot torch_exp torch_norm i pos vel kl)
     (fun r s' =>
        length (fst (fst r)) = world_dofs s /\ length (snd (fst r)) = world_dofs s /\
        same_vars s s' /\ well_shaped s' /\
        snapshots s' = snapshots s /\ calls s' = calls s) s.
Proof.
  intros W Hi Hpos Hvel. pose proof W as W'. destruct W' as
    [Wsl Wns Wst Wtq Wkp Wkv Wpp Wpv Wsn Wmk Wtd Wkpd Wkvd Wppd Wpvd Wlx Wfs].
  set (sl := shooting_length (cfg s)) in *. set (N := num_shots (cfg s)) in *.
  assert (Hk : (0 <= i / sl < N)%Z).
  { split; [apply Z.div_pos; lia|]. apply Z.div_lt_upper_bound; [lia|]. lia. }
  assert (Hdiv : py_floor_div i sl = Ok (i / sl)%Z).
  { unfold py_floor_div. destruct (sl =? 0)%Z eqn:E; [apply Z.eqb_eq in E; lia|reflexivity]. }
  destruct (py_get_in_range (knot_poses s) (i / sl)) as (kp & Hkp & Hkp'); [lia|].
  destruct (py_get_in_range (knot_vels s) (i / sl)) as (kv & Hkv & Hkv'); [lia|].
  pose proof (Forall_nth_error _ _ _ _ Wkpd Hkp') as Lkp.
  pose proof (Forall_nth_error _ _ _ _ Wkvd Hkv') as Lkv.
  cbv beta in Lkp, Lkv.
  destruct (barrier_same_length torch_exp torch_norm (data kp) pos (data kv) vel
              (soft_knot_barrier_strength (cfg s))) as (b & Hb); [lia|lia|].
  unfold unroll_knot. fold sl.
  apply wp_bind, wp_get_self; cbv beta. fold sl.
  wp_lift Hdiv. wp_lift Hkp. wp_lift Hkv. wp_lift Hb.
  apply wp_bind. eapply wp_lift; [apply py_set_in_range; lia|]. cbv beta.
  apply wp_bind, wp_modify; cbv beta.
  apply wp_bind. eapply wp_lift; [apply py_set_in_range; simpl; lia|]. cbv beta.
  apply wp_bind, wp_modify; cbv beta.
  apply wp_bind with (Q := fun r s' => _).
  match goal with
  | |- wp (when ?c _) _ ?s1 =>
      apply (wp_weaken _ (fun _ s' => only_prints s1 s'));
        [destruct c; simpl; [apply only_prints_print|]; apply only_prints_refl|]
  end.
  intros _ s' (E1 & E2 & E3 & E4 & E5 & E6 & E7 & E8 & E9 & E10 & E11 & E12).
  simpl in E1, E2, E3, E4, E5, E6, E8, E9, E12.
  apply wp_ret. cbn [fst snd].
  assert (V : same_vars s s') by (unfold same_vars; auto).
  split; [lia|]. split; [lia|]. split; [exact V|]. split; [|split; assumption].
  apply (well_shaped_frame s s' W V).
  - rewrite E8, list_set_length. reflexivity.
  - rewrite E9, list_set_length. reflexivity.
  - rewrite E6. reflexivity.
  - rewrite E8. apply Forall_list_set; assumption.
  - rewrite E9. apply Forall_list_set; assumption.
Qed.

Lemma wp_call_step_loss (pos vel t : vec) (Q : float -> Traj -> Prop) (s : Traj) :
  Q (step_loss pos vel t (world (cfg s))) (record_call (CallStepLoss pos vel t) s) ->
  wp (call_step_loss step_cost pos vel t) Q s.
Proof. auto. Qed.

Lemma wp_call_dart_layer (pos vel t : vec) (Q : vec * vec * BackpropSnapshot -> Traj -> Prop)
    (s : Traj) :
  Q (dart_layer (world (cfg s)) pos vel t) (record_call (CallDartLayer pos vel t) s) ->
  wp (call_dart_layer engine pos vel t) Q s.
Proof. auto. Qed.

Lemma wp_call_final_loss (pos vel : vec) (Q : float -> Traj -> Prop) (s : Traj) :
  Q (final_loss pos vel (world (cfg s))) (record_call (CallFinalLoss pos vel) s) ->
  wp (call_final_loss final_cost pos vel) Q s.
Proof. auto. Qed.

(** One step of the rollout on a well-shaped object returns: it makes its
    external calls, stores the snapshot of step [i], and keeps the shapes. *)
Lemma wp_unroll_step (use_knots after_step : bool) (i : Z) (pos vel : vec) (loss kl : float)
    (s : Traj) :
  well_shaped s -> engine_ok dart_layer s ->
  (0 <= i < steps (cfg s))%Z ->
  length pos = world_dofs s -> length vel = world_dofs s ->
  wp (unroll_step step_cost engine torch_exp torch_norm use_knots after_step i
        (pos, vel, loss, kl))
     (fun r s' =>
        length (fst (fst (fst r))) = world_dofs s /\ length (snd (fst (fst r))) = world_dofs s /\
        same_vars s s' /\ well_shaped s' /\
        length (calls s') = (length (calls s) + calls_per_step after_step)%nat /\
        (forall j, j <> Z.to_nat i -> nth_error (snapshots s') j = nth_error (snapshots s) j) /\
        (exists b, nth_error (snapshots s') (Z.to_nat i) = Some (Some b))) s.
Proof.
  intros W HE Hi Hpos Hvel. pose proof W as W'. destruct W' as
    [Wsl Wns Wst Wtq Wkp Wkv Wpp Wpv Wsn Wmk Wtd Wkpd Wkvd Wppd Wpvd Wlx Wfs].
  destruct (py_get_in_range (torques s) i) as (tq & Htq & Htq'); [lia|].
  pose proof (Forall_nth_error _ _ _ _ Wtd Htq') as Ltq. cbv beta in Ltq.
  destruct (mul_mask_same_length (data tq) (mask (cfg s))) as (t & Ht & Lt); [lia|].
  assert (Hmod : py_mod i (shooting_length (cfg s)) = Ok (i mod shooting_length (cfg s))%Z).
  { unfold py_mod. destruct (_ =? 0)%Z eqn:E; [apply Z.eqb_eq in E; lia|reflexivity]. }
  unfold unroll_step.
  apply wp_bind, wp_get_self; cbv beta.
  wp_lift Htq. wp_lift Ht. wp_lift Hmod.
  apply wp_bind.
  apply (wp_weaken _ (fun r s' =>
           length (fst (fst r)) = world_dofs s /\ length (snd (fst r)) = world_dofs s /\
           same_vars s s' /\ well_shaped s' /\
           snapshots s' = snapshots s /\ calls s' = calls s)).
  { destruct (_ && _ && _) eqn:C.
    - apply wp_unroll_knot; try assumption.
      apply andb_prop in C. destruct C as (C & _). apply andb_prop in C. destruct C as (_ & C).
      apply Z.ltb_lt in C. lia.
    - apply wp_ret. cbn [fst snd]. repeat split; auto using same_vars_refl. }
  intros [[pos1 vel1] kl1] s1 (Lp1 & Lv1 & V1 & W1 & Sn1 & C1). cbn [fst snd] in Lp1, Lv1.
  apply wp_bind, wp_call_step_loss; cbv beta.
  apply wp_bind, wp_call_dart_layer; cbv beta.
  assert (Hc1 : cfg s1 = cfg s) by apply V1.
  cbn [cfg record_call]. rewrite Hc1.
  destruct (HE pos1 vel1 t Lp1 Lv1 ltac:(lia)) as (Lnp & Lnv).
  destruct (dart_layer (world (cfg s)) pos1 vel1 t) as [[next_pos next_vel] snapshot].
  cbn [fst snd] in Lnp, Lnv.
  apply wp_bind, wp_get_self; cbv beta.
  apply wp_bind. eapply wp_lift.
  { apply py_set_in_range. cbn [snapshots record_call]. rewrite Sn1. lia. }
  cbv beta. apply wp_bind, wp_modify; cbv beta.
  apply wp_bind with (Q := fun r s' => _).
  match goal with
  | |- wp (when ?c _) _ ?s2 =>
      apply (wp_weaken _ (fun _ s' => only_prints s2 s'));
        [destruct c; simpl; [repeat apply only_prints_print|]; apply only_prints_refl|]
  end.
  intros _ s3 (E1 & E2 & E3 & E4 & E5 & E6 & E7 & E8 & E9 & E10 & E11 & E12).
  cbn [cfg torques knot_poses knot_vels last_x snapshots last_preknot_poses last_preknot_vels
       calls set_snapshots record_call] in E1, E2, E3, E4, E5, E6, E8, E9, E12.
  apply wp_bind with (Q := fun r s' => _).
  apply (wp_weaken _ (fun _ s' =>
           cfg s' = cfg s3 /\ torques s' = torques s3 /\ knot_poses s' = knot_poses s3 /\
           knot_vels s' = knot_vels s3 /\ last_x s' = last_x s3 /\
           snapshots s' = snapshots s3 /\
           last_preknot_poses s' = last_preknot_poses s3 /\
           last_preknot_vels s' = last_preknot_vels s3 /\
           length (calls s') = (length (calls s3) + (calls_per_step after_step - 2))%nat)).
  { destruct after_step; simpl.
    - apply wp_modify. repeat split; auto. simpl. rewrite length_app. reflexivity.
    - apply wp_ret. repeat split; auto. }
  intros _ s4 (F1 & F2 & F3 & F4 & F5 & F6 & F8 & F9 & F12).
  apply wp_ret. cbn [fst snd].
  destruct V1 as (V1c & V1t & V1p & V1v & V1x).
  assert (V : same_vars s s4).
  { unfold same_vars. rewrite F1, F2, F3, F4, F5, E1, E2, E3, E4, E5. auto. }
  split; [exact Lnp|]. split; [exact Lnv|]. split; [exact V|]. split; [|split; [|split]].
  - assert (HD1 : world_dofs s1 = world_dofs s) by (unfold world_dofs; rewrite Hc1; reflexivity).
    apply (well_shaped_frame s s4 W V).
    + rewrite F8, E8, (ws_preknot_poses _ W1), Hc1. lia.
    + rewrite F9, E9, (ws_preknot_vels _ W1), Hc1. lia.
    + rewrite F6, E6, list_set_length, Sn1. reflexivity.
    + rewrite F8, E8, <- HD1. apply (ws_preknot_poses_data _ W1).
    + rewrite F9, E9, <- HD1. apply (ws_preknot_vels_data _ W1).
  - rewrite F12, E12, !length_app, C1. simpl. destruct after_step; simpl; lia.
  - intros j Hj. rewrite F6, E6, nth_error_list_set, Sn1.
    destruct (Nat.eqb (Z.to_nat i) j) eqn:E; [apply Nat.eqb_eq in E; congruence|reflexivity].
  - exists snapshot. rewrite F6, E6, nth_error_list_set, Nat.eqb_refl, Sn1.
    replace (Nat.ltb (Z.to_nat i) (length (snapshots s))) with true; [reflexivity|].
    symmetry. apply Nat.ltb_lt. lia.
Qed.

(** A rollout of a well-shaped object returns, whatever the decision
    variables hold: every step stores its snapshot, the terminal state is
    recorded, and nothing but the rollout's records changes. *)
Lemma wp_unroll (use_knots after_step : bool) (s : Traj) :
  well_shaped s -> engine_ok dart_layer s ->
  wp (unroll step_cost final_cost engine torch_exp torch_norm use_knots after_step)
     (fun r s' =>
        same_vars s s' /\ well_shaped s' /\
        length (last_terminal_pos s') = world_dofs s /\
        length (last_terminal_vel s') = world_dofs s /\
        last_loss s' = fst r /\
        length (calls s')
        = (length (calls s) + Z.to_nat (steps (cfg s)) * calls_per_step after_step + 1)%nat /\
        (forall j, (j < Z.to_nat (steps (cfg s)))%nat ->
                   exists b, nth_error (snapshots s') j = Some (Some b))) s.
Proof.
  intros W HE. pose proof W as W'. destruct W' as
    [Wsl Wns Wst Wtq Wkp Wkv Wpp Wpv Wsn Wmk Wtd Wkpd Wkvd Wppd Wpvd Wlx Wfs].
  destruct (py_get_in_range (knot_poses s) 0) as (kp & Hkp & Hkp'); [lia|].
  destruct (py_get_in_range (knot_vels s) 0) as (kv & Hkv & Hkv'); [lia|].
  pose proof (Forall_nth_error _ _ _ _ Wkpd Hkp') as Lkp.
  pose proof (Forall_nth_error _ _ _ _ Wkvd Hkv') as Lkv.
  cbv beta in Lkp, Lkv.
  set (n := Z.to_nat (steps (cfg s))).
  set (J := fun (rest : list Z) (r : roll_state) (s1 : Traj) =>
              exists a, rest = map Z.of_nat (seq a (n - a)) /\ (a <= n)%nat /\
                length (fst (fst (fst r))) = world_dofs s /\
                length (snd (fst (fst r))) = world_dofs s /\
                same_vars s s1 /\ well_shaped s1 /\
                length (calls s1) = (length (calls s) + a * calls_per_step after_step)%nat /\
                (forall j, (j < a)%nat -> exists b, nth_error (snapshots s1) j = Some (Some b))).
  unfold unroll.
  apply wp_bind, wp_get_self; cbv beta.
  wp_lift Hkp. wp_lift Hkv.
  apply wp_bind.
  apply (wp_weaken _ (J [])).
  { apply wp_mfold.
    - intros x rest [[[pos vel] loss] kl] s1 (a & Hl & Ha & Lp & Lv & V1 & W1 & C1 & S1).
      cbn [fst snd] in Lp, Lv.
      destruct (n - a)%nat as [|m] eqn:Em; [discriminate|].
      cbn [seq map] in Hl. inversion Hl; subst x rest; clear Hl.
      assert (Hc1 : cfg s1 = cfg s) by apply V1.
      assert (HD1 : world_dofs s1 = world_dofs s) by (unfold world_dofs; rewrite Hc1; reflexivity).
      eapply wp_weaken.
      + apply wp_unroll_step.
        * exact W1.
        * intros p v t. unfold engine_ok in HE. rewrite Hc1, HD1. apply HE.
        * rewrite Hc1. fold n. lia.
        * rewrite HD1. exact Lp.
        * rewrite HD1. exact Lv.
      + intros [[[pos' vel'] loss'] kl'] s2 (Lp' & Lv' & V2 & W2 & C2 & S2 & S2').
        cbn [fst snd] in Lp', Lv' |- *. rewrite HD1 in Lp', Lv'. rewrite Nat2Z.id in S2, S2'.
        exists (S a). split; [f_equal; f_equal; lia|]. split; [lia|].
        split; [exact Lp'|]. split; [exact Lv'|].
        split; [eapply same_vars_trans; eauto|]. split; [exact W2|]. split.
        * rewrite C2, C1. simpl. lia.
        * intros j Hj. destruct (Nat.eq_dec j a) as [->|Hne]; [exact S2'|].
          rewrite S2 by exact Hne. apply S1. lia.
    - exists 0%nat. cbn [fst snd]. rewrite Nat.sub_0_r.
      split; [reflexivity|]. split; [lia|]. split; [exact Lkp|]. split; [exact Lkv|].
      split; [apply same_vars_refl|]. split; [exact W|]. split; [simpl; lia|].
      intros j Hj. lia. }
  intros [[[pos vel] loss] kl] s1 (a & Hl & Ha & Lp & Lv & V1 & W1 & C1 & S1).
  cbn [fst snd] in Lp, Lv.
  assert (a = n).
  { destruct (n - a)%nat eqn:E; [lia|discriminate]. }
  subst a. clear Hl Ha.
  assert (Hc1 : cfg s1 = cfg s) by apply V1.
  destruct V1 as (_ & V1t & V1p & V1v & V1x).
  apply wp_bind, wp_call_final_loss; cbv beta.
  apply wp_bind, wp_modify; cbv beta.
  apply wp_bind, wp_get_self; cbv beta.
  change (world_dofs (set_last_terminal pos vel (record_call (CallFinalLoss pos vel) s1)))
    with (getNumDofs (world (cfg s1))).
  cbn [cfg knot_poses knot_vels set_last_terminal record_call].
  rewrite Hc1, V1p, V1v.
  apply wp_bind.
  apply (wp_weaken _ (fun _ s' => s' = set_last_terminal pos vel
                                        (record_call (CallFinalLoss pos vel) s1))).
  { destruct (enforce_loop (cfg s)).
    - wp_lift Hkp. wp_lift Hkv.
      destruct (barrier_same_length torch_exp torch_norm pos (data kp) vel (data kv)
                  (soft_knot_barrier_strength (cfg s))) as (b & Hb); [lia|lia|].
      wp_lift Hb. apply wp_ret. reflexivity.
    - apply wp_ret. reflexivity. }
  intros kl1 s2 ->.
  apply wp_bind.
  apply (wp_weaken _ (fun _ s' => s' = set_last_terminal pos vel
                                        (record_call (CallFinalLoss pos vel) s1))).
  { destruct (enforce_final_state (cfg s)) as [final|].
    - destruct (barrier_same_length torch_exp torch_norm pos
                  (py_slice final 0 (getNumDofs (world (cfg s)))) vel
                  (py_slice_from final (getNumDofs (world (cfg s))))
                  (soft_knot_barrier_strength (cfg s))) as (b & Hb).
      + unfold py_slice. rewrite length_firstn, length_skipn. unfold world_dofs in *. lia.
      + unfold py_slice_from. rewrite length_skipn. unfold world_dofs in *. lia.
      + wp_lift Hb. apply wp_ret. reflexivity.
    - apply wp_ret. reflexivity. }
  intros kl2 s2 ->.
  apply wp_bind, wp_modify; cbv beta. apply wp_ret.
  cbn [fst last_terminal_pos last_terminal_vel last_loss calls set_last_loss set_last_terminal
       record_call].
  assert (V : same_vars s (set_last_loss
                (add_float32 loss (final_loss pos vel (world (cfg s))))
                (set_last_terminal pos vel (record_call (CallFinalLoss pos vel) s1)))).
  { unfold same_vars. simpl. auto. }
  split; [exact V|]. split; [|split; [exact Lp|split; [exact Lv|split; [reflexivity|split]]]].
  - assert (HD1 : world_dofs s1 = world_dofs s) by (unfold world_dofs; rewrite Hc1; reflexivity).
    apply (well_shaped_frame s _ W V); simpl.
    + rewrite (ws_preknot_poses _ W1), Hc1. lia.
    + rewrite (ws_preknot_vels _ W1), Hc1. lia.
    + rewrite (ws_snapshots _ W1), Hc1. lia.
    + rewrite <- HD1. apply (ws_preknot_poses_data _ W1).
    + rewrite <- HD1. apply (ws_preknot_vels_data _ W1).
  - rewrite length_app, C1. simpl. lia.
  - intros j Hj. simpl. apply S1. exact Hj.
Qed.

End RolloutReturns.

(** ** What decoding leaves alone *)

Lemma foldM_preserves {X S : Type} (R : S -> S -> Prop) (f : X -> S -> res S) :
  (forall s, R s s) -> (forall a b c, R a b -> R b c -> R a c) ->
  (forall x s s1, f x s = Ok s1 -> R s s1) ->
  forall l s s', foldM f l s = Ok s' -> R s s'.
Proof.
  intros Hrefl Htrans Hf. induction l as [|x l IH]; intros s s' H; simpl in H.
  - inversion H; subst. apply Hrefl.
  - apply rbind_ok in H. destruct H as (s1 & H1 & H2).
    eapply Htrans; [eapply Hf; exact H1|apply IH; exact H2].
Qed.

Lemma same_records_refl (s : Traj) : same_records s s.
Proof. unfold same_records. repeat split. Qed.

Lemma same_records_trans (a b c : Traj) :
  same_records a b -> same_records b c -> same_records a c.
Proof.
  unfold same_records. intros (A1 & A2 & A3 & A4 & A5 & A6 & A7 & A8 & A9 & A10)
    (B1 & B2 & B3 & B4 & B5 & B6 & B7 & B8 & B9 & B10).
  rewrite B1, B2, B3, B4, B5, B6, B7, B8, B9, B10. repeat split; assumption.
Qed.

Lemma same_grads_refl (l : list Tensor) : same_grads l l.
Proof. split; reflexivity. Qed.

Lemma same_grads_trans (a b c : list Tensor) : same_grads a b -> same_grads b c -> same_grads a c.
Proof. intros (A1 & A2) (B1 & B2). split; congruence. Qed.

Lemma map_list_set_same {A B : Type} (g : A -> B) (l : list A) (k : nat) (t v : A) :
  nth_error l k = Some t -> g v = g t -> map g (list_set l k v) = map g l.
Proof.
  revert k. induction l as [|a l IH]; intros [|k] H E; simpl in *; try discriminate.
  - inversion H; subst. rewrite E. reflexivity.
  - rewrite (IH k H E). reflexivity.
Qed.

(** [l[i].data = v] replaces one tensor's values and nothing else. *)
Lemma set_tensor_data_spec (l l' : list Tensor) (i : Z) (v : vec) :
  set_tensor_data l i v = Ok l' ->
  exists k t, py_index (length l) i = Some k /\ nth_error l k = Some t /\
              l' = list_set l k (set_data v t).
Proof.
  unfold set_tensor_data. intros H. apply rbind_ok in H. destruct H as (t & Hg & Hs).
  apply py_get_index in Hg. destruct Hg as (k & Hk & Ht).
  apply py_set_index in Hs. destruct Hs as (k' & Hk' & ->).
  rewrite Hk in Hk'. inversion Hk'; subst k'. eauto.
Qed.

Lemma set_tensor_data_grads (l l' : list Tensor) (i : Z) (v : vec) :
  set_tensor_data l i v = Ok l' -> same_grads l l'.
Proof.
  intros H. apply set_tensor_data_spec in H. destruct H as (k & t & _ & Ht & ->).
  split; apply (map_list_set_same _ _ _ t); auto.
Qed.

Lemma set_tensor_data_shaped (l l' : list Tensor) (i : Z) (v : vec) (D : nat) :
  set_tensor_data l i v = Ok l' -> length v = D ->
  Forall (fun t => length (data t) = D) l -> Forall (fun t => length (data t) = D) l'.
Proof.
  intros H Hv Hl. apply set_tensor_data_spec in H. destruct H as (k & t & _ & Ht & ->).
  apply Forall_list_set; [exact Hl|exact Hv].
Qed.

Lemma set_tensor_data_first (l l' : list Tensor) (i : Z) (v : vec) :
  set_tensor_data l i v = Ok l' -> (0 < i)%Z -> nth_error l' 0 = nth_error l 0.
Proof.
  intros H Hi. apply set_tensor_data_spec in H. destruct H as (k & t & Hk & Ht & ->).
  rewrite nth_error_list_set. destruct (Nat.eqb k 0) eqn:E; [|reflexivity].
  apply Nat.eqb_eq in E. subst k. unfold py_index in Hk.
  destruct (i <? 0)%Z eqn:E1; [apply Z.ltb_lt in E1; lia|].
  destruct (_ || _); [discriminate|]. inversion Hk. lia.
Qed.

Lemma py_slice_length (x : vec) (c D : nat) :
  (c + D <= length x)%nat -> length (py_slice x c (c + D)) = D.
Proof. intros H. unfold py_slice. rewrite length_firstn, length_skipn. lia. Qed.

Section DecodeFrame.
Variable x : vec.

Lemma decodes_refl (st : unflat_state) : decodes x st st.
Proof.
  destruct st as [[su fc] tc]. unfold decodes.
  split; [apply same_records_refl|]. split; [apply same_grads_refl|].
  split; [apply same_grads_refl|]. split; [apply same_grads_refl|].
  split; [auto|]. split; [lia|auto].
Qed.

Lemma decodes_trans (a b c : unflat_state) : decodes x a b -> decodes x b c -> decodes x a c.
Proof.
  destruct a as [[sa fa] ta], b as [[sb fb] tb], c as [[sc fc] tc]. unfold decodes.
  intros (A1 & A2 & A3 & A4 & A5 & A6 & A7) (B1 & B2 & B3 & B4 & B5 & B6 & B7).
  assert (Hc : cfg sb = cfg sa) by apply A1.
  split; [eapply same_records_trans; eauto|].
  split; [eapply same_grads_trans; eauto|].
  split; [eapply same_grads_trans; eauto|].
  split; [eapply same_grads_trans; eauto|].
  split; [|split; [lia|]].
  - intros Ht. destruct (A5 Ht) as (E1 & E2).
    rewrite Hc in B5. destruct (B5 Ht) as (E3 & E4). split; congruence.
  - intros Hle Hs. apply B7; [exact Hle|]. apply A7; [lia|exact Hs].
Qed.

Lemma decodes_unflatten_torque (j : Z) (st st1 : unflat_state) :
  unflatten_torque x j st = Ok st1 -> decodes x st st1.
Proof.
  destruct st as [[su fc] tc], st1 as [[su1 fc1] tc1]. unfold unflatten_torque. intros H.
  apply rbind_ok in H. destruct H as (tq & Hset & H). inversion H; subst su1 fc1 tc1; clear H.
  unfold decodes. cbn [cfg torques knot_poses knot_vels set_torques].
  split; [unfold same_records; simpl; repeat split|].
  split; [eapply set_tensor_data_grads; exact Hset|].
  split; [apply same_grads_refl|]. split; [apply same_grads_refl|].
  split; [auto|]. split; [lia|].
  intros Hle (S1 & S2 & S3). unfold vars_shaped.
  change (world_dofs (set_torques tq su)) with (world_dofs su).
  cbn [torques knot_poses knot_vels set_torques].
  split; [|split; assumption].
  eapply set_tensor_data_shaped; [exact Hset| |exact S1]. apply py_slice_length. exact Hle.
Qed.

Lemma decodes_unflatten_shot (i : Z) (st st1 : unflat_state) :
  unflatten_shot x i st = Ok st1 -> decodes x st st1.
Proof.
  destruct st as [[su fc] tc]. unfold unflatten_shot. intros H.
  apply rbind_ok in H. destruct H as (st' & Hknot & Htor).
  apply (decodes_trans _ st').
  - destruct ((0 <? i)%Z || tune_starting_point (cfg su)) eqn:Efree.
    + apply rbind_ok in Hknot. destruct Hknot as (kp & Hkp & Hknot).
      apply rbind_ok in Hknot. destruct Hknot as (kv & Hkv & Hknot).
      inversion Hknot; subst st'; clear Hknot.
      cbn [knot_vels set_knot_poses] in Hkv.
      change (world_dofs (set_knot_poses kp su)) with (world_dofs su) in *.
      unfold decodes. cbn [cfg torques knot_poses knot_vels set_knot_poses set_knot_vels].
      split; [unfold same_records; simpl; repeat split|].
      split; [apply same_grads_refl|].
      split; [eapply set_tensor_data_grads; exact Hkp|].
      split; [eapply set_tensor_data_grads; exact Hkv|].
      split; [|split; [lia|]].
      * intros Ht. rewrite Ht, orb_false_r in Efree. apply Z.ltb_lt in Efree.
        split; eapply set_tensor_data_first; eauto.
      * intros Hle (S1 & S2 & S3). unfold vars_shaped.
        change (world_dofs (set_knot_vels kv (set_knot_poses kp su))) with (world_dofs su).
        cbn [torques knot_poses knot_vels set_knot_poses set_knot_vels].
        split; [exact S1|]. split.
        -- eapply set_tensor_data_shaped; [exact Hkp| |exact S2].
           apply py_slice_length. lia.
        -- eapply set_tensor_data_shaped; [exact Hkv| |exact S3].
           apply py_slice_length. lia.
    + inversion Hknot; subst st'. apply decodes_refl.
  - revert Htor. apply foldM_preserves.
    + apply decodes_refl.
    + apply decodes_trans.
    + apply decodes_unflatten_torque.
Qed.

Lemma decodes_unflatten_loop (s s1 : Traj) (fc tc : nat) :
  unflatten_loop s x = Ok (s1, fc, tc) -> decodes x (s, O, O) (s1, fc, tc).
Proof.
  unfold unflatten_loop. apply foldM_preserves.
  - apply decodes_refl.
  - apply decodes_trans.
  - apply decodes_unflatten_shot.
Qed.

End DecodeFrame.

(** ** Rollouts of a well-shaped object *)

Lemma well_shaped_flat_dim (s : Traj) :
  well_shaped s ->
  get_flat_problem_dim s
  = Ok (Z.of_nat (Z.to_nat (num_shots (cfg s))) * shooting_length (cfg s)
          * Z.of_nat (world_dofs s)
        + 2 * Z.of_nat (world_dofs s)
          * Z.of_nat (free_knots (tune_starting_point (cfg s)) 0
                        (Z.to_nat (num_shots (cfg s)))))%Z.
Proof.
  intros W. destruct W as
    [Wsl Wns Wst Wtq Wkp Wkv Wpp Wpv Wsn Wmk Wtd Wkpd Wkvd Wppd Wpvd Wlx Wfs].
  unfold get_flat_problem_dim, py_mod.
  destruct (shooting_length (cfg s) =? 0)%Z eqn:E; [apply Z.eqb_eq in E; lia|].
  cbn [rbind]. f_equal. rewrite Wst, Z.mod_mul by lia.
  unfold free_knots. simpl Nat.ltb. rewrite orb_false_r.
  rewrite Z2Nat.id by lia.
  destruct (tune_starting_point (cfg s)); cbn [negb].
  - rewrite Z2Nat.id by lia. ring.
  - replace (Z.of_nat (Init.Nat.pred (Z.to_nat (num_shots (cfg s)))))
      with (num_shots (cfg s) - 1)%Z by lia.
    ring.
Qed.

(** Decoding a vector of the flat dimension into a well-shaped object
    succeeds and gives every decision variable [world_dofs] values. *)
Lemma well_shaped_decode (s : Traj) (x : vec) :
  well_shaped s ->
  get_flat_problem_dim s = Ok (Z.of_nat (length x)) ->
  exists s1 tc,
    unflatten_loop s x = Ok (s1, length x, tc) /\
    decodes x (s, O, O) (s1, length x, tc) /\
    same_layout s1 s /\ vars_shaped s1.
Proof.
  intros W Hn.
  assert (Hlen : Z.of_nat (length x)
                 = (Z.of_nat (Z.to_nat (num_shots (cfg s))) * shooting_length (cfg s)
                      * Z.of_nat (world_dofs s)
                    + 2 * Z.of_nat (world_dofs s)
                      * Z.of_nat (free_knots (tune_starting_point (cfg s)) 0
                                    (Z.to_nat (num_shots (cfg s)))))%Z).
  { pose proof (well_shaped_flat_dim s W) as Hn'. rewrite Hn in Hn'. congruence. }
  destruct W as
    [Wsl Wns Wst Wtq Wkp Wkv Wpp Wpv Wsn Wmk Wtd Wkpd Wkvd Wppd Wpvd Wlx Wfs].
  destruct (unflatten_shots_ok x (Z.to_nat (num_shots (cfg s))) 0 s 0 0)
    as ([[s1 fc] tc] & Hloop); [simpl; lia|simpl; lia|].
  assert (Hloop' : unflatten_loop s x = Ok (s1, fc, tc)) by exact Hloop.
  pose proof (unflatten_shots_cursors x _ _ _ _ _ _ _ _ Hloop) as Hcur.
  cbv zeta in Hcur.
  destruct Hcur as (_ & Hfc); [lia|reflexivity|simpl; rewrite Wtq; lia|].
  change (Z.of_nat 0) with 0%Z in Hfc.
  assert (fc = length x) by lia. subst fc.
  pose proof (unflatten_shots_frame x _ _ _ _ _ _ _ _ Hloop) as (Hlay & _).
  pose proof (decodes_unflatten_loop x _ _ _ _ Hloop') as Hdec.
  exists s1, tc. split; [exact Hloop'|]. split; [exact Hdec|]. split; [exact Hlay|].
  destruct Hdec as (_ & _ & _ & _ & _ & _ & Hsh). apply Hsh; [lia|].
  unfold vars_shaped. auto.
Qed.

Lemma well_shaped_shapes_ok (s : Traj) :
  well_shaped s ->
  length (last_terminal_pos s) = world_dofs s ->
  length (last_terminal_vel s) = world_dofs s ->
  shapes_ok s.
Proof. intros W H1 H2. destruct W as
    [Wsl Wns Wst Wtq Wkp Wkv Wpp Wpv Wsn Wmk Wtd Wkpd Wkvd Wppd Wpvd Wlx Wfs].
  unfold shapes_ok. repeat split; assumption. Qed.

Lemma np_shapes_compatible_same_length (a b : vec) :
  length a = length b -> np_shapes_compatible a b = true.
Proof. intros H. unfold np_shapes_compatible. rewrite H, Nat.eqb_refl. reflexivity. Qed.

Section FreshRollout.
Variable step_loss : vec -> vec -> vec -> World -> float.
Variable final_loss : vec -> vec -> World -> float.
Variable dart_layer : World -> vec -> vec -> vec -> vec * vec * BackpropSnapshot.
Variable torch_exp : float -> float.
Variable torch_norm : vec -> float.

(** The collaborators as the rollout calls them: callables that return. *)
Local Abbreviation step_cost := (returning4 step_loss).
Local Abbreviation final_cost := (returning3 final_loss).
Local Abbreviation engine := (returning4 dart_layer).

(** [ensure_fresh_rollout] on a well-shaped object and an [x] of the flat
    dimension returns. *)
Lemma wp_ensure_fresh_rollout (x : vec) (s : Traj) :
  well_shaped s -> engine_ok dart_layer s ->
  length x = length (last_x s) ->
  wp (ensure_fresh_rollout step_cost final_cost engine torch_exp torch_norm x)
     (fun _ s' =>
        well_shaped s' /\ shapes_ok s' /\ cfg s' = cfg s /\ last_x s' = x /\
        (exists s1, unflatten (set_last_x x s) x = Ok s1 /\ same_vars s1 s') /\
        length (calls s') = (length (calls s) + Z.to_nat (steps (cfg s)) * 2 + 1)%nat /\
        (forall j, (j < Z.to_nat (steps (cfg s)))%nat ->
                   exists b, nth_error (snapshots s') j = Some (Some b))) s.
Proof.
  intros W HE Hx.
  assert (W0 : well_shaped (set_last_x x s)).
  { destruct W as
    [Wsl Wns Wst Wtq Wkp Wkv Wpp Wpv Wsn Wmk Wtd Wkpd Wkvd Wppd Wpvd Wlx Wfs].
  constructor; try assumption.
    change (get_flat_problem_dim (set_last_x x s)) with (get_flat_problem_dim s).
    cbn [last_x set_last_x]. rewrite Hx. assumption. }
  destruct (well_shaped_decode (set_last_x x s) x W0) as (s1 & tc & Hloop & Hdec & Hlay & Hsh).
  { apply (ws_last_x _ W0). }
  assert (Hun : unflatten (set_last_x x s) x = Ok s1).
  { unfold unflatten. rewrite Hloop. reflexivity. }
  destruct Hdec as (Hrec & _).
  destruct Hrec as (R1 & R2 & R3 & R4 & R5 & R6 & R7 & R8 & R9 & R10).
  cbn [cfg last_x snapshots last_loss last_preknot_poses last_preknot_vels last_terminal_pos
       last_terminal_vel stdout calls set_last_x] in R1, R2, R3, R4, R5, R6, R7, R8, R9, R10.
  assert (HD1 : world_dofs s1 = world_dofs s) by (unfold world_dofs; rewrite R1; reflexivity).
  assert (W1 : well_shaped s1).
  { destruct Hlay as (_ & L1 & L2 & L3). destruct Hsh as (S1 & S2 & S3).
    cbn [torques knot_poses knot_vels set_last_x] in L1, L2, L3.
    destruct W0 as
    [Wsl Wns Wst Wtq Wkp Wkv Wpp Wpv Wsn Wmk Wtd Wkpd Wkvd Wppd Wpvd Wlx Wfs].
  cbn [cfg last_x last_preknot_poses last_preknot_vels snapshots set_last_x] in *.
    change (world_dofs (set_last_x x s)) with (world_dofs s) in *.
    constructor; unfold get_flat_problem_dim in *;
      rewrite ?HD1, ?R1, ?R2, ?R3, ?R5, ?R6, ?L1, ?L2, ?L3; rewrite ?HD1 in *; assumption. }
  unfold ensure_fresh_rollout.
  apply wp_bind, wp_get_self; cbv beta.
  apply wp_bind. eapply wp_lift.
  { rewrite np_shapes_compatible_same_length by exact Hx. reflexivity. }
  cbv beta. apply wp_bind, wp_modify; cbv beta.
  apply wp_bind, wp_get_self; cbv beta.
  apply wp_bind. eapply wp_lift; [exact Hun|]. cbv beta.
  apply wp_bind, wp_modify; cbv beta.
  apply wp_bind.
  eapply wp_weaken.
  { apply wp_unroll; [exact W1|].
    intros p v t. unfold engine_ok in HE. rewrite R1, HD1. apply HE. }
  intros [loss kl] s2 (V & W2 & T1 & T2 & _ & C & S).
  apply wp_ret.
  assert (Hc2 : cfg s2 = cfg s) by (destruct V as (V1 & _); rewrite V1; exact R1).
  assert (HD2 : world_dofs s2 = world_dofs s) by (unfold world_dofs; rewrite Hc2; reflexivity).
  split; [exact W2|]. split.
  { apply well_shaped_shapes_ok; [exact W2| |]; rewrite HD2, <- HD1; assumption. }
  split; [exact Hc2|]. split.
  { destruct V as (_ & _ & _ & _ & V5). rewrite V5. exact R2. }
  split; [exists s1; split; [exact Hun|exact V]|].
  rewrite R1 in C, S. rewrite R10 in C. split; [rewrite C; simpl; lia|exact S].
Qed.

End FreshRollout.

(** ** What the constructor builds *)

(** The records of the last rollout in a fresh object. *)
Lemma init_records (w : World) (nsteps slen : Z) (tune loop : bool) (efs : option vec)
    (dis : list Z) (s0 : Traj) :
  __init__ w nsteps slen tune loop efs dis = Ok s0 ->
  snapshots s0 = repeat None (Z.to_nat nsteps) /\
  last_preknot_poses s0 = repeat (np_zeros (getNumDofs w)) (Z.to_nat (num_shots (cfg s0))) /\
  last_preknot_vels s0 = repeat (np_zeros (getNumDofs w)) (Z.to_nat (num_shots (cfg s0))) /\
  last_terminal_pos s0 = np_zeros (getNumDofs w) /\
  last_terminal_vel s0 = np_zeros (getNumDofs w) /\
  stdout s0 = [] /\ calls s0 = [] /\
  (loop = true -> efs = None).
Proof.
  unfold __init__. intros H.
  destruct (rassert _) eqn:Ea; simpl in H; [|discriminate].
  destruct (py_floor_div nsteps slen) as [ns|]; simpl in H; [|discriminate].
  destruct (foldM _ dis _) as [msk|]; simpl in H; [|discriminate].
  match type of H with rbind ?c _ = _ => destruct c as [n|] eqn:En end; simpl in H; [|discriminate].
  destruct (n <? 0)%Z eqn:Hn; [discriminate|]. inversion H; subst s0; clear H.
  simpl. repeat split.
  intros ->. destruct efs; [discriminate|reflexivity].
Qed.

Lemma Forall_repeat {A : Type} (P : A -> Prop) (a : A) (n : nat) : P a -> Forall P (repeat a n).
Proof. intros H. induction n; simpl; constructor; auto. Qed.

Lemma Forall_map_const {A B : Type} (P : B -> Prop) (b : B) (l : list A) :
  P b -> Forall P (map (fun _ => b) l).
Proof. intros H. induction l; simpl; constructor; auto. Qed.

Lemma np_zeros_length (n : nat) : length (np_zeros n) = n.
Proof. apply repeat_length. Qed.

(** X2.  When [steps] is a multiple of [shooting_length >= 1] and the world and
    the fixed terminal state (if any) have the sizes [world_dofs] and
    [2 * world_dofs], the object the constructor returns is well shaped. *)
Theorem init_well_shaped (w : World) (nsteps slen : Z) (tune loop : bool)
    (efs : option vec) (dis : list Z) (s0 : Traj) :
  __init__ w nsteps slen tune loop efs dis = Ok s0 ->
  (1 <= slen <= nsteps)%Z -> (nsteps mod slen = 0)%Z ->
  length (getPositions w) = getNumDofs w ->
  length (getVelocities w) = getNumDofs w ->
  (forall final, efs = Some final -> length final = (2 * getNumDofs w)%nat) ->
  well_shaped s0.
Proof.
  intros Hinit Hsl Hmod Hp Hv Hefs.
  destruct (init_inv _ _ _ _ _ _ _ _ Hinit)
    as (ns & msk & n0 & Hns & Hmask & Hn0 & Hc0 & Hdim & Htq & Hkp & Hkv & Hx).
  destruct (init_records _ _ _ _ _ _ _ _ Hinit) as (Hsn & Hpp & Hpv & _).
  unfold py_floor_div in Hns.
  destruct (slen =? 0)%Z eqn:E0; [apply Z.eqb_eq in E0; lia|]. inversion Hns; subst ns; clear Hns.
  assert (H1 : (1 <= nsteps / slen)%Z) by (apply Z.div_le_lower_bound; lia).
  assert (H2 : nsteps = (nsteps / slen * slen)%Z).
  { pose proof (Z.div_mod nsteps slen ltac:(lia)). lia. }
  apply mask_disabled in Hmask. destruct Hmask as (Hml & _). rewrite repeat_length in Hml.
  assert (HD : world_dofs s0 = getNumDofs w) by (unfold world_dofs; rewrite Hc0; reflexivity).
  constructor; rewrite ?HD, ?Hsn, ?Hpp, ?Hpv, ?Htq, ?Hkp, ?Hkv, ?Hx, ?Hc0;
    cbn [shooting_length num_shots steps mask enforce_final_state length];
    rewrite ?length_map, ?range_length, ?repeat_length.
  - rewrite Z.min_l; lia.
  - exact H1.
  - rewrite Z.min_l by lia. exact H2.
  - reflexivity.
  - lia.
  - lia.
  - reflexivity.
  - reflexivity.
  - reflexivity.
  - exact Hml.
  - apply Forall_map_const. apply np_zeros_length.
  - constructor; [exact Hp|]. apply Forall_map_const. apply np_zeros_length.
  - constructor; [exact Hv|]. apply Forall_map_const. apply np_zeros_length.
  - apply Forall_repeat. apply np_zeros_length.
  - apply Forall_repeat. apply np_zeros_length.
  - rewrite Hdim. f_equal. lia.
  - destruct efs as [final|]; [apply Hefs; reflexivity|exact I].
Qed.

Lemma init_well_shaped_witness :
  well_shaped (StandIn.object (__init__ StandIn.world2 6 2 true false
                                 (Some [1; 2; 3; 4]%float) [1%Z])).
Proof.
  apply (init_well_shaped StandIn.world2 6 2 true false (Some [1; 2; 3; 4]%float) [1%Z]).
  - vm_compute. reflexivity.
  - lia.
  - reflexivity.
  - reflexivity.
  - reflexivity.
  - intros final H. injection H as <-. reflexivity.
Defined.

(** ** The states a rollout reaches *)

Lemma py_get_nonneg {A : Type} (l : list A) (i : Z) (a : A) :
  (0 <= i)%Z -> py_get l i = Ok a -> nth_error l (Z.to_nat i) = Some a.
Proof.
  intros Hi H. apply py_get_index in H. destruct H as (k & Hk & Ha).
  unfold py_index in Hk. destruct (i <? 0)%Z eqn:E; [apply Z.ltb_lt in E; lia|].
  destruct (_ || _); [discriminate|]. inversion Hk; subst k. exact Ha.
Qed.

Lemma py_set_nonneg {A : Type} (l l' : list A) (i : Z) (v : A) :
  (0 <= i)%Z -> py_set l i v = Ok l' -> l' = list_set l (Z.to_nat i) v.
Proof.
  intros Hi H. apply py_set_index in H. destruct H as (k & Hk & ->).
  unfold py_index in Hk. destruct (i <? 0)%Z eqn:E; [apply Z.ltb_lt in E; lia|].
  destruct (_ || _); [discriminate|]. inversion Hk; subst k. reflexivity.
Qed.

Lemma spec_simulate_app (dart_layer : World -> vec -> vec -> vec -> vec * vec * BackpropSnapshot)
    (w : World) (ts : list vec) : forall (pos vel : vec) (t : vec),
  spec_simulate dart_layer w pos vel (ts ++ [t])
  = (fst (fst (dart_layer w (fst (spec_simulate dart_layer w pos vel ts))
                          (snd (spec_simulate dart_layer w pos vel ts)) t)),
     snd (fst (dart_layer w (fst (spec_simulate dart_layer w pos vel ts))
                          (snd (spec_simulate dart_layer w pos vel ts)) t))).
Proof.
  induction ts as [|t0 ts IH]; intros pos vel t; simpl.
  - destruct (dart_layer w pos vel t) as [[p v] sn]. reflexivity.
  - destruct (dart_layer w pos vel t0) as [[p v] sn]. apply IH.
Qed.

Section Reached.
Variable step_loss : vec -> vec -> vec -> World -> float.
Variable final_loss : vec -> vec -> World -> float.
Variable dart_layer : World -> vec -> vec -> vec -> vec * vec * BackpropSnapshot.
Variable torch_exp : float -> float.
Variable torch_norm : vec -> float.

(** The collaborators as the rollout calls them: callables that return. *)
Local Abbreviation step_cost := (returning4 step_loss).
Local Abbreviation final_cost := (returning3 final_loss).
Local Abbreviation engine := (returning4 dart_layer).

(** What a knot point returns and records. *)
Lemma unroll_knot_values (i : Z) (pos vel : vec) (kl : float) (s : Traj)
    (r : vec * vec * float) (s' : Traj) :
  (0 <= i)%Z -> (1 <= shooting_length (cfg s))%Z ->
  unroll_knot torch_exp torch_norm i pos vel kl s = Return r s' ->
  let q := Z.to_nat (i / shooting_length (cfg s)) in
  exists kp kv,
    nth_error (knot_poses s) q = Some kp /\ nth_error (knot_vels s) q = Some kv /\
    fst (fst r) = data kp /\ snd (fst r) = data kv /\
    (q < length (last_preknot_poses s))%nat /\ (q < length (last_preknot_vels s))%nat /\
    last_preknot_poses s' = list_set (last_preknot_poses s) q pos /\
    last_preknot_vels s' = list_set (last_preknot_vels s) q vel.
Proof.
  intros Hi Hsl H q.
  assert (Hq : (0 <= i / shooting_length (cfg s))%Z) by (apply Z.div_pos; lia).
  unfold unroll_knot, mbind, get_self, lift, modify, mprint, when, mret in H.
  unfold py_floor_div in H.
  destruct (shooting_length (cfg s) =? 0)%Z eqn:E0; [apply Z.eqb_eq in E0; lia|].
  destruct (py_get (knot_poses s) _) as [kp|] eqn:Hkp; [|discriminate H].
  destruct (py_get (knot_vels s) _) as [kv|] eqn:Hkv; [|discriminate H].
  destruct (barrier _ _ _ _ _ _ _); [|discriminate H].
  destruct (py_set (last_preknot_poses s) _ _) as [pp|] eqn:Hpp; [|discriminate H].
  cbn [last_preknot_vels set_last_preknot_poses] in H.
  destruct (py_set (last_preknot_vels s) _ _) as [pv|] eqn:Hpv; [|discriminate H].
  apply py_get_nonneg in Hkp; [|exact Hq]. apply py_get_nonneg in Hkv; [|exact Hq].
  assert (Lpp : (q < length (last_preknot_poses s))%nat).
  { apply py_set_index in Hpp. destruct Hpp as (k & Hk & _). apply py_index_lt in Hk as Hlt.
    unfold py_index in Hk.
    destruct (i / shooting_length (cfg s) <? 0)%Z eqn:E; [apply Z.ltb_lt in E; lia|].
    destruct (_ || _); [discriminate|]. inversion Hk; subst k. exact Hlt. }
  assert (Lpv : (q < length (last_preknot_vels s))%nat).
  { apply py_set_index in Hpv. destruct Hpv as (k & Hk & _). apply py_index_lt in Hk as Hlt.
    unfold py_index in Hk.
    destruct (i / shooting_length (cfg s) <? 0)%Z eqn:E; [apply Z.ltb_lt in E; lia|].
    destruct (_ || _); [discriminate|]. inversion Hk; subst k. exact Hlt. }
  apply py_set_nonneg in Hpp; [|exact Hq]. apply py_set_nonneg in Hpv; [|exact Hq].
  exists kp, kv. subst pp pv.
  destruct (_ || _); inversion H; subst r s'; cbn; repeat split; assumption || reflexivity.
Qed.

(** What one timestep computes: the engine steps from the state it was
    given, or from the knot's anchor at a segment boundary, under the
    stored torque times the mask. *)
Lemma unroll_step_values (after_step : bool) (i : Z) (pos vel : vec) (loss kl : float)
    (s : Traj) (r : roll_state) (s' : Traj) :
  (0 <= i)%Z -> (1 <= shooting_length (cfg s))%Z ->
  unroll_step step_cost engine torch_exp torch_norm true after_step i (pos, vel, loss, kl) s
  = Return r s' ->
  exists tq u pos1 vel1,
    nth_error (torques s) (Z.to_nat i) = Some tq /\
    mul_mask (data tq) (mask (cfg s)) = Ok u /\
    fst (fst (fst r)) = fst (fst (dart_layer (world (cfg s)) pos1 vel1 u)) /\
    snd (fst (fst r)) = snd (fst (dart_layer (world (cfg s)) pos1 vel1 u)) /\
    if (i mod shooting_length (cfg s) =? 0)%Z && (0 <? i)%Z then
      let q := Z.to_nat (i / shooting_length (cfg s)) in
      exists kp kv,
        nth_error (knot_poses s) q = Some kp /\ nth_error (knot_vels s) q = Some kv /\
        pos1 = data kp /\ vel1 = data kv /\
        (q < length (last_preknot_poses s))%nat /\ (q < length (last_preknot_vels s))%nat /\
        last_preknot_poses s' = list_set (last_preknot_poses s) q pos /\
        last_preknot_vels s' = list_set (last_preknot_vels s) q vel
    else
      pos1 = pos /\ vel1 = vel /\
      last_preknot_poses s' = last_preknot_poses s /\
      last_preknot_vels s' = last_preknot_vels s.
Proof.
  intros Hi Hsl H.
  unfold unroll_step in H. unfold mbind at 1 in H. unfold get_self in H.
  unfold mbind at 1 in H. unfold lift at 1 in H.
  destruct (py_get (torques s) i) as [tq|] eqn:Htq; [|discriminate H].
  unfold mbind at 1 in H. unfold lift at 1 in H.
  destruct (mul_mask (data tq) (mask (cfg s))) as [u|] eqn:Hu; [|discriminate H].
  unfold mbind at 1 in H. unfold lift at 1 in H. unfold py_mod in H.
  destruct (shooting_length (cfg s) =? 0)%Z eqn:E0; [apply Z.eqb_eq in E0; lia|].
  apply py_get_nonneg in Htq; [|exact Hi].
  exists tq, u. rewrite andb_true_r in H.
  unfold mbind at 1 in H.
  destruct ((i mod shooting_length (cfg s) =? 0)%Z && (0 <? i)%Z) eqn:C.
  - destruct (unroll_knot torch_exp torch_norm i pos vel kl s) as [[[pos1 vel1] kl1] s1|] eqn:K;
      [|discriminate H].
    pose proof (unroll_knot_trace torch_exp torch_norm i pos vel kl s _ (eq_sym K)) as (V1 & _).
    cbn [final_state] in V1. destruct V1 as (Hc1 & _).
    destruct (unroll_knot_values i pos vel kl s _ _ Hi Hsl K)
      as (kp & kv & K1 & K2 & K3 & K4 & B1 & B2 & K5 & K6).
    cbn [fst snd] in K3, K4. subst pos1 vel1.
    exists (data kp), (data kv). split; [exact Htq|]. split; [exact Hu|].
    unfold mbind, call_step_loss, call_dart_layer, when, mprint, lift, returning4, get_self,
      modify, mret in H.
    cbv beta iota in H. cbn [cfg record_call snapshots] in H. rewrite Hc1 in H.
    destruct (dart_layer (world (cfg s)) (data kp) (data kv) u) as [[np nv] sn].
    cbv beta iota in H. cbn [cfg record_call snapshots] in H.
    destruct (py_set (snapshots s1) i (Some sn)); [|discriminate H].
    assert (R : fst (fst (fst r)) = np /\ snd (fst (fst r)) = nv /\
                last_preknot_poses s' = last_preknot_poses s1 /\
                last_preknot_vels s' = last_preknot_vels s1).
    { destruct (negb _ && _); destruct after_step; inversion H; subst r s'; cbn;
        repeat split; reflexivity. }
    destruct R as (R1 & R2 & R3 & R4). cbn [fst snd].
    split; [exact R1|]. split; [exact R2|].
    exists kp, kv. rewrite R3, R4. repeat split; assumption || reflexivity.
  - unfold mret at 1 in H.
    exists pos, vel. split; [exact Htq|]. split; [exact Hu|].
    unfold mbind, call_step_loss, call_dart_layer, when, mprint, lift, returning4, get_self,
      modify, mret in H.
    cbv beta iota in H. cbn [cfg record_call snapshots] in H.
    destruct (dart_layer (world (cfg s)) pos vel u) as [[np nv] sn].
    cbv beta iota in H. cbn [cfg record_call snapshots] in H.
    destruct (py_set (snapshots s) i (Some sn)); [|discriminate H].
    cbn [fst snd].
    destruct (negb _ && _); destruct after_step; inversion H; subst r s'; cbn;
      repeat split; reflexivity.
Qed.

(** The state the loop holds after [a] timesteps: the simulation of the
    current segment so far, from its knot. *)
Local Abbreviation reached := (fun (s : Traj) (a : nat) =>
  let sl := Z.to_nat (shooting_length (cfg s)) in
  let k := ((a - 1) / sl)%nat in
  spec_simulate dart_layer (world (cfg s))
    (data (nth k (knot_poses s) no_tensor)) (data (nth k (knot_vels s) no_tensor))
    (map (spec_control s) (seq (k * sl) (a - k * sl)%nat))).

(** The pre-knot records after [a] timesteps: the ends of the segments
    before the current one. *)
Local Abbreviation recorded := (fun (s : Traj) (a : nat) (s1 : Traj) =>
  forall i, (1 <= i <= (a - 1) / Z.to_nat (shooting_length (cfg s)))%nat ->
    nth_error (last_preknot_poses s1) i = Some (fst (spec_segment_end dart_layer s (i - 1))) /\
    nth_error (last_preknot_vels s1) i = Some (snd (spec_segment_end dart_layer s (i - 1)))).

Lemma spec_control_eq (s : Traj) (t : nat) (tq : Tensor) (u : vec) :
  nth_error (torques s) t = Some tq -> mul_mask (data tq) (mask (cfg s)) = Ok u ->
  spec_control s t = u.
Proof. intros H1 H2. unfold spec_control. rewrite H1, H2. reflexivity. Qed.

Lemma nth_of_nth_error {A : Type} (l : list A) (i : nat) (a d : A) :
  nth_error l i = Some a -> nth i l d = a.
Proof. intros H. apply nth_error_nth. exact H. Qed.

Lemma unroll_loop_values (after_step : bool) (s : Traj) (m : nat) :
  (1 <= shooting_length (cfg s))%Z ->
  forall (a : nat) (pos vel : vec) (loss kl : float) (s1 : Traj) (r : roll_state) (s2 : Traj),
  same_vars s s1 ->
  (pos, vel) = reached s a ->
  recorded s a s1 ->
  mfold (unroll_step step_cost engine torch_exp torch_norm true after_step)
    (map Z.of_nat (seq a m)) (pos, vel, loss, kl) s1 = Return r s2 ->
  same_vars s s2 /\
  (fst (fst (fst r)), snd (fst (fst r))) = reached s (a + m)%nat /\
  recorded s (a + m)%nat s2.
Proof.
  intros Hsl. set (slz := shooting_length (cfg s)) in *. set (sl := Z.to_nat slz).
  assert (Hslz : slz = Z.of_nat sl) by (unfold sl; lia).
  assert (Hsl1 : (1 <= sl)%nat) by (unfold sl; lia).
  induction m as [|m IH]; intros a pos vel loss kl s1 r s2 V Hr Hrec H.
  - simpl in H. inversion H; subst r s2. cbn [fst snd]. rewrite Nat.add_0_r. auto.
  - cbn [seq map mfold] in H. unfold mbind in H.
    destruct (unroll_step step_cost engine torch_exp torch_norm true after_step (Z.of_nat a)
                (pos, vel, loss, kl) s1) as [r1 s3|] eqn:Hstep; [|discriminate H].
    pose proof (unroll_step_trace step_cost engine torch_exp torch_norm true after_step
                  (Z.of_nat a) (pos, vel, loss, kl) s1 _ (eq_sym Hstep)) as (V13 & _).
    cbn [final_state] in V13.
    assert (V3 : same_vars s s3) by (eapply same_vars_trans; eauto).
    destruct V as (Vc & Vt & Vp & Vv & Vx).
    assert (Hsl' : (1 <= shooting_length (cfg s1))%Z) by (rewrite Vc; exact Hsl).
    destruct (unroll_step_values after_step (Z.of_nat a) pos vel loss kl s1 r1 s3
                ltac:(lia) Hsl' Hstep) as (tq & u & pos1 & vel1 & Htq & Hu & R1 & R2 & Hk).
    rewrite Nat2Z.id, Vt in Htq. rewrite Vc in Hu, R1, R2, Hk. fold slz in Hk.
    pose proof (spec_control_eq s a tq u Htq Hu) as Hctl.
    assert (Hmod : (Z.of_nat a mod slz =? 0)%Z = Nat.eqb (a mod sl) 0).
    { rewrite Hslz, <- Nat2Z.inj_mod.
      destruct (Nat.eqb (a mod sl) 0) eqn:E.
      - apply Nat.eqb_eq in E. rewrite E. reflexivity.
      - apply Nat.eqb_neq in E. apply Z.eqb_neq. lia. }
    assert (Hdiv : Z.to_nat (Z.of_nat a / slz) = (a / sl)%nat).
    { rewrite Hslz, <- Nat2Z.inj_div. apply Nat2Z.id. }
    assert (Hpos : (0 <? Z.of_nat a)%Z = Nat.ltb 0 a).
    { destruct (Nat.ltb 0 a) eqn:E.
      - apply Nat.ltb_lt in E. apply Z.ltb_lt. lia.
      - apply Nat.ltb_ge in E. apply Z.ltb_ge. lia. }
    rewrite Hmod, Hpos, Hdiv in Hk.
    pose proof (Nat.div_mod_eq a sl) as Da.
    pose proof (Nat.mod_upper_bound a sl ltac:(lia)) as Ma.
    replace (a + S m)%nat with (S a + m)%nat by lia.
    destruct r1 as [[[pos' vel'] loss'] kl']. cbn [fst snd] in R1, R2.
    cbv zeta in Hr. fold slz in Hr, Hrec. fold sl in Hr, Hrec.
    apply (IH (S a) pos' vel' loss' kl' s3 r s2 V3); [| |exact H].
    + (* the state after timestep [a] *)
      cbv zeta. fold slz. fold sl.
      replace (S a - 1)%nat with a by lia.
      destruct (Nat.eqb (a mod sl) 0 && Nat.ltb 0 a) eqn:C.
      * apply andb_prop in C. destruct C as (C1 & C2).
        apply Nat.eqb_eq in C1. apply Nat.ltb_lt in C2.
        destruct Hk as (kp & kv & K1 & K2 & -> & -> & _).
        rewrite Vp in K1. rewrite Vv in K2.
        rewrite (nth_of_nth_error _ _ _ no_tensor K1), (nth_of_nth_error _ _ _ no_tensor K2).
        replace (a / sl * sl)%nat with a by nia.
        replace (S a - a)%nat with 1%nat by lia. cbn [seq map spec_simulate].
        rewrite Hctl, R1, R2.
        destruct (dart_layer (world (cfg s)) (data kp) (data kv) u) as [[p v] sn]. reflexivity.
      * destruct Hk as (-> & -> & _).
        assert (Hsame : ((a - 1) / sl = a / sl)%nat).
        { apply andb_false_iff in C. destruct C as [C|C].
          - apply Nat.eqb_neq in C. symmetry.
            apply (Nat.div_unique (a - 1) sl (a / sl) (a mod sl - 1)); lia.
          - apply Nat.ltb_ge in C. replace a with 0%nat by lia. reflexivity. }
        assert (Hle : (a / sl * sl <= a)%nat) by nia.
        replace (S a - a / sl * sl)%nat with ((a - a / sl * sl) + 1)%nat by lia.
        rewrite seq_app, map_app. cbn [seq map].
        replace (a / sl * sl + (a - a / sl * sl))%nat with a by lia.
        rewrite spec_simulate_app, Hctl.
        rewrite Hsame in Hr. rewrite <- Hr. cbn [fst snd].
        rewrite R1, R2. reflexivity.
    + (* the records after timestep [a] *)
      fold slz. fold sl. replace (S a - 1)%nat with a by lia. intros i Hi.
      destruct (Nat.eqb (a mod sl) 0 && Nat.ltb 0 a) eqn:C.
      * apply andb_prop in C. destruct C as (C1 & C2).
        apply Nat.eqb_eq in C1. apply Nat.ltb_lt in C2.
        destruct Hk as (kp & kv & K1 & K2 & _ & _ & B1 & B2 & K5 & K6).
        assert (Hq : (1 <= a / sl)%nat) by nia.
        assert (Hprev : ((a - 1) / sl = a / sl - 1)%nat).
        { symmetry. apply (Nat.div_unique (a - 1) sl (a / sl - 1) (sl - 1)); nia. }
        rewrite K5, K6, !nth_error_list_set.
        destruct (Nat.eqb (a / sl) i) eqn:E.
        -- apply Nat.eqb_eq in E. subst i.
           apply Nat.ltb_lt in B1. apply Nat.ltb_lt in B2. rewrite B1, B2.
           rewrite Hprev in Hr.
           replace (a - (a / sl - 1) * sl)%nat with sl in Hr by nia.
           unfold spec_segment_end. fold slz. fold sl. rewrite <- Hr. auto.
        -- apply Nat.eqb_neq in E. apply Hrec. lia.
      * destruct Hk as (_ & _ & K5 & K6). rewrite K5, K6.
        assert (Hsame : ((a - 1) / sl = a / sl)%nat).
        { apply andb_false_iff in C. destruct C as [C|C].
          - apply Nat.eqb_neq in C. symmetry.
            apply (Nat.div_unique (a - 1) sl (a / sl) (a mod sl - 1)); lia.
          - apply Nat.ltb_ge in C. replace a with 0%nat by lia. reflexivity. }
        apply Hrec. lia.
Qed.

(** What [unroll] records once its loop is over. *)
Lemma unroll_values (after_step : bool) (s : Traj) (r : float * float) (s' : Traj) :
  unroll step_cost final_cost engine torch_exp torch_norm true after_step s = Return r s' ->
  exists kp kv pos vel loss kl s1,
    nth_error (knot_poses s) 0 = Some kp /\ nth_error (knot_vels s) 0 = Some kv /\
    mfold (unroll_step step_cost engine torch_exp torch_norm true after_step)
      (range (steps (cfg s))) (data kp, data kv, 0, 0) s = Return (pos, vel, loss, kl) s1 /\
    last_terminal_pos s' = pos /\ last_terminal_vel s' = vel /\
    last_preknot_poses s' = last_preknot_poses s1 /\
    last_preknot_vels s' = last_preknot_vels s1 /\
    last_loss s' = add_float32 loss (final_loss pos vel (world (cfg s1))) /\
    fst r = last_loss s' /\ cfg s' = cfg s1.
Proof.
  intros H.
  unfold unroll in H. unfold mbind at 1 in H. unfold get_self in H.
  unfold mbind at 1 in H. unfold lift at 1 in H.
  destruct (py_get (knot_poses s) 0) as [kp|] eqn:Hkp; [|discriminate H].
  unfold mbind at 1 in H. unfold lift at 1 in H.
  destruct (py_get (knot_vels s) 0) as [kv|] eqn:Hkv; [|discriminate H].
  apply py_get_nonneg in Hkp; [|lia]. apply py_get_nonneg in Hkv; [|lia].
  unfold mbind at 1 in H.
  destruct (mfold _ (range (steps (cfg s))) _ s) as [[[[pos vel] loss] kl] s1|] eqn:Hloop;
    [|discriminate H].
  exists kp, kv, pos, vel, loss, kl, s1.
  split; [exact Hkp|]. split; [exact Hkv|]. split; [exact Hloop|].
  unfold mbind, call_final_loss, lift, returning3, modify, get_self, mret in H.
  cbv beta iota in H. cbn [cfg knot_poses knot_vels set_last_terminal record_call] in H.
  assert (Done : forall kl', Return (add_float32 loss (final_loss pos vel (world (cfg s1))), kl')
                   (set_last_loss (add_float32 loss (final_loss pos vel (world (cfg s1))))
                      (set_last_terminal pos vel (record_call (CallFinalLoss pos vel) s1)))
                 = Return r s' ->
            last_terminal_pos s' = pos /\ last_terminal_vel s' = vel /\
            last_preknot_poses s' = last_preknot_poses s1 /\
            last_preknot_vels s' = last_preknot_vels s1 /\
            last_loss s' = add_float32 loss (final_loss pos vel (world (cfg s1))) /\
            fst r = last_loss s' /\ cfg s' = cfg s1).
  { intros kl' E. inversion E; subst r s'. cbn. repeat split; reflexivity. }
  destruct (enforce_loop (cfg s1)).
  - destruct (py_get (knot_poses s1) 0); [|discriminate H].
    destruct (py_get (knot_vels s1) 0); [|discriminate H].
    destruct (barrier _ _ _ _ _ _ _); [|discriminate H].
    destruct (enforce_final_state (cfg s1)).
    + destruct (barrier _ _ _ _ _ _ _); [|discriminate H]. eapply Done; exact H.
    + eapply Done; exact H.
  - destruct (enforce_final_state (cfg s1)).
    + destruct (barrier _ _ _ _ _ _ _); [|discriminate H]. eapply Done; exact H.
    + eapply Done; exact H.
Qed.

(** On an object whose segments tile the horizon, a rollout that returns
    has recorded the state simulation reaches at the end of every segment:
    the pre-knot state of knot [i > 0] is the end of segment [i - 1], the
    terminal state is the end of the last segment. *)
Lemma rollout_reaches (after_step : bool) (s : Traj) (r : float * float) (s' : Traj) :
  (1 <= shooting_length (cfg s))%Z -> (1 <= num_shots (cfg s))%Z ->
  steps (cfg s) = (num_shots (cfg s) * shooting_length (cfg s))%Z ->
  unroll step_cost final_cost engine torch_exp torch_norm true after_step s = Return r s' ->
  same_vars s s' /\
  (last_terminal_pos s', last_terminal_vel s')
  = spec_segment_end dart_layer s (Z.to_nat (num_shots (cfg s)) - 1) /\
  forall i, (1 <= i <= Z.to_nat (num_shots (cfg s)) - 1)%nat ->
    nth_error (last_preknot_poses s') i = Some (fst (spec_segment_end dart_layer s (i - 1))) /\
    nth_error (last_preknot_vels s') i = Some (snd (spec_segment_end dart_layer s (i - 1))).
Proof.
  intros Hsl Hns Hst H.
  pose proof (unroll_trace step_cost final_cost engine torch_exp torch_norm true after_step
                s _ (eq_sym H)) as (V & _).
  cbn [final_state] in V. split; [exact V|].
  destruct (unroll_values after_step s r s' H)
    as (kp & kv & pos & vel & loss & kl & s1 & Hkp & Hkv & Hloop & T1 & T2 & P1 & P2 & _).
  set (sl := Z.to_nat (shooting_length (cfg s))) in *.
  set (N := Z.to_nat (num_shots (cfg s))) in *.
  assert (Hn : Z.to_nat (steps (cfg s)) = (N * sl)%nat) by (unfold N, sl; rewrite Hst; nia).
  unfold range in Hloop. rewrite Hn in Hloop.
  destruct (unroll_loop_values after_step s (N * sl) Hsl 0 (data kp) (data kv) 0 0 s
              (pos, vel, loss, kl) s1 (same_vars_refl s)) as (_ & Hr & Hrec).
  - cbv zeta. change (0 - 1)%nat with 0%nat. rewrite Nat.Div0.div_0_l.
    cbn [Nat.mul Nat.sub seq map spec_simulate].
    rewrite (nth_of_nth_error _ _ _ no_tensor Hkp), (nth_of_nth_error _ _ _ no_tensor Hkv).
    reflexivity.
  - intros i Hi. exfalso. change (0 - 1)%nat with 0%nat in Hi.
    rewrite Nat.Div0.div_0_l in Hi. lia.
  - exact Hloop.
  - cbn [fst snd] in Hr. cbv zeta in Hr. fold sl in Hr, Hrec. cbn [Nat.add] in Hr, Hrec.
    assert (Hlast : ((N * sl - 1) / sl = N - 1)%nat).
    { symmetry. apply (Nat.div_unique (N * sl - 1) sl (N - 1) (sl - 1)); unfold N, sl; nia. }
    rewrite Hlast in Hr, Hrec.
    replace (N * sl - (N - 1) * sl)%nat with sl in Hr by (unfold N, sl; nia).
    split.
    + rewrite T1, T2, Hr. reflexivity.
    + intros i Hi. rewrite P1, P2. apply Hrec. exact Hi.
Qed.

End Reached.

Lemma flat_map_agree {A B : Type} (f g : A -> list B) (l : list A) :
  (forall a, In a l -> f a = g a) -> flat_map f l = flat_map g l.
Proof.
  induction l as [|a l IH]; intros H; simpl; [reflexivity|].
  rewrite (H a) by (left; reflexivity). rewrite IH; [reflexivity|].
  intros b Hb. apply H. right. exact Hb.
Qed.

(** The vector [eval_g] assembles from the records of a rollout is the
    constraint vector of the specification. *)
Lemma constraint_vector_spec
    (dart_layer : World -> vec -> vec -> vec -> vec * vec * BackpropSnapshot) (s s' : Traj) :
  same_vars s s' ->
  (last_terminal_pos s', last_terminal_vel s')
  = spec_segment_end dart_layer s (Z.to_nat (num_shots (cfg s)) - 1) ->
  (forall i, (1 <= i <= Z.to_nat (num_shots (cfg s)) - 1)%nat ->
     nth_error (last_preknot_poses s') i = Some (fst (spec_segment_end dart_layer s (i - 1))) /\
     nth_error (last_preknot_vels s') i = Some (snd (spec_segment_end dart_layer s (i - 1)))) ->
  constraint_vector s' = spec_constraint_vector dart_layer s.
Proof.
  intros (Hc & _ & Hp & Hv & _) Ht Hrec.
  unfold constraint_vector, spec_constraint_vector. rewrite Hc. f_equal.
  - unfold terminal_block, spec_terminal_block, world_dofs. rewrite Hc, Hp, Hv, <- Ht. reflexivity.
  - apply flat_map_agree. intros i Hi. apply in_seq in Hi.
    unfold gap_block, spec_gap_block. rewrite Hp, Hv.
    destruct (Hrec i ltac:(lia)) as (H1 & H2).
    f_equal; f_equal; apply nth_of_nth_error; assumption.
Qed.

(** Encoding what [unflatten] decoded from [x] gives [x] back. *)
Lemma flatten_decoded (s s1 : Traj) (x out : vec) (tc : nat) :
  unflatten_loop s x = Ok (s1, length x, tc) ->
  get_flat_problem_dim s = Ok (Z.of_nat (length x)) ->
  length out = length x ->
  flatten s1 out "state" = Ok x.
Proof.
  intros Hloop Hn Hout.
  unfold unflatten_loop in Hloop. rewrite range_shots in Hloop.
  pose proof (unflatten_shots_frame x _ _ _ _ _ _ _ _ Hloop) as (Hlay1 & _).
  destruct (roundtrip_shots x _ _ _ _ _ _ _ _ Hloop out) as (out' & Hfl & Hlen' & Hpre');
    [exact Hout|reflexivity|].
  unfold flatten. rewrite (get_flat_problem_dim_cfg s1 s) by (apply Hlay1). rewrite Hn.
  cbn [rbind]. unfold rassert.
  replace (Z.of_nat (length out) =? Z.of_nat (length x))%Z with true
    by (symmetry; apply Z.eqb_eq; lia).
  cbn [rbind]. unfold flatten_loop. rewrite range_shots.
  destruct Hlay1 as (Hc1 & _). rewrite Hc1.
  eapply rbind_intro; [exact Hfl|]. cbn [fst]. f_equal.
  rewrite firstn_all2 in Hpre' by lia. rewrite firstn_all2 in Hpre' by lia. exact Hpre'.
Qed.

(** ** The callbacks on a well-shaped object *)

Lemma only_prints_trans (a b c : Traj) : only_prints a b -> only_prints b c -> only_prints a c.
Proof.
  unfold only_prints.
  intros (A1 & A2 & A3 & A4 & A5 & A6 & A7 & A8 & A9 & A10 & A11 & A12)
    (B1 & B2 & B3 & B4 & B5 & B6 & B7 & B8 & B9 & B10 & B11 & B12).
  rewrite B1, B2, B3, B4, B5, B6, B7, B8, B9, B10, B11, B12. repeat split; assumption.
Qed.

(** The diagnostic of [eval_g] for the knots of [l] only prints. *)
Lemma wp_eval_g_report (s0 : Traj) (l : list Z) :
  shapes_ok s0 ->
  Forall (fun i => (0 <= i < num_shots (cfg s0))%Z) l ->
  forall s, only_prints s0 s ->
  wp (mfold eval_g_report l tt) (fun _ s' => only_prints s0 s') s.
Proof.
  intros Hs Hl s Hp.
  apply (wp_weaken _ ((fun (rest : list Z) (_ : unit) s' =>
                         Forall (fun i => (0 <= i < num_shots (cfg s0))%Z) rest /\
                         only_prints s0 s') [])); [|intros a s' (_ & H); exact H].
  apply wp_mfold with (J := fun (rest : list Z) (_ : unit) s' =>
                         Forall (fun i => (0 <= i < num_shots (cfg s0))%Z) rest /\
                         only_prints s0 s'); [|split; assumption].
  clear s Hp Hl. intros i rest [] s (Hl & Hp). inversion Hl as [|? ? Hi Hrest]; subst.
  unfold eval_g_report. destruct (i =? 0)%Z; [apply wp_ret; auto|].
  destruct Hs as (Hns & Hkp & Hkv & Hpp & Hpv & _).
  destruct Hp as (E1 & E2 & E3 & E4 & E5 & E6 & E7 & E8 & E9 & E10 & E11 & E12).
  destruct (py_get_in_range (last_preknot_poses s0) i) as (a1 & Ha1 & _); [lia|].
  destruct (py_get_in_range (knot_poses s0) i) as (a2 & Ha2 & _); [lia|].
  destruct (py_get_in_range (last_preknot_vels s0) i) as (a3 & Ha3 & _); [lia|].
  destruct (py_get_in_range (knot_vels s0) i) as (a4 & Ha4 & _); [lia|].
  apply wp_bind, wp_get_self; cbv beta.
  apply wp_bind, wp_mprint; cbv beta.
  rewrite E8, E3, E9, E4.
  wp_lift Ha1. apply wp_bind, wp_mprint; cbv beta.
  wp_lift Ha2. apply wp_bind, wp_mprint; cbv beta.
  wp_lift Ha3. apply wp_bind, wp_mprint; cbv beta.
  wp_lift Ha4. apply wp_mprint.
  split; [exact Hrest|]. unfold only_prints. simpl. repeat split; assumption.
Qed.

Lemma range_bounds (n : Z) : Forall (fun i => (0 <= i < n)%Z) (range n).
Proof.
  unfold range. apply Forall_forall. intros i Hi. apply in_map_iff in Hi.
  destruct Hi as (k & <- & Hk). apply in_seq in Hk. lia.
Qed.

Section WellShapedCallbacks.
Variable step_loss : vec -> vec -> vec -> World -> float.
Variable final_loss : vec -> vec -> World -> float.
Variable dart_layer : World -> vec -> vec -> vec -> vec * vec * BackpropSnapshot.
Variable torch_exp : float -> float.
Variable torch_norm : vec -> float.

(** The collaborators as the rollout calls them: callables that return. *)
Local Abbreviation step_cost := (returning4 step_loss).
Local Abbreviation final_cost := (returning3 final_loss).
Local Abbreviation engine := (returning4 dart_layer).

(** X3.  On a well-shaped object, with an engine that keeps the sizes, and for
    an [x] as long as the previous one, [ensure_fresh_rollout] returns:
    it never raises.  It leaves the object well shaped, with every vector
    [eval_g] reads of size [world_dofs], with [last_x = x] and the
    configuration unchanged; it has run the whole rollout again (one cost
    call and one engine call per step and one final cost call, also when
    [x] equals the previous [x]), and every step has stored its snapshot. *)
Theorem fresh_rollout_returns (x : vec) (s : Traj) :
  well_shaped s -> engine_ok dart_layer s ->
  length x = length (last_x s) ->
  exists s1,
    ensure_fresh_rollout step_cost final_cost engine torch_exp torch_norm x s
    = Return tt s1 /\
    well_shaped s1 /\ shapes_ok s1 /\ cfg s1 = cfg s /\ last_x s1 = x /\
    length (calls s1) = (length (calls s) + Z.to_nat (steps (cfg s)) * 2 + 1)%nat /\
    (forall j, (j < Z.to_nat (steps (cfg s)))%nat ->
               exists b, nth_error (snapshots s1) j = Some (Some b)).
Proof.
  intros W HE Hx.
  destruct (wp_returns _ _ _
              (wp_ensure_fresh_rollout step_loss final_loss dart_layer torch_exp torch_norm
                 x s W HE Hx))
    as ([] & s1 & Hr & W1 & S1 & C1 & X1 & _ & N1 & B1).
  exists s1. repeat (split; [assumption|]). assumption.
Qed.


(** X5.  Under the same conditions, for an [x] without NaN and an [out] of the
    constraint dimension, [eval_g] returns the constraint vector of the
    rollout for [x], unless a residual is NaN, in which case it prints its
    diagnostic and its assertion raises. *)
Theorem eval_g_returns_unless_nan (x out : vec) (s : Traj) :
  well_shaped s -> engine_ok dart_layer s ->
  length x = length (last_x s) ->
  np_isnan_any x = false ->
  Z.of_nat (length out) = get_constraint_dim s ->
  exists s1,
    ensure_fresh_rollout step_cost final_cost engine torch_exp torch_norm x s
    = Return tt s1 /\
    if np_isnan_any (constraint_vector s1)
    then exists s2,
           eval_g step_cost final_cost engine torch_exp torch_norm x out s
           = Raise AssertionError s2 /\ only_prints s1 s2
    else eval_g step_cost final_cost engine torch_exp torch_norm x out s
         = Return (constraint_vector s1) s1.
Proof.
  intros W HE Hx Hnan Hout.
  destruct (wp_returns _ _ _
              (wp_ensure_fresh_rollout step_loss final_loss dart_layer torch_exp torch_norm
                 x s W HE Hx))
    as ([] & s1 & Hr & W1 & S1 & C1 & _).
  exists s1. split; [exact Hr|].
  assert (Hout1 : Z.of_nat (length out) = get_constraint_dim s1).
  { rewrite Hout. unfold get_constraint_dim, loop_or_final, world_dofs. rewrite C1. reflexivity. }
  pose proof (eval_g_fill_spec s1 out S1 Hout1) as Hfill.
  assert (Hl : length (constraint_vector s1) = length out).
  { pose proof (constraint_vector_length s1 S1). lia. }
  destruct (np_isnan_any (constraint_vector s1)) eqn:Hcv.
  - assert (Hrep : wp (mfold eval_g_report (range (num_shots (cfg s1))) tt)
                      (fun _ s' => only_prints s1 s')
                      (print (PrintVec "g(x) = " (constraint_vector s1))
                         (print (PrintVec "x = " x) (print (Print "g(x) found NaNs!") s1)))).
    { apply wp_eval_g_report; [exact S1|apply range_bounds|].
      unfold only_prints. simpl. repeat split. }
    apply wp_returns in Hrep. destruct Hrep as ([] & s2 & Hrep & Hp).
    exists s2. split; [|exact Hp].
    unfold eval_g, mbind, when, massert, rassert, lift, get_self, mret, mprint, modify.
    rewrite Hnan. cbn [negb]. rewrite Hr.
    replace (Z.of_nat (length out) =? get_constraint_dim s1)%Z with true
      by (symmetry; apply Z.eqb_eq; exact Hout1).
    rewrite Hfill, Hcv. unfold mbind in Hrep. rewrite Hrep.
    rewrite Hl, Nat.eqb_refl. reflexivity.
  - unfold eval_g, mbind, when, massert, rassert, lift, get_self, mret.
    rewrite Hnan. cbn [negb]. rewrite Hr.
    replace (Z.of_nat (length out) =? get_constraint_dim s1)%Z with true
      by (symmetry; apply Z.eqb_eq; exact Hout1).
    rewrite Hfill, Hcv, Hl, Nat.eqb_refl. reflexivity.
Qed.

End WellShapedCallbacks.

Ltac well_shaped_by_computation :=
  constructor; vm_compute;
  first [ reflexivity | exact I | discriminate | repeat constructor ].

Lemma fresh_rollout_returns_witness :
  let s := StandIn.object (__init__ StandIn.world1 4 2 false true None []) in
  let x := [1; 0; 2; 3; 0; 1]%float in
  exists s1,
    StandIn.ensure_fresh_rollout x s = Return tt s1 /\
    well_shaped s1 /\ shapes_ok s1 /\ cfg s1 = cfg s /\ last_x s1 = x /\
    length (calls s1) = (length (calls s) + Z.to_nat (steps (cfg s)) * 2 + 1)%nat /\
    (forall j, (j < Z.to_nat (steps (cfg s)))%nat ->
               exists b, nth_error (snapshots s1) j = Some (Some b)).
Proof.
  intros s x.
  apply (fresh_rollout_returns StandIn.step_loss StandIn.final_loss StandIn.spring
           StandIn.torch_exp StandIn.torch_norm x s).
  - well_shaped_by_computation.
  - intros pos vel t _ _ _. split; reflexivity.
  - reflexivity.
Defined.


Lemma eval_g_returns_unless_nan_witness :
  let s := StandIn.object (__init__ StandIn.world1 4 2 false true None []) in
  let x := [1; 0; 2; 3; 0; 1]%float in
  exists s1,
    StandIn.ensure_fresh_rollout x s = Return tt s1 /\
    if np_isnan_any (constraint_vector s1)
    then exists s2, StandIn.eval_g x (np_zeros 4) s = Raise AssertionError s2 /\
                    only_prints s1 s2
    else StandIn.eval_g x (np_zeros 4) s = Return (constraint_vector s1) s1.
Proof.
  intros s x.
  apply (eval_g_returns_unless_nan StandIn.step_loss StandIn.final_loss StandIn.spring
           StandIn.torch_exp StandIn.torch_norm x (np_zeros 4) s).
  - well_shaped_by_computation.
  - intros pos vel t _ _ _. split; reflexivity.
  - reflexivity.
  - reflexivity.
  - reflexivity.
Defined.

(** ** The constraint evaluator *)

Section ConstraintEvaluator.
Variable step_loss : vec -> vec -> vec -> World -> float.
Variable final_loss : vec -> vec -> World -> float.
Variable dart_layer : World -> vec -> vec -> vec -> vec * vec * BackpropSnapshot.
Variable torch_exp : float -> float.
Variable torch_norm : vec -> float.

(** The collaborators as the rollout calls them: callables that return. *)
Local Abbreviation step_cost := (returning4 step_loss).
Local Abbreviation final_cost := (returning3 final_loss).
Local Abbreviation engine := (returning4 dart_layer).

(** C6.  On a well-shaped object, with cost callables and an engine that
    return and an engine that keeps the sizes, for an [x] without NaN of the
    flat dimension and an [out] of [get_constraint_dim()] entries: let [su]
    be the object with [x] decoded into its torques and knots (encoding
    [su] gives [x] back).  Then [eval_g] returns exactly
    [spec_constraint_vector su]: first (under loop closure or a fixed
    terminal state) the state simulation reaches at the end of the last
    segment minus knot 0, respectively minus the fixed target, then for each
    knot [i > 0] in increasing order the state simulation reaches at the end
    of segment [i - 1] minus knot [i], positions before velocities, and
    nothing else.  When a residual is NaN, [eval_g] raises
    [AssertionError] instead. *)
Theorem eval_g_is_constraint_vector (x out : vec) (s : Traj) :
  well_shaped s -> engine_ok dart_layer s ->
  length x = length (last_x s) ->
  np_isnan_any x = false ->
  Z.of_nat (length out) = get_constraint_dim s ->
  exists su s1,
    unflatten (set_last_x x s) x = Ok su /\
    flatten su (np_zeros (length x)) "state" = Ok x /\
    ensure_fresh_rollout step_cost final_cost engine torch_exp torch_norm x s = Return tt s1 /\
    same_vars su s1 /\
    constraint_vector s1 = spec_constraint_vector dart_layer su /\
    length (spec_constraint_vector dart_layer su) = length out /\
    (np_isnan_any (spec_constraint_vector dart_layer su) = false ->
     eval_g step_cost final_cost engine torch_exp torch_norm x out s
     = Return (spec_constraint_vector dart_layer su) s1) /\
    (np_isnan_any (spec_constraint_vector dart_layer su) = true ->
     exists s2,
       eval_g step_cost final_cost engine torch_exp torch_norm x out s
       = Raise AssertionError s2).
Proof.
  intros W HE Hx Hnan Hout.
  destruct (wp_returns _ _ _
              (wp_ensure_fresh_rollout step_loss final_loss dart_layer torch_exp torch_norm
                 x s W HE Hx))
    as ([] & s1 & Hr & W1 & S1 & C1 & _ & (su & Hun & V) & _).
  exists su, s1. split; [exact Hun|].
  (* the decoded object *)
  assert (W0 : well_shaped (set_last_x x s)).
  { destruct W as
      [Wsl Wns Wst Wtq Wkp Wkv Wpp Wpv Wsn Wmk Wtd Wkpd Wkvd Wppd Wpvd Wlx Wfs].
    constructor; try assumption.
    change (get_flat_problem_dim (set_last_x x s)) with (get_flat_problem_dim s).
    cbn [last_x set_last_x]. rewrite Hx. assumption. }
  destruct (well_shaped_decode (set_last_x x s) x W0 (ws_last_x _ W0))
    as (su' & tc & Hloop & _ & Hlay & _).
  assert (su' = su).
  { unfold unflatten in Hun. rewrite Hloop in Hun. inversion Hun. reflexivity. }
  subst su'.
  split.
  { apply (flatten_decoded (set_last_x x s) su x _ tc Hloop (ws_last_x _ W0)).
    apply repeat_length. }
  split; [exact Hr|]. split; [exact V|].
  (* the rollout from the decoded object *)
  assert (Hroll : exists r, unroll step_cost final_cost engine torch_exp torch_norm true false su
                            = Return r s1).
  { unfold ensure_fresh_rollout, mbind, get_self, lift, modify, mret in Hr.
    rewrite (np_shapes_compatible_same_length _ _ Hx), Hun in Hr.
    destruct (unroll _ _ _ _ _ true false su) as [r s'|]; [|discriminate Hr].
    inversion Hr; subst s'. exists r. reflexivity. }
  destruct Hroll as (r & Hroll).
  destruct Hlay as (Hcu & _). cbn [cfg set_last_x] in Hcu.
  destruct (rollout_reaches step_loss final_loss dart_layer torch_exp torch_norm false su r s1)
    as (_ & Ht & Hrec); try (rewrite Hcu; apply W); [exact Hroll|].
  pose proof (constraint_vector_spec dart_layer su s1 V Ht Hrec) as Hcv.
  split; [exact Hcv|]. rewrite <- Hcv.
  assert (Hout1 : Z.of_nat (length out) = get_constraint_dim s1).
  { rewrite Hout. unfold get_constraint_dim, loop_or_final, world_dofs. rewrite C1. reflexivity. }
  pose proof (eval_g_fill_spec s1 out S1 Hout1) as Hfill.
  assert (Hl : length (constraint_vector s1) = length out).
  { pose proof (constraint_vector_length s1 S1). lia. }
  split; [exact Hl|]. split.
  - intros Hg.
    unfold eval_g, mbind, when, massert, rassert, lift, get_self, mret.
    rewrite Hnan. cbn [negb]. rewrite Hr.
    replace (Z.of_nat (length out) =? get_constraint_dim s1)%Z with true
      by (symmetry; apply Z.eqb_eq; exact Hout1).
    rewrite Hfill, Hg, Hl, Nat.eqb_refl. reflexivity.
  - intros Hg.
    assert (Hrep : wp (mfold eval_g_report (range (num_shots (cfg s1))) tt)
                      (fun _ s' => only_prints s1 s')
                      (print (PrintVec "g(x) = " (constraint_vector s1))
                         (print (PrintVec "x = " x) (print (Print "g(x) found NaNs!") s1)))).
    { apply wp_eval_g_report; [exact S1|apply range_bounds|].
      unfold only_prints. simpl. repeat split. }
    apply wp_returns in Hrep. destruct Hrep as ([] & s2 & Hrep & Hp).
    exists s2.
    unfold eval_g, mbind, when, massert, rassert, lift, get_self, mret, mprint, modify.
    rewrite Hnan. cbn [negb]. rewrite Hr.
    replace (Z.of_nat (length out) =? get_constraint_dim s1)%Z with true
      by (symmetry; apply Z.eqb_eq; exact Hout1).
    rewrite Hfill, Hg. unfold mbind in Hrep. rewrite Hrep.
    rewrite Hl, Nat.eqb_refl. reflexivity.
Qed.

End ConstraintEvaluator.

(** The theorem on the two-segment object with loop closure: the decoded
    knot 1 is (2, 3), the last segment ends in (3.5, 1) and segment 0 in
    (0.4375, 0.375). *)
Lemma eval_g_is_constraint_vector_witness :
  let s := StandIn.object (__init__ StandIn.world1 4 2 false true None []) in
  let x := [1; 0; 2; 3; 0; 1] in
  StandIn.value (Ok (StandIn.eval_g x (np_zeros 4) s)) = Some [3.5; 1; -1.5625; -2.625] /\
  exists su s1,
    unflatten (set_last_x x s) x = Ok su /\
    flatten su (np_zeros (length x)) "state" = Ok x /\
    StandIn.ensure_fresh_rollout x s = Return tt s1 /\
    same_vars su s1 /\
    constraint_vector s1 = spec_constraint_vector StandIn.spring su /\
    length (spec_constraint_vector StandIn.spring su) = length (np_zeros 4) /\
    (np_isnan_any (spec_constraint_vector StandIn.spring su) = false ->
     StandIn.eval_g x (np_zeros 4) s = Return (spec_constraint_vector StandIn.spring su) s1) /\
    (np_isnan_any (spec_constraint_vector StandIn.spring su) = true ->
     exists s2, StandIn.eval_g x (np_zeros 4) s = Raise AssertionError s2).
Proof.
  intros s x. split; [vm_compute; reflexivity|].
  apply (eval_g_is_constraint_vector StandIn.step_loss StandIn.final_loss StandIn.spring
           StandIn.torch_exp StandIn.torch_norm x (np_zeros 4) s).
  - well_shaped_by_computation.
  - intros pos vel t _ _ _. split; reflexivity.
  - reflexivity.
  - reflexivity.
  - reflexivity.
Defined.

(** ** Methods that raise *)

Lemma raises_bind_left {A B : Type} (c : M A) (k : A -> M B) (s : Traj) :
  raises c s -> raises (mbind c k) s.
Proof. intros (e & s' & H). exists e, s'. unfold mbind. rewrite H. reflexivity. Qed.

Lemma raises_bind {A B : Type} (c : M A) (k : A -> M B) (s : Traj) :
  (forall a s', c s = Return a s' -> raises (k a) s') -> raises (mbind c k) s.
Proof.
  intros H. unfold raises, mbind in *. destruct (c s) as [a s'|e s'].
  - apply H. reflexivity.
  - eauto.
Qed.

Lemma raises_bind_keeps {A B : Type} (J : Traj -> Prop) (Q : A -> Prop) (c : M A)
    (k : A -> M B) (s : Traj) :
  keeps J c Q -> J s -> (forall a s', J s' -> Q a -> raises (k a) s') -> raises (mbind c k) s.
Proof.
  intros Hc Hs Hk. apply raises_bind. intros a s' E. specialize (Hc s Hs). rewrite E in Hc.
  destruct Hc as [H1 H2]. apply Hk; assumption.
Qed.

Lemma raises_lift {A B : Type} (r : res A) (k : A -> M B) (s : Traj) :
  (forall a, r = Ok a -> raises (k a) s) -> raises (mbind (lift r) k) s.
Proof.
  intros H. apply raises_bind. intros a s' E. unfold lift in E. destruct r; [|discriminate].
  inversion E; subst. apply H. reflexivity.
Qed.

Lemma raises_get_self {B : Type} (k : Traj -> M B) (s : Traj) :
  raises (k s) s -> raises (mbind get_self k) s.
Proof. intros H. apply raises_bind. intros a s' E. inversion E; subst. exact H. Qed.

Lemma raises_lift_err {A : Type} (e : exn) (s : Traj) : raises (lift (@Err A e)) s.
Proof. exists e, s. reflexivity. Qed.

Lemma raises_mfold {X S : Type} (J : Traj -> Prop) (f : X -> S -> M S) (i : X)
    (l1 l2 : list X) :
  (forall x acc, keeps J (f x acc) (fun _ => True)) ->
  (forall acc s, J s -> raises (f i acc) s) ->
  forall acc s, J s -> raises (mfold f (l1 ++ i :: l2) acc) s.
Proof.
  intros Hk Hi. induction l1 as [|x l1 IH]; intros acc s Hs; simpl.
  - apply raises_bind_left. apply Hi. exact Hs.
  - eapply raises_bind_keeps; [apply Hk|exact Hs|]. intros a s' Hs' _. apply IH. exact Hs'.
Qed.

(** ** What the rollout and the callbacks leave alone *)

Section Frame.
Variable step_loss : vec -> vec -> vec -> World -> res float.
Variable final_loss : vec -> vec -> World -> res float.
Variable dart_layer : World -> vec -> vec -> vec -> res (vec * vec * BackpropSnapshot).
Variable torch_exp : float -> float.
Variable torch_norm : vec -> float.
Variable autograd : Traj -> tref -> vec.

(** A property of the object that no write of the rollout touches. *)
Variable J : Traj -> Prop.
Hypothesis J_print : forall l s, J s -> J (print l s).
Hypothesis J_call : forall c s, J s -> J (record_call c s).
Hypothesis J_preknot_poses : forall v s, J s -> J (set_last_preknot_poses v s).
Hypothesis J_preknot_vels : forall v s, J s -> J (set_last_preknot_vels v s).
Hypothesis J_snapshots : forall v s, J s -> J (set_snapshots v s).
Hypothesis J_terminal : forall p v s, J s -> J (set_last_terminal p v s).
Hypothesis J_loss : forall l s, J s -> J (set_last_loss l s).

Ltac frame_step :=
  first
    [ eapply keeps_bind; [apply keeps_get_self|]; intros ? ?
    | eapply keeps_bind; [apply keeps_lift_eq|]; intros ? ?
    | eapply keeps_bind; [apply keeps_modify; intros ? ?; auto|]; intros _ _
    | apply keeps_ret; exact I ].

Lemma frame_mprint (l : line) : keeps J (mprint l) (fun _ => True).
Proof. apply keeps_modify. intros s Hs. apply J_print. exact Hs. Qed.

Lemma frame_massert (b : bool) : keeps J (massert b) (fun _ => True).
Proof. apply keeps_lift. auto. Qed.

Lemma frame_nan_report (b : bool) (l1 l2 : line) :
  keeps J (when b (mbind (mprint l1) (fun _ => mprint l2))) (fun _ => True).
Proof.
  apply keeps_when. eapply keeps_bind; [apply frame_mprint|]. intros _ _. apply frame_mprint.
Qed.

Lemma frame_unroll_knot (i : Z) (pos vel : vec) (kl : float) :
  keeps J (unroll_knot torch_exp torch_norm i pos vel kl) (fun _ => True).
Proof.
  unfold unroll_knot. do 9 frame_step.
  eapply keeps_bind; [apply keeps_when, frame_mprint|]; intros _ _.
  apply keeps_ret. exact I.
Qed.

Lemma frame_unroll_step (use_knots after_step : bool) (i : Z) (st : roll_state) :
  keeps J (unroll_step step_loss dart_layer torch_exp torch_norm use_knots after_step i st)
        (fun _ => True).
Proof.
  unfold unroll_step. destruct st as [[[pos vel] loss] knot_loss].
  do 4 frame_step.
  eapply keeps_bind with (Q := fun _ => True).
  { destruct (_ && _); [apply frame_unroll_knot|apply keeps_ret; exact I]. }
  intros [[pos' vel'] kl'] _.
  eapply keeps_bind with (Q := fun _ => True).
  { apply keeps_call. intros s Hs. apply J_call; auto. }
  intros l _.
  eapply keeps_bind with (Q := fun _ => True).
  { apply keeps_call. intros s Hs. apply J_call; auto. }
  intros [[next_pos next_vel] snapshot] _.
  do 3 frame_step.
  eapply keeps_bind with (Q := fun _ => True).
  { apply keeps_when.
    repeat (eapply keeps_bind; [apply frame_mprint|]; intros _ _).
    apply frame_mprint. }
  intros _ _.
  eapply keeps_bind with (Q := fun _ => True).
  { apply keeps_when. apply keeps_modify. intros s Hs. apply J_call; auto. }
  intros _ _. apply keeps_ret. exact I.
Qed.

Lemma frame_unroll (use_knots after_step : bool) :
  keeps J (unroll step_loss final_loss dart_layer torch_exp torch_norm use_knots after_step)
        (fun _ => True).
Proof.
  unfold unroll. do 3 frame_step.
  eapply keeps_bind with (Q := fun _ => True).
  { apply keeps_mfold; [|exact I]. intros x acc _. apply frame_unroll_step. }
  intros [[[pos' vel'] loss] knot_loss] _.
  eapply keeps_bind with (Q := fun _ => True).
  { apply keeps_call. intros s Hs. apply J_call; auto. }
  intros l _.
  do 2 frame_step.
  eapply keeps_bind with (Q := fun _ => True).
  { destruct (enforce_loop _); [do 4 frame_step|frame_step]. }
  intros kl _.
  eapply keeps_bind with (Q := fun _ => True).
  { destruct (enforce_final_state _); [do 2 frame_step|frame_step]. }
  intros kl' _.
  do 2 frame_step.
Qed.

(** The property also survives decoding and the writes of the gradient
    code. *)
Hypothesis J_last_x : forall x s, J s -> J (set_last_x x s).
Hypothesis J_unflatten : forall x s s1, J s -> unflatten s x = Ok s1 -> J s1.

Lemma frame_ensure_fresh_rollout (x : vec) :
  keeps J (ensure_fresh_rollout step_loss final_loss dart_layer torch_exp torch_norm x)
        (fun _ => True).
Proof.
  unfold ensure_fresh_rollout. do 3 frame_step.
  eapply keeps_bind; [apply keeps_get_self|]; intros self Hself.
  eapply keeps_bind with (Q := J).
  { apply keeps_lift. intros s1 H1. eapply J_unflatten; eauto. }
  intros self1 Hself1.
  eapply keeps_bind; [apply keeps_modify; intros ? _; exact Hself1|]; intros _ _.
  eapply keeps_bind; [apply frame_unroll|]; intros _ _.
  apply keeps_ret. exact I.
Qed.

Lemma frame_eval_f (x : vec) :
  keeps J (eval_f step_loss final_loss dart_layer torch_exp torch_norm x) (fun _ => True).
Proof.
  unfold eval_f.
  eapply keeps_bind; [apply frame_nan_report|]; intros _ _.
  eapply keeps_bind; [apply frame_massert|]; intros _ _.
  eapply keeps_bind; [apply frame_ensure_fresh_rollout|]; intros _ _.
  frame_step.
  eapply keeps_bind; [apply frame_massert|]; intros _ _.
  apply keeps_ret. exact I.
Qed.

Lemma frame_eval_g_report (l : list Z) :
  keeps J (mfold eval_g_report l tt) (fun _ => True).
Proof.
  apply keeps_mfold; [|exact I]. intros i [] _. unfold eval_g_report.
  destruct (i =? 0)%Z; [apply keeps_ret; exact I|].
  frame_step.
  eapply keeps_bind; [apply frame_mprint|]; intros _ _. frame_step.
  eapply keeps_bind; [apply frame_mprint|]; intros _ _. frame_step.
  eapply keeps_bind; [apply frame_mprint|]; intros _ _. frame_step.
  eapply keeps_bind; [apply frame_mprint|]; intros _ _. frame_step.
  apply frame_mprint.
Qed.

Lemma frame_eval_g (x out : vec) :
  keeps J (eval_g step_loss final_loss dart_layer torch_exp torch_norm x out) (fun _ => True).
Proof.
  unfold eval_g.
  eapply keeps_bind; [apply frame_nan_report|]; intros _ _.
  eapply keeps_bind; [apply frame_massert|]; intros _ _.
  eapply keeps_bind; [apply frame_ensure_fresh_rollout|]; intros _ _.
  frame_step.
  eapply keeps_bind; [apply frame_massert|]; intros _ _.
  eapply keeps_bind; [apply keeps_lift_eq|]; intros [out' cursor] _.
  eapply keeps_bind with (Q := fun _ => True).
  { apply keeps_when.
    eapply keeps_bind; [apply frame_mprint|]; intros _ _.
    eapply keeps_bind; [apply frame_mprint|]; intros _ _.
    eapply keeps_bind; [apply frame_mprint|]; intros _ _.
    apply frame_eval_g_report. }
  intros _ _.
  eapply keeps_bind; [apply frame_massert|]; intros _ _.
  eapply keeps_bind; [apply frame_massert|]; intros _ _.
  apply keeps_ret. exact I.
Qed.

Lemma frame_eval_jac_g (x out : vec) :
  keeps J (eval_jac_g step_loss final_loss dart_layer torch_exp torch_norm x out)
        (fun _ => True).
Proof.
  unfold eval_jac_g.
  eapply keeps_bind; [apply frame_nan_report|]; intros _ _.
  eapply keeps_bind; [apply frame_massert|]; intros _ _.
  eapply keeps_bind; [apply frame_ensure_fresh_rollout|]; intros _ _.
  frame_step.
  eapply keeps_bind; [apply keeps_lift_eq|]; intros [out' cursor] _.
  frame_step.
  eapply keeps_bind; [apply frame_massert|]; intros _ _.
  eapply keeps_bind; [apply frame_massert|]; intros _ _.
  eapply keeps_bind; [apply frame_massert|]; intros _ _.
  apply keeps_ret. exact I.
Qed.

Hypothesis J_update_ref : forall r f s, J s -> J (update_ref r f s).

Lemma frame_update_refs (f : Traj -> tref -> Tensor -> Tensor) (s0 : Traj) (l : list tref) :
  forall s, J s -> J (fold_left (fun s r => update_ref r (f s0 r) s) l s).
Proof.
  induction l as [|r l IH]; intros s Hs; simpl; [exact Hs|]. apply IH. apply J_update_ref. exact Hs.
Qed.

Lemma frame_eval_grad_f (x out : vec) :
  keeps J (eval_grad_f step_loss final_loss dart_layer torch_exp torch_norm autograd x out)
        (fun _ => True).
Proof.
  unfold eval_grad_f.
  eapply keeps_bind; [apply frame_nan_report|]; intros _ _.
  eapply keeps_bind; [apply frame_massert|]; intros _ _.
  do 2 frame_step.
  eapply keeps_bind; [apply frame_massert|]; intros _ _.
  eapply keeps_bind; [apply frame_ensure_fresh_rollout|]; intros _ _.
  do 2 frame_step.
  eapply keeps_bind with (Q := fun _ => True).
  { apply keeps_modify. intros s Hs. unfold zero_grads.
    apply (frame_update_refs (fun _ _ => zero_grad) s). exact Hs. }
  intros _ _.
  eapply keeps_bind with (Q := fun _ => True).
  { unfold backward. apply keeps_modify. intros s Hs.
    apply (frame_update_refs
             (fun self r t => if requires_grad t
                              then set_grad (Some (accumulate (grad t) (autograd self r))) t
                              else t) s).
    exact Hs. }
  intros _ _.
  do 2 frame_step.
  eapply keeps_bind; [apply frame_massert|]; intros _ _.
  apply keeps_ret. exact I.
Qed.

End Frame.

(** ** Decoding never raises *)

Lemma unflatten_same_layout (s s1 : Traj) (x : vec) :
  unflatten s x = Ok s1 -> same_layout s1 s.
Proof.
  unfold unflatten. intros H. apply rbind_ok in H. destruct H as ([[su fc] tc] & Hloop & H).
  inversion H; subst s1; clear H. unfold unflatten_loop in Hloop. rewrite range_shots in Hloop.
  apply (unflatten_shots_frame x) in Hloop. apply Hloop.
Qed.

(** X6.  [unflatten] has no length check: on an object with a knot for every
    segment it returns for every [x], of whatever length (slices truncate).
    It keeps the configuration and the number of tensors, every gradient
    accumulator and [requires_grad] flag, every record of the last rollout,
    and, when the start is not tunable, knot 0. *)
Theorem unflatten_never_raises (s : Traj) (x : vec) :
  (Z.to_nat (num_shots (cfg s)) <= length (knot_poses s))%nat ->
  (Z.to_nat (num_shots (cfg s)) <= length (knot_vels s))%nat ->
  exists s1,
    unflatten s x = Ok s1 /\ same_layout s1 s /\ same_records s s1 /\
    same_grads (torques s) (torques s1) /\
    same_grads (knot_poses s) (knot_poses s1) /\
    same_grads (knot_vels s) (knot_vels s1) /\
    (tune_starting_point (cfg s) = false ->
     nth_error (knot_poses s1) 0 = nth_error (knot_poses s) 0 /\
     nth_error (knot_vels s1) 0 = nth_error (knot_vels s) 0).
Proof.
  intros Hp Hv.
  destruct (unflatten_shots_ok x (Z.to_nat (num_shots (cfg s))) 0 s 0 0)
    as ([[s1 fc] tc] & Hloop); [simpl; lia|simpl; lia|].
  assert (Hloop' : unflatten_loop s x = Ok (s1, fc, tc)) by exact Hloop.
  assert (Hun : unflatten s x = Ok s1) by (unfold unflatten; rewrite Hloop'; reflexivity).
  exists s1. split; [exact Hun|]. split; [eapply unflatten_same_layout; exact Hun|].
  destruct (decodes_unflatten_loop x _ _ _ _ Hloop') as (D1 & D2 & D3 & D4 & D5 & _).
  repeat (split; [assumption|]). exact D5.
Qed.

Lemma unflatten_never_raises_witness :
  let s := StandIn.object (__init__ StandIn.world1 4 2 false true None []) in
  exists s1,
    unflatten s [] = Ok s1 /\ same_layout s1 s /\ same_records s s1 /\
    same_grads (torques s) (torques s1) /\
    same_grads (knot_poses s) (knot_poses s1) /\
    same_grads (knot_vels s) (knot_vels s1) /\
    (tune_starting_point (cfg s) = false ->
     nth_error (knot_poses s1) 0 = nth_error (knot_poses s) 0 /\
     nth_error (knot_vels s1) 0 = nth_error (knot_vels s) 0).
Proof.
  intros s. apply (unflatten_never_raises s []).
  - vm_compute. lia.
  - vm_compute. lia.
Defined.

(** ** What the rollout and the callbacks never change *)

Lemma same_layout_refl (s : Traj) : same_layout s s.
Proof. unfold same_layout. auto. Qed.

Lemma update_ref_same_layout (r : tref) (f : Tensor -> Tensor) (s : Traj) :
  same_layout (update_ref r f s) s.
Proof.
  unfold update_ref, same_layout.
  destruct r as [i|i|i]; simpl;
    match goal with |- context [nth_error ?l ?i] => destruct (nth_error l i) end;
    simpl; rewrite ?list_set_length; auto.
Qed.

Section Untouched.
Variable step_loss : vec -> vec -> vec -> World -> res float.
Variable final_loss : vec -> vec -> World -> res float.
Variable dart_layer : World -> vec -> vec -> vec -> res (vec * vec * BackpropSnapshot).
Variable torch_exp : float -> float.
Variable torch_norm : vec -> float.
Variable autograd : Traj -> tref -> vec.

(** X7.  [unroll] never writes a decision variable: whether it returns or
    raises, with or without knots and hook, it leaves the configuration,
    the torques, the knots and [last_x] as they were. *)
Theorem unroll_leaves_decision_variables (use_knots after_step : bool) (s : Traj) :
  same_vars s
    (final_state (unroll step_loss final_loss dart_layer torch_exp torch_norm
                    use_knots after_step s)).
Proof.
  assert (H : keeps (same_vars s)
                (unroll step_loss final_loss dart_layer torch_exp torch_norm
                   use_knots after_step) (fun _ => True)).
  { apply frame_unroll; intros; assumption. }
  specialize (H s (same_vars_refl s)).
  destruct (unroll _ _ _ _ _ _ _ s); [apply H|exact H].
Qed.

Lemma layout_kept_by {A : Type} (s0 : Traj) (c : M A) :
  keeps (fun s => same_layout s s0) c (fun _ => True) ->
  same_layout (final_state (c s0)) s0.
Proof.
  intros H. specialize (H s0 (same_layout_refl s0)). destruct (c s0); [apply H|exact H].
Qed.

Lemma layout_unflatten (s0 s s1 : Traj) (x : vec) :
  same_layout s s0 -> unflatten s x = Ok s1 -> same_layout s1 s0.
Proof.
  intros Hs H. eapply same_layout_trans; [eapply unflatten_same_layout; exact H|exact Hs].
Qed.

Lemma layout_update_ref (s0 : Traj) (r : tref) (f : Tensor -> Tensor) (s : Traj) :
  same_layout s s0 -> same_layout (update_ref r f s) s0.
Proof. intros Hs. eapply same_layout_trans; [apply update_ref_same_layout|exact Hs]. Qed.

(** X8.  The four solver callbacks never change the configuration nor the
    number of torques and knots: whatever [x] and [out], and whether they
    return or raise. *)
Theorem callbacks_keep_layout (x out : vec) (s : Traj) :
  same_layout (final_state (eval_f step_loss final_loss dart_layer torch_exp torch_norm x s)) s /\
  same_layout (final_state (eval_grad_f step_loss final_loss dart_layer torch_exp torch_norm
                              autograd x out s)) s /\
  same_layout (final_state (eval_g step_loss final_loss dart_layer torch_exp torch_norm
                              x out s)) s /\
  same_layout (final_state (eval_jac_g step_loss final_loss dart_layer torch_exp torch_norm
                              x out s)) s.
Proof.
  split; [|split; [|split]]; apply layout_kept_by.
  - apply frame_eval_f; try (intros; assumption).
    intros x' a b Ha Hb. eapply layout_unflatten; eauto.
  - apply frame_eval_grad_f; try (intros; assumption).
    + intros x' a b Ha Hb. eapply layout_unflatten; eauto.
    + intros r f a Ha. apply layout_update_ref. exact Ha.
  - apply frame_eval_g; try (intros; assumption).
    intros x' a b Ha Hb. eapply layout_unflatten; eauto.
  - apply frame_eval_jac_g; try (intros; assumption).
    intros x' a b Ha Hb. eapply layout_unflatten; eauto.
Qed.

(** ** A horizon that is not a whole number of segments *)

Lemma py_get_past_end {A : Type} (l : list A) (i : Z) :
  (Z.of_nat (length l) <= i)%Z -> py_get l i = Err IndexError.
Proof.
  intros H. unfold py_get.
  destruct (i <? 0)%Z eqn:E; [apply Z.ltb_lt in E; lia|].
  replace (Z.of_nat (length l) <=? i)%Z with true by (symmetry; apply Z.leb_le; exact H).
  rewrite orb_true_r. reflexivity.
Qed.

Lemma range_split (n i : Z) :
  (0 <= i < n)%Z -> exists l1 l2, range n = l1 ++ i :: l2.
Proof.
  intros H. apply in_split. unfold range. apply in_map_iff. exists (Z.to_nat i).
  split; [lia|]. apply in_seq. lia.
Qed.

Lemma mfold_app {X S : Type} (f : X -> S -> M S) (l1 l2 : list X) : forall (acc : S) (s : Traj),
  mfold f (l1 ++ l2) acc s
  = match mfold f l1 acc s with
    | Return a s' => mfold f l2 a s'
    | Raise e s' => Raise e s'
    end.
Proof.
  induction l1 as [|x l1 IH]; intros acc s; simpl; [reflexivity|].
  unfold mbind. destruct (f x acc s) as [a s'|e s']; [apply IH|reflexivity].
Qed.

Lemma range_split_at (n : Z) (t : nat) :
  (Z.of_nat t < n)%Z ->
  range n = range (Z.of_nat t) ++ Z.of_nat t :: map Z.of_nat (seq (S t) (Z.to_nat n - S t)).
Proof.
  intros H. unfold range. rewrite Nat2Z.id.
  replace (Z.to_nat n) with (t + S (Z.to_nat n - S t))%nat at 1 by lia.
  rewrite seq_app, map_app. reflexivity.
Qed.

(** The step at the first timestep after the last whole segment looks for a
    knot that does not exist. *)
Lemma unroll_step_raises_past_last_knot (after_step : bool) (st : roll_state) (s : Traj) :
  (1 <= shooting_length (cfg s))%Z -> (1 <= num_shots (cfg s))%Z ->
  length (knot_poses s) = Z.to_nat (num_shots (cfg s)) ->
  raises (unroll_step step_loss dart_layer torch_exp torch_norm true after_step
            (num_shots (cfg s) * shooting_length (cfg s)) st) s.
Proof.
  intros Hsl Hns Hkp. unfold unroll_step. destruct st as [[[pos vel] loss] kl].
  apply raises_get_self. apply raises_lift; intros tq _. apply raises_lift; intros t _.
  apply raises_lift; intros r Hr.
  unfold py_mod in Hr.
  destruct (shooting_length (cfg s) =? 0)%Z eqn:E; [apply Z.eqb_eq in E; lia|].
  rewrite Z.mod_mul in Hr by lia. inversion Hr; subst r; clear Hr.
  replace (0 <? num_shots (cfg s) * shooting_length (cfg s))%Z with true
    by (symmetry; apply Z.ltb_lt; nia).
  cbn [Z.eqb andb]. apply raises_bind_left. unfold unroll_knot.
  apply raises_get_self. apply raises_lift; intros ki Hki.
  unfold py_floor_div in Hki. rewrite E in Hki. rewrite Z.div_mul in Hki by lia.
  inversion Hki; subst ki; clear Hki.
  apply raises_bind_left. rewrite py_get_past_end by lia. apply raises_lift_err.
Qed.

Lemma unroll_raises_past_last_knot (after_step : bool) (s : Traj) :
  (1 <= shooting_length (cfg s))%Z -> (1 <= num_shots (cfg s))%Z ->
  length (knot_poses s) = Z.to_nat (num_shots (cfg s)) ->
  (num_shots (cfg s) * shooting_length (cfg s) < steps (cfg s))%Z ->
  raises (unroll step_loss final_loss dart_layer torch_exp torch_norm true after_step) s.
Proof.
  intros Hsl Hns Hkp Hlt. unfold unroll.
  apply raises_get_self. apply raises_lift; intros p _. apply raises_lift; intros v _.
  apply raises_bind_left.
  destruct (range_split (steps (cfg s)) (num_shots (cfg s) * shooting_length (cfg s)))
    as (l1 & l2 & ->); [nia|].
  apply (raises_mfold (fun s' => same_layout s' s)).
  - intros i acc. apply frame_unroll_step; intros; assumption.
  - intros acc s' (Hc & _ & Hl & _).
    rewrite <- Hc. apply unroll_step_raises_past_last_knot; rewrite ?Hc, ?Hl; assumption.
  - apply same_layout_refl.
Qed.

Lemma fresh_rollout_raises_past_last_knot (x : vec) (s0 s : Traj) :
  (1 <= shooting_length (cfg s0))%Z -> (1 <= num_shots (cfg s0))%Z ->
  length (knot_poses s0) = Z.to_nat (num_shots (cfg s0)) ->
  (num_shots (cfg s0) * shooting_length (cfg s0) < steps (cfg s0))%Z ->
  same_layout s s0 ->
  raises (ensure_fresh_rollout step_loss final_loss dart_layer torch_exp torch_norm x) s.
Proof.
  intros Hsl Hns Hkp Hlt Hs. unfold ensure_fresh_rollout.
  apply raises_get_self. apply raises_lift; intros [] _.
  apply raises_bind; intros [] s' E; inversion E; subst s'; clear E.
  apply raises_get_self. apply raises_lift; intros s1 H1.
  apply raises_bind; intros [] s' E; inversion E; subst s'; clear E.
  apply raises_bind_left.
  assert (H1' : same_layout s1 s0).
  { eapply layout_unflatten; [|exact H1]. exact Hs. }
  destruct H1' as (Hc & _ & Hl & _).
  apply unroll_raises_past_last_knot; rewrite ?Hc, ?Hl; assumption.
Qed.

(** The timestep after the last whole segment raises before any external
    call: by the lookup of the knot that does not exist, unless the
    torque of that timestep is missing or does not multiply with the mask. *)
Lemma unroll_step_past_last_knot (after_step : bool) (st : roll_state) (s : Traj) :
  (1 <= shooting_length (cfg s))%Z -> (1 <= num_shots (cfg s))%Z ->
  length (knot_poses s) = Z.to_nat (num_shots (cfg s)) ->
  exists e,
    unroll_step step_loss dart_layer torch_exp torch_norm true after_step
      (num_shots (cfg s) * shooting_length (cfg s)) st s = Raise e s /\
    ((exists u, masked_torque s (num_shots (cfg s) * shooting_length (cfg s)) u) ->
     e = IndexError).
Proof.
  intros Hsl Hns Hkp. destruct st as [[[pos vel] loss] kl].
  unfold unroll_step. unfold mbind at 1. unfold get_self.
  unfold mbind at 1. unfold lift at 1.
  destruct (py_get (torques s) _) as [tq|e] eqn:Htq.
  2:{ exists e. split; [reflexivity|]. intros (u & tq & H1 & _). congruence. }
  unfold mbind at 1. unfold lift at 1.
  destruct (mul_mask (data tq) (mask (cfg s))) as [u|e] eqn:Hu.
  2:{ exists e. split; [reflexivity|]. intros (u & tq' & H1 & H2). congruence. }
  exists IndexError. split; [|reflexivity].
  unfold mbind at 1. unfold lift at 1. unfold py_mod.
  destruct (shooting_length (cfg s) =? 0)%Z eqn:E; [apply Z.eqb_eq in E; lia|].
  rewrite Z.mod_mul by lia.
  replace (0 <? num_shots (cfg s) * shooting_length (cfg s))%Z with true
    by (symmetry; apply Z.ltb_lt; nia).
  cbn [Z.eqb andb]. unfold mbind at 1.
  unfold unroll_knot. unfold mbind at 1. unfold get_self.
  unfold mbind at 1. unfold lift at 1. unfold py_floor_div. rewrite E.
  rewrite Z.div_mul by lia.
  unfold mbind at 1. unfold lift at 1. rewrite py_get_past_end by lia. reflexivity.
Qed.

(** When the horizon is longer than the segments, the rollout never gets
    past the first timestep after the last whole segment. *)
Lemma unroll_past_last_knot (after_step : bool) (s : Traj) :
  (1 <= shooting_length (cfg s))%Z -> (1 <= num_shots (cfg s))%Z ->
  length (knot_poses s) = Z.to_nat (num_shots (cfg s)) ->
  (num_shots (cfg s) * shooting_length (cfg s) < steps (cfg s))%Z ->
  let T := (num_shots (cfg s) * shooting_length (cfg s))%Z in
  exists e s',
    unroll step_loss final_loss dart_layer torch_exp torch_norm true after_step s
    = Raise e s' /\
    (exists new, calls s' = calls s ++ new /\
                 (length new <= Z.to_nat T * calls_per_step after_step)%nat) /\
    (forall kp kv st1 s1,
       py_get (knot_poses s) 0 = Ok kp -> py_get (knot_vels s) 0 = Ok kv ->
       mfold (unroll_step step_loss dart_layer torch_exp torch_norm true after_step)
         (range T) (data kp, data kv, 0, 0) s = Return st1 s1 ->
       (exists u, masked_torque s T u) ->
       e = IndexError /\ s' = s1 /\
       length (calls s1) = (length (calls s) + Z.to_nat T * calls_per_step after_step)%nat).
Proof.
  intros Hsl Hns Hkp Hlt T.
  unfold unroll. unfold mbind at 1. unfold get_self.
  unfold mbind at 1. unfold lift at 1.
  destruct (py_get (knot_poses s) 0) as [kp|e] eqn:Hkp0.
  2:{ exists e, s. split; [reflexivity|]. split.
      - exists []. rewrite app_nil_r. split; [reflexivity|simpl; lia].
      - intros kp kv st1 s1 H. discriminate H. }
  unfold mbind at 1. unfold lift at 1.
  destruct (py_get (knot_vels s) 0) as [kv|e] eqn:Hkv0.
  2:{ exists e, s. split; [reflexivity|]. split.
      - exists []. rewrite app_nil_r. split; [reflexivity|simpl; lia].
      - intros kp' kv st1 s1 _ H. discriminate H. }
  unfold mbind at 1.
  rewrite (range_split_at (steps (cfg s)) (Z.to_nat T)) by (unfold T; lia).
  rewrite Z2Nat.id by (unfold T; nia). rewrite mfold_app.
  destruct (unroll_loop_trace step_loss dart_layer torch_exp torch_norm true after_step s
              (Z.to_nat T) 0 (data kp, data kv, 0, 0) s _ eq_refl (same_vars_refl s))
    as (V1 & new1 & C1 & _ & L1).
  change (map Z.of_nat (seq 0 (Z.to_nat T))) with (range T) in *.
  destruct (mfold _ (range T) _ s) as [st1 s1|e s1] eqn:Hloop; cbn [final_state] in V1, C1.
  - destruct V1 as (Vc & Vt & Vp & _).
    destruct (unroll_step_past_last_knot after_step st1 s1) as (e & Hstep & He);
      rewrite ?Vc, ?Vp; try assumption.
    rewrite Vc in Hstep. fold T in Hstep, He. rewrite Vc in He. fold T in He.
    cbn [mfold]. unfold mbind at 1. rewrite Hstep.
    exists e, s1. split; [reflexivity|]. split.
    + exists new1. split; [exact C1|]. lia.
    + intros kp' kv' st1' s1' E1 E2 E3 Hm. inversion E1; inversion E2; subst kp' kv'.
      rewrite Hloop in E3. inversion E3; subst st1' s1'. split; [|split; [reflexivity|]].
      * apply He. destruct Hm as (u & tq & H1 & H2). exists u, tq.
        unfold masked_torque. rewrite Vt, Vc. auto.
      * rewrite C1, length_app, L1. reflexivity.
  - exists e, s1. split; [reflexivity|]. split.
    + exists new1. split; [exact C1|exact L1].
    + intros kp' kv' st1' s1' E1 E2 E3. inversion E1; inversion E2; subst kp' kv'.
      rewrite Hloop in E3. discriminate E3.
Qed.


End Untouched.


(** ** What the constructor accepts and what it rejects *)

Lemma py_set_in_bounds {A : Type} (l : list A) (i : Z) (v : A) :
  (- Z.of_nat (length l) <= i < Z.of_nat (length l))%Z ->
  exists l', py_set l i v = Ok l' /\ length l' = length l.
Proof.
  intros H. unfold py_set.
  destruct (i <? 0)%Z eqn:E.
  - apply Z.ltb_lt in E.
    replace (i + Z.of_nat (length l) <? 0)%Z with false by (symmetry; apply Z.ltb_ge; lia).
    replace (Z.of_nat (length l) <=? i + Z.of_nat (length l))%Z with false
      by (symmetry; apply Z.leb_gt; lia).
    eexists. split; [reflexivity|apply list_set_length].
  - apply Z.ltb_ge in E. rewrite (proj2 (Z.ltb_ge i 0) E).
    replace (Z.of_nat (length l) <=? i)%Z with false by (symmetry; apply Z.leb_gt; lia).
    eexists. split; [reflexivity|apply list_set_length].
Qed.

Lemma py_set_out_of_bounds {A : Type} (l : list A) (i : Z) (v : A) :
  ~ (- Z.of_nat (length l) <= i < Z.of_nat (length l))%Z ->
  py_set l i v = Err IndexError.
Proof.
  intros H. unfold py_set.
  destruct (i <? 0)%Z eqn:E.
  - apply Z.ltb_lt in E.
    replace (i + Z.of_nat (length l) <? 0)%Z with true by (symmetry; apply Z.ltb_lt; lia).
    reflexivity.
  - apply Z.ltb_ge in E. rewrite (proj2 (Z.ltb_ge i 0) E).
    replace (Z.of_nat (length l) <=? i)%Z with true by (symmetry; apply Z.leb_le; lia).
    reflexivity.
Qed.

Lemma mask_loop_returns (dis : list Z) : forall m,
  Forall (fun j => (- Z.of_nat (length m) <= j < Z.of_nat (length m))%Z) dis ->
  exists mask, foldM (fun j m => py_set m j 0%Z) dis m = Ok mask.
Proof.
  induction dis as [|j dis IH]; intros m H; simpl.
  - eauto.
  - inversion H as [|? ? Hj Hdis]; subst.
    destruct (py_set_in_bounds m j 0%Z Hj) as (m1 & E & L). rewrite E. cbn [rbind].
    apply IH. rewrite L. exact Hdis.
Qed.

Lemma mask_loop_raises (dis : list Z) : forall m,
  Exists (fun j => ~ (- Z.of_nat (length m) <= j < Z.of_nat (length m))%Z) dis ->
  foldM (fun j m => py_set m j 0%Z) dis m = Err IndexError.
Proof.
  induction dis as [|j dis IH]; intros m H; simpl.
  - inversion H.
  - destruct (Z_le_dec (- Z.of_nat (length m)) j) as [H1|H1];
      [destruct (Z_lt_dec j (Z.of_nat (length m))) as [H2|H2]|].
    + destruct (py_set_in_bounds m j 0%Z (conj H1 H2)) as (m1 & E & L). rewrite E. cbn [rbind].
      apply IH. rewrite L. inversion H as [? ? Hj|? ? Hdis]; subst; [|exact Hdis].
      exfalso. apply Hj. split; assumption.
    + rewrite py_set_out_of_bounds by lia. reflexivity.
    + rewrite py_set_out_of_bounds by lia. reflexivity.
Qed.

(** What the mask loop leaves at an index no entry of the list names. *)
Lemma mask_loop_keeps (dis : list Z) : forall m mask (k : nat),
  foldM (fun j m => py_set m j 0%Z) dis m = Ok mask ->
  (forall j, In j dis -> py_index (length m) j <> Some k) ->
  nth_error mask k = nth_error m k.
Proof.
  induction dis as [|j dis IH]; intros m mask k H Hk; simpl in H.
  - inversion H; subst. reflexivity.
  - apply rbind_ok in H. destruct H as (m1 & E & H).
    apply py_set_index in E. destruct E as (k' & Hk' & ->).
    rewrite (IH _ _ k H).
    + rewrite nth_error_list_set. destruct (Nat.eqb k' k) eqn:Ek; [|reflexivity].
      apply Nat.eqb_eq in Ek. subst k'. exfalso. apply (Hk j); [left; reflexivity|exact Hk'].
    + intros j' Hj'. rewrite list_set_length. apply Hk. right. exact Hj'.
Qed.

Lemma mask_loop_zeroes (dis : list Z) : forall m mask (k : nat) (j : Z),
  foldM (fun j m => py_set m j 0%Z) dis m = Ok mask ->
  In j dis -> py_index (length m) j = Some k ->
  nth_error mask k = Some 0%Z.
Proof.
  intros m mask k j H Hj Hk.
  destruct (mask_disabled dis m mask H) as (Hlen & _ & Hin).
  specialize (Hin j Hj). apply py_get_index in Hin. destruct Hin as (k' & Hk' & Hz).
  rewrite Hlen, Hk in Hk'. inversion Hk'; subst k'. exact Hz.
Qed.

(** X10.  With [1 <= shooting_length <= steps], not both end constraints, and
    every disabled index within [-D, D), the constructor returns, also when
    [steps] is not a multiple of [shooting_length].  The object has
    [floor(steps / shooting_length)] segments and [last_x] has
    [get_flat_problem_dim()] entries, all 1e19. *)
Theorem init_returns (w : World) (nsteps slen : Z) (tune loop : bool) (efs : option vec)
    (dis : list Z) :
  (1 <= slen <= nsteps)%Z ->
  (loop = true -> efs = None) ->
  Forall (fun j => (- Z.of_nat (getNumDofs w) <= j < Z.of_nat (getNumDofs w))%Z) dis ->
  exists s0 n,
    __init__ w nsteps slen tune loop efs dis = Ok s0 /\
    num_shots (cfg s0) = (nsteps / slen)%Z /\
    shooting_length (cfg s0) = slen /\
    get_flat_problem_dim s0 = Ok n /\ (0 <= n)%Z /\
    last_x s0 = repeat 1e19%float (Z.to_nat n).
Proof.
  intros Hsl Hloop Hdis.
  assert (E0 : (slen =? 0)%Z = false) by (apply Z.eqb_neq; lia).
  assert (Hinit : exists s0, __init__ w nsteps slen tune loop efs dis = Ok s0).
  { unfold __init__.
    replace (negb (loop && match efs with Some _ => true | None => false end)) with true.
    2:{ destruct loop; [rewrite (Hloop eq_refl)|]; reflexivity. }
    cbn [rassert rbind]. unfold py_floor_div. rewrite E0. cbn [rbind].
    destruct (mask_loop_returns dis (repeat 1%Z (getNumDofs w))) as (msk & Hm).
    { rewrite repeat_length. exact Hdis. }
    rewrite Hm. cbn [rbind].
    unfold get_flat_problem_dim, py_mod, world_dofs.
    cbn [cfg world steps shooting_length num_shots tune_starting_point].
    rewrite Z.min_l by lia. rewrite E0. cbn [rbind].
    match goal with |- context [(?n <? 0)%Z] => assert (Hn : (0 <= n)%Z) end.
    { assert (H1 : (1 <= nsteps / slen)%Z) by (apply Z.div_le_lower_bound; lia).
      pose proof (Z.mod_pos_bound nsteps slen ltac:(lia)) as H3.
      generalize dependent (nsteps / slen)%Z. generalize dependent (nsteps mod slen)%Z.
      intros r Hr q Hq. generalize (Z.of_nat (getNumDofs w)) (Nat2Z.is_nonneg (getNumDofs w)).
      intros d Hd. destruct tune; cbn [negb]; nia. }
    apply Z.ltb_ge in Hn. rewrite Hn. eauto. }
  destruct Hinit as (s0 & Hinit).
  destruct (init_inv _ _ _ _ _ _ _ _ Hinit)
    as (ns & msk & n & Hns & _ & Hn & Hc0 & Hdim & _ & _ & _ & Hx).
  unfold py_floor_div in Hns. rewrite E0 in Hns. inversion Hns; subst ns; clear Hns.
  exists s0, n. rewrite Hc0. cbn [num_shots shooting_length].
  rewrite Z.min_l by lia. repeat split; try assumption; lia.
Qed.

Lemma init_returns_witness :
  exists s0 n,
    __init__ StandIn.world2 5 2 true false (Some [1; 2; 3; 4]%float) [1; -2]%Z = Ok s0 /\
    num_shots (cfg s0) = (5 / 2)%Z /\
    shooting_length (cfg s0) = 2%Z /\
    get_flat_problem_dim s0 = Ok n /\ (0 <= n)%Z /\
    last_x s0 = repeat 1e19%float (Z.to_nat n).
Proof.
  apply (init_returns StandIn.world2 5 2 true false (Some [1; 2; 3; 4]%float) [1; -2]%Z).
  - lia.
  - discriminate.
  - repeat constructor; simpl; lia.
Defined.

(** X11.  A disabled index outside [-D, D) makes the constructor raise
    [IndexError] (once the assertion on the end constraints and the
    division have passed): indices are not reduced or clipped. *)
Theorem init_rejects_bad_actuator_index (w : World) (nsteps slen : Z) (tune loop : bool)
    (efs : option vec) (dis : list Z) :
  (loop = true -> efs = None) ->
  slen <> 0%Z ->
  Exists (fun j => ~ (- Z.of_nat (getNumDofs w) <= j < Z.of_nat (getNumDofs w))%Z) dis ->
  __init__ w nsteps slen tune loop efs dis = Err IndexError.
Proof.
  intros Hloop Hsl Hdis. unfold __init__.
  replace (negb (loop && match efs with Some _ => true | None => false end)) with true.
  2:{ destruct loop; [rewrite (Hloop eq_refl)|]; reflexivity. }
  cbn [rassert rbind]. unfold py_floor_div.
  replace (slen =? 0)%Z with false by (symmetry; apply Z.eqb_neq; exact Hsl).
  cbn [rbind]. rewrite mask_loop_raises; [reflexivity|].
  rewrite repeat_length. exact Hdis.
Qed.

Lemma init_rejects_bad_actuator_index_witness :
  __init__ StandIn.world2 4 2 false false None [1; 2]%Z = Err IndexError.
Proof.
  apply init_rejects_bad_actuator_index.
  - discriminate.
  - discriminate.
  - apply Exists_cons_tl. apply Exists_cons_hd. simpl. lia.
Defined.



(** X13.  The mask the constructor builds has one entry per degree of freedom:
    0 where an entry of [disable_actuators] names the index (negative
    entries counting from the end), 1 everywhere else. *)
Theorem init_mask_exact (w : World) (nsteps slen : Z) (tune loop : bool)
    (efs : option vec) (dis : list Z) (s0 : Traj) :
  __init__ w nsteps slen tune loop efs dis = Ok s0 ->
  length (mask (cfg s0)) = getNumDofs w /\
  forall k, (k < getNumDofs w)%nat ->
    ((exists j, In j dis /\ py_index (getNumDofs w) j = Some k) ->
     nth_error (mask (cfg s0)) k = Some 0%Z) /\
    ((forall j, In j dis -> py_index (getNumDofs w) j <> Some k) ->
     nth_error (mask (cfg s0)) k = Some 1%Z).
Proof.
  intros Hinit.
  destruct (init_inv _ _ _ _ _ _ _ _ Hinit)
    as (ns & msk & n & _ & Hm & _ & Hc0 & _).
  rewrite Hc0. cbn [mask].
  destruct (mask_disabled _ _ _ Hm) as (Hlen & _). rewrite repeat_length in Hlen.
  split; [exact Hlen|]. intros k Hk. split.
  - intros (j & Hj & Hjk). eapply mask_loop_zeroes; [exact Hm|exact Hj|].
    rewrite repeat_length. exact Hjk.
  - intros Hno. rewrite (mask_loop_keeps _ _ _ k Hm).
    + apply nth_error_repeat. exact Hk.
    + intros j Hj. rewrite repeat_length. apply Hno. exact Hj.
Qed.

Lemma init_mask_exact_witness :
  let s0 := StandIn.object (__init__ StandIn.world2 4 2 false false None [-1]%Z) in
  length (mask (cfg s0)) = 2%nat /\
  forall k, (k < 2)%nat ->
    ((exists j, In j [-1]%Z /\ py_index 2 j = Some k) ->
     nth_error (mask (cfg s0)) k = Some 0%Z) /\
    ((forall j, In j [-1]%Z -> py_index 2 j <> Some k) ->
     nth_error (mask (cfg s0)) k = Some 1%Z).
Proof.
  intros s0.
  apply (init_mask_exact StandIn.world2 4 2 false false None [-1]%Z s0).
  vm_compute. reflexivity.
Defined.

(** ** The selector of [flatten] *)

(** X14.  [flatten] with a selector other than 'grad', 'upper_bound',
    'lower_bound' and 'state' raises [AssertionError], whatever [out]: by
    the length check or, when [out] has the right length, by the assertion
    of the first block it would write. *)
Theorem flatten_unknown_selector_raises (s : Traj) (out : vec) (which : string) :
  (1 <= shooting_length (cfg s))%Z ->
  (1 <= num_shots (cfg s))%Z ->
  tune_starting_point (cfg s) = true \/ (1 <= length (torques s))%nat ->
  which <> "grad"%string -> which <> "upper_bound"%string ->
  which <> "lower_bound"%string -> which <> "state"%string ->
  flatten s out which = Err AssertionError.
Proof.
  intros Hsl Hns Hfirst Hg Hu Hl Hst.
  apply String.eqb_neq in Hg, Hu, Hl, Hst.
  unfold flatten, get_flat_problem_dim, py_mod.
  replace (shooting_length (cfg s) =? 0)%Z with false by (symmetry; apply Z.eqb_neq; lia).
  cbn [rbind]. unfold rassert at 1.
  destruct (_ =? _)%Z; [|reflexivity]. cbn [rbind].
  unfold flatten_loop, range.
  destruct (Z.to_nat (num_shots (cfg s))) as [|m] eqn:Em; [lia|].
  cbn [seq map foldM]. cbn [Z.of_nat].
  assert (Hshot : flatten_shot s which 0 (out, O, O) = Err AssertionError).
  { unfold flatten_shot. cbn [Z.ltb Z.compare orb].
    destruct (tune_starting_point (cfg s)) eqn:Et.
    - unfold flatten_knot. rewrite Hg, Hu, Hl, Hst. reflexivity.
    - destruct Hfirst as [Hf|Hf]; [discriminate|].
      cbn [rbind snd]. unfold shot_length, range.
      destruct (Z.to_nat (Z.min (shooting_length (cfg s))
                            (Z.of_nat (length (torques s)) - Z.of_nat 0))) as [|q] eqn:Eq;
        [lia|].
      cbn [seq map foldM]. unfold flatten_torque. rewrite Hg, Hu, Hl, Hst. reflexivity. }
  rewrite Hshot. reflexivity.
Qed.

Lemma flatten_unknown_selector_raises_witness :
  flatten (StandIn.object (__init__ StandIn.world1 4 2 false true None [])) (np_zeros 6)
          "bounds" = Err AssertionError.
Proof.
  apply flatten_unknown_selector_raises.
  - vm_compute. discriminate.
  - vm_compute. discriminate.
  - right. vm_compute. lia.
  - discriminate.
  - discriminate.
  - discriminate.
  - discriminate.
Defined.

(** ** The offsets of the knots *)

(** X15.  [get_knot_x_offsets] agrees with the decoder: it has one entry per
    segment, [None] for a start that is not tunable, and for every other
    knot [i] the position of [unflatten]'s cursor after the segments before
    [i], which is where [unflatten] reads knot [i] from [x]. *)
Theorem knot_x_offsets_follow_unflatten (s s' : Traj) (x : vec) (i fc tc : nat) :
  (0 <= shooting_length (cfg s))%Z ->
  (0 <= num_shots (cfg s))%Z ->
  (num_shots (cfg s) * shooting_length (cfg s) <= Z.of_nat (length (torques s)))%Z ->
  (i < Z.to_nat (num_shots (cfg s)))%nat ->
  foldM (unflatten_shot x) (map Z.of_nat (seq 0 i)) (s, O, O) = Ok (s', fc, tc) ->
  length (get_knot_x_offsets s) = Z.to_nat (num_shots (cfg s)) /\
  nth_error (get_knot_x_offsets s) i
  = Some (if tune_starting_point (cfg s) || Nat.ltb 0 i then Some (Z.of_nat fc) else None).
Proof.
  intros Hsl Hns Hlen Hi Hloop.
  rewrite get_knot_x_offsets_spec by assumption.
  rewrite length_map, length_seq. split; [reflexivity|].
  rewrite nth_error_map, nth_error_seq.
  replace (Nat.ltb i (Z.to_nat (num_shots (cfg s)))) with true
    by (symmetry; apply Nat.ltb_lt; exact Hi).
  cbn [option_map Nat.add]. f_equal. unfold knot_x_offset.
  destruct (tune_starting_point (cfg s) || Nat.ltb 0 i); [|reflexivity].
  pose proof (unflatten_shots_cursors x _ _ _ _ _ _ _ _ Hloop) as Hcur. cbv zeta in Hcur.
  destruct Hcur as (_ & Hfc); [exact Hsl|reflexivity|simpl; nia|].
  f_equal. lia.
Qed.

Lemma knot_x_offsets_follow_unflatten_witness :
  let s := StandIn.object (__init__ StandIn.world1 6 2 false false None []) in
  let x := [1; 2; 3; 4; 5; 6; 7; 8; 9; 10]%float in
  exists s',
    foldM (unflatten_shot x) (map Z.of_nat (seq 0 2)) (s, O, O) = Ok (s', 6, 4)%nat /\
    length (get_knot_x_offsets s) = 3%nat /\
    nth_error (get_knot_x_offsets s) 2 = Some (Some 6%Z).
Proof.
  intros s x.
  destruct (foldM (unflatten_shot x) (map Z.of_nat (seq 0 2)) (s, O, O))
    as [[[s' fc] tc]|e] eqn:E; [|vm_compute in E; discriminate E].
  assert (Hc : (fc, tc) = (6, 4)%nat).
  { assert (H : option_map (fun st : unflat_state => (snd (fst st), snd st))
                  (match foldM (unflatten_shot x) (map Z.of_nat (seq 0 2)) (s, O, O) with
                   | Ok st => Some st | Err _ => None end) = Some (6, 4)%nat)
      by (vm_compute; reflexivity).
    rewrite E in H. simpl in H. congruence. }
  inversion Hc; subst fc tc. exists s'. split; [reflexivity|].
  apply (knot_x_offsets_follow_unflatten s s' x 2 6 4).
  - vm_compute. discriminate.
  - vm_compute. discriminate.
  - vm_compute. discriminate.
  - vm_compute. lia.
  - exact E.
Defined.

(** X16.  [get_knot_g_offsets] agrees with the constraint vector: it has one
    entry per segment, [None] for knot 0, and for every other knot [i] the
    position in [g(x)] at which [eval_g] writes the gap of knot [i], after
    the loop or terminal block and the gaps of the knots before. *)
Theorem knot_g_offsets_follow_eval_g (s : Traj) (i : nat) :
  shapes_ok s ->
  (i < Z.to_nat (num_shots (cfg s)))%nat ->
  length (get_knot_g_offsets s) = Z.to_nat (num_shots (cfg s)) /\
  nth_error (get_knot_g_offsets s) i
  = Some (if Nat.ltb 0 i
          then Some (Z.of_nat (length (terminal_block s
                                       ++ flat_map (gap_block s) (seq 1 (i - 1)))))
          else None).
Proof.
  intros Hs Hi. rewrite get_knot_g_offsets_spec.
  rewrite length_map, length_seq. split; [reflexivity|].
  rewrite nth_error_map, nth_error_seq.
  replace (Nat.ltb i (Z.to_nat (num_shots (cfg s)))) with true
    by (symmetry; apply Nat.ltb_lt; exact Hi).
  cbn [option_map Nat.add]. f_equal. unfold knot_g_offset.
  destruct (Nat.ltb 0 i) eqn:Ei; [|reflexivity]. apply Nat.ltb_lt in Ei.
  rewrite length_app, (terminal_block_length s Hs), gap_blocks_length by (exact Hs || lia).
  f_equal. destruct i as [|i]; [lia|]. replace (S i - 1)%nat with i by lia.
  destruct (loop_or_final s); nia.
Qed.

Lemma knot_g_offsets_follow_eval_g_witness :
  let s := StandIn.object (__init__ StandIn.world1 6 2 false true None []) in
  length (get_knot_g_offsets s) = 3%nat /\
  nth_error (get_knot_g_offsets s) 2
  = Some (Some (Z.of_nat (length (terminal_block s ++ flat_map (gap_block s) (seq 1 1))))).
Proof.
  intros s. apply (knot_g_offsets_follow_eval_g s 2).
  - unfold shapes_ok. vm_compute. repeat split; try discriminate; repeat constructor.
  - vm_compute. lia.
Defined.
